(** * Octopus: the statistical inference core, embedded and verified

    A shallow embedding of the parts of the Octopus variant caller that the
    specification makes claims about: the coalescent prior, the fixed-ploidy
    genotype likelihood, the tumour model's seed generation and ploidy
    dispatch, the haplotype tree's bounded extension, the phaser's forced
    phasing, the single-read pair-HMM wrapper and the haplotype likelihood
    cache.

    Conventions.
    - [double] values are embedded as mathematical reals ([R]); the claims
      are about the values the formulas denote, not about rounding.
    - [unsigned] values are embedded as [N], with the 32-bit wrap-around of
      [+] and [-] written out ([uadd], [usub]).
    - [std::size_t] counts and container sizes are [nat].
    - containers keep the source's order: [std::vector] is [list], a hash
      map is an association list searched from the front. *)

From Stdlib Require Import String Reals Lra Lia List Bool Arith NArith ZArith Sorted
  Permutation.
Import ListNotations.

Open Scope R_scope.

(** ** Machine integers *)

Module Unsigned.

Definition modulus : N := (2 ^ 32)%N.

Definition uadd (a b : N) : N := ((a + b) mod modulus)%N.

Definition usub (a b : N) : N := ((a + modulus - b mod modulus) mod modulus)%N.

(** [static_cast<double>] of an unsigned value. *)
Definition to_double (x : N) : R := INR (N.to_nat x).

(** The values [first, first+1, ..., last] of a loop
    [for (unsigned i {first}; i <= last; ++i)]. *)
Definition closed_range (first last : N) : list N :=
  map N.of_nat (seq (N.to_nat first) (S (N.to_nat last) - N.to_nat first)).

End Unsigned.

(** ** Standard containers and algorithms *)

Module Std.

(** [v[i] = f(v[i])]; nothing happens when [i] is out of range (the source
    has undefined behaviour there). *)
Fixpoint update_at {A : Type} (i : nat) (f : A -> A) (v : list A) : list A :=
  match v, i with
  | [], _ => []
  | x :: xs, O => f x :: xs
  | x :: xs, S i' => x :: update_at i' f xs
  end.

(** [std::vector::resize(n, x)] *)
Definition resize {A : Type} (n : nat) (x : A) (v : list A) : list A :=
  firstn n v ++ repeat x (n - length v).

(** [std::fill_n(v.begin() + pos, n, x)]; a range that leaves the vector
    is cut at its end (the source has undefined behaviour there). *)
Definition fill_n {A : Type} (pos n : nat) (x : A) (v : list A) : list A :=
  firstn pos v ++ map (fun _ => x) (firstn n (skipn pos v)) ++ skipn (pos + n) v.

(** [std::find_if(first, last, p)] as the offset of the iterator it
    returns from [first]; the length of the range stands for [last]. *)
Fixpoint find_if {A : Type} (p : A -> bool) (l : list A) : nat :=
  match l with
  | [] => O
  | x :: xs => if p x then O else S (find_if p xs)
  end.

Definition find_if_not {A : Type} (p : A -> bool) (l : list A) : nat :=
  find_if (fun x => negb (p x)) l.

Lemma nth_update_at {A} (f : A -> A) d : forall l i j,
  nth j (update_at i f l) d
  = if ((i =? j) && (j <? length l))%nat then f (nth j l d) else nth j l d.
Proof.
  induction l as [|x l IH]; intros i j.
  - destruct i, j; simpl; rewrite ?andb_false_r; reflexivity.
  - destruct i as [|i], j as [|j]; simpl; try reflexivity.
    rewrite IH. reflexivity.
Qed.

Lemma update_at_length {A} (f : A -> A) : forall l i,
  length (update_at i f l) = length l.
Proof.
  induction l as [|x l IH]; intros i; [destruct i; reflexivity|].
  destruct i as [|i]; simpl; [reflexivity | rewrite IH; reflexivity].
Qed.

Lemma update_at_app {A} (f : A -> A) pre x rest :
  update_at (length pre) f (pre ++ x :: rest) = pre ++ f x :: rest.
Proof. induction pre as [|y pre IH]; simpl; [reflexivity | rewrite IH; reflexivity]. Qed.

Lemma fold_left_ext {A B : Type} (f g : A -> B -> A) (l : list B) :
  (forall a x, f a x = g a x) -> forall a, fold_left f l a = fold_left g l a.
Proof.
  intros E. induction l as [|x l IH]; intros a; simpl; [reflexivity|].
  rewrite E. apply IH.
Qed.

Lemma fold_left_map_in {A B X} (f : A -> B -> A) (h : X -> B) l : forall a,
  fold_left f (map h l) a = fold_left (fun a x => f a (h x)) l a.
Proof. induction l as [|x l IH]; intros a; simpl; [reflexivity | apply IH]. Qed.

End Std.

(** ** utils/maths.hpp *)

Module Maths.

(** Modelled from the spec: [maths::log_sum_exp] (utils/maths.hpp is not
    part of the sources); section 7 fixes the max-shift form for every
    log-sum-exp. *)
Definition log_sum_exp2 (a b : R) : R :=
  let m := Rmax a b in
  m + ln (exp (a - m) + exp (b - m)).

Definition log_sum_exp3 (a b c : R) : R :=
  let m := Rmax a (Rmax b c) in
  m + ln (exp (a - m) + exp (b - m) + exp (c - m)).

Definition list_max (l : list R) : R :=
  match l with
  | [] => 0
  | x :: xs => fold_left Rmax xs x
  end.

Definition log_sum_exp (l : list R) : R :=
  let m := list_max l in
  m + ln (fold_left (fun acc x => acc + exp (x - m)) l 0).

(** Modelled from the spec: [maths::log_factorial<double>], the logarithm
    of [n!] (utils/maths.hpp is not part of the sources). *)
Definition log_factorial (n : N) : R := ln (INR (fact (N.to_nat n))).

(** Pascal's triangle; [boost::math::binomial_coefficient<double>] returns
    this number as a double. *)
Fixpoint choose (n k : nat) : nat :=
  match n, k with
  | _, O => 1
  | O, S _ => 0
  | S n', S k' => choose n' k' + choose n' k
  end.

End Maths.

(** ** std::complex<double> *)

Module Complex.

Record C : Type := mk { re : R; im : R }.

Definition of_real (x : R) : C := mk x 0.

Definition zero : C := mk 0 0.

Definition add (a b : C) : C := mk (re a + re b) (im a + im b).

Definition sub (a b : C) : C := mk (re a - re b) (im a - im b).

(** [z *= x] and [z += x] for a real [x]. *)
Definition scale (z : C) (x : R) : C := mk (re z * x) (im z * x).

Definition add_real (z : C) (x : R) : C := mk (re z + x) (im z).

Definition abs (z : C) : R := sqrt (re z * re z + im z * im z).

(** [std::arg], i.e. [atan2 (im z) (re z)]. *)
Definition arg (z : C) : R :=
  if Rlt_dec 0 (re z) then atan (im z / re z)
  else if Rlt_dec (re z) 0 then
         if Rle_dec 0 (im z) then atan (im z / re z) + PI
         else atan (im z / re z) - PI
  else if Rlt_dec 0 (im z) then PI / 2
  else if Rlt_dec (im z) 0 then - (PI / 2)
  else 0.

Definition log (z : C) : C := mk (ln (abs z)) (arg z).

Definition exp (z : C) : C :=
  mk (Rtrigo_def.exp (re z) * cos (im z)) (Rtrigo_def.exp (re z) * sin (im z)).

End Complex.

(** ** core/models/mutation/coalescent_model.cpp *)

Module Coalescent.

Import Unsigned Maths Std.

(** *** The closed-form coalescent probability *)

(** [powm1]: [std::pow(-1, i)] *)
Definition powm1 (i : N) : R := if (i mod 2 =? 0)%N then 1 else -1.

Definition binom (n k : N) : R := INR (choose (N.to_nat n) (N.to_nat k)).

Definition log_binom (n k : N) : R :=
  log_factorial n - (log_factorial k + log_factorial (usub n k)).

Definition coalescent_real_space (n k : N) (theta : R) : R :=
  let result :=
    fold_left
      (fun result i =>
         result
         + powm1 i * binom (usub n 1) (usub i 1)
           * (to_double (usub i 1) / (theta + to_double i - 1))
           * (theta / (theta + to_double i - 1)) ^ N.to_nat k)
      (closed_range 2 n) 0 in
  ln result.

(** [std::max_element] with the comparison on real parts: the first of the
    largest elements.  On an empty range the source dereferences the end
    iterator; the model yields [zero] there. *)
Fixpoint max_element_from (best : Complex.C) (l : list Complex.C) : Complex.C :=
  match l with
  | [] => best
  | x :: xs =>
      if Rlt_dec (Complex.re best) (Complex.re x)
      then max_element_from x xs
      else max_element_from best xs
  end.

Definition max_element (l : list Complex.C) : Complex.C :=
  match l with
  | [] => Complex.zero
  | x :: xs => max_element_from x xs
  end.

Definition complex_log_sum_exp (logs : list Complex.C) : Complex.C :=
  let max := max_element logs in
  Complex.add max
    (Complex.log
       (fold_left (fun curr x => Complex.add curr (Complex.exp (Complex.sub x max)))
          logs Complex.zero)).


Definition coalescent_log_space (n k : N) (theta : R) : R :=
  let tmp0 := repeat (Complex.log (Complex.of_real (-1))) (N.to_nat (usub n 1)) in
  let tmp :=
    fold_left
      (fun tmp i =>
         update_at (N.to_nat (usub i 2))
           (fun cur =>
              let cur := Complex.scale cur (to_double i) in
              let cur := Complex.add_real cur (log_binom (usub n 1) (usub i 1)) in
              let cur := Complex.add_real cur
                           (ln (to_double (usub i 1) / (theta + to_double i - 1))) in
              Complex.add_real cur
                (to_double k * ln (theta / (theta + to_double i - 1))))
           tmp)
      (closed_range 2 n) tmp0 in
  Complex.re (complex_log_sum_exp tmp).

Inductive EvaluationSpace : Type := RealSpace | LogSpace.

(** The branch taken by the three-argument [coalescent]. *)
Definition coalescent_space (k : N) : EvaluationSpace :=
  if (k <=? 80)%N then RealSpace else LogSpace.

Definition coalescent (n k : N) (theta : R) : R :=
  match coalescent_space k with
  | RealSpace => coalescent_real_space n k theta
  | LogSpace => coalescent_log_space n k theta
  end.

(** The five-argument [coalescent]. *)
Definition coalescent_sites (n k_snp k_indel : N) (theta_snp theta_indel : R) : R :=
  let theta := theta_snp + theta_indel in
  let k_tot := uadd k_snp k_indel in
  let result := coalescent n k_tot theta in
  let result := result + to_double k_snp * ln (theta_snp / theta) in
  let result := result + to_double k_indel * ln (theta_indel / theta) in
  let result := result + log_binom k_tot k_snp in
  result.

(** *** The model object *)

Record Parameters : Type :=
  { snp_heterozygosity : R;
    indel_heterozygosity : R }.

Inductive CachingStrategy : Type := caching_none | caching_value | caching_address.

(** A run reported by [tandem::extract_exact_tandem_repeats]. *)
Record TandemRepeat : Type :=
  { repeat_pos : nat;
    repeat_length : nat;
    repeat_period : nat }.

(** What the model reads of its reference haplotype: the size of the
    sequence and the exact tandem repeats of period 1 to 3 found in it by
    the tandem library (an external library, kept as data). *)
Record Reference : Type :=
  { sequence_size : nat;
    tandem_repeats : list TandemRepeat }.

(** What [evaluate] reads of a variant of the site buffer: [is_indel],
    [begin_distance(reference_, site)] and [region_size(site)]. *)
Record Site : Type :=
  { is_indel : bool;
    begin_distance : nat;
    region_size : nat }.

(** [std::pow] on a non-negative base and a positive exponent. *)
Definition std_pow (x y : R) : R := if Req_dec_T x 0 then 0 else Rpower x y.

(** [std::transform(itr1, itr2, itr1, f)] with [itr1 = begin + pos] and
    [itr2 = itr1 + len]; a range that leaves the vector is cut at its end
    (the source has undefined behaviour there). *)
Definition transform_range {A : Type} (pos len : nat) (f : A -> A) (v : list A) : list A :=
  firstn pos v ++ map f (firstn len (skipn pos v)) ++ skipn (pos + len) v.

Definition calculate_base_indel_heterozygosities
  (haplotype : Reference) (base_indel_heterozygosity : R) : list R :=
  fold_left
    (fun result run =>
       let n := (repeat_length run / repeat_period run)%nat in
       let t := Rmin (base_indel_heterozygosity * std_pow (INR n) 2.6) 1 in
       transform_range (repeat_pos run) (repeat_length run) (fun h => Rmax h t) result)
    (tandem_repeats haplotype)
    (repeat base_indel_heterozygosity (sequence_size haplotype)).

Definition CacheKey : Type := (N * N * N * Z)%type.

Record CoalescentModel : Type :=
  { reference_ : Reference;
    reference_base_indel_heterozygosities_ : list R;
    params_ : Parameters;
    caching_ : CachingStrategy;
    site_buffer1_ : list Site;
    k_indel_zero_result_cache_ : list (list (option R));
    k_indel_pos_result_cache_ : list (CacheKey * R) }.

Inductive Exception : Type := domain_error (what : string).

Definition Rleb (x y : R) : bool := if Rle_dec x y then true else false.

(** The constructor.  The difference caches and the index buffers are not
    read by [evaluate] and are left out of the record. *)
Definition make_CoalescentModel
  (reference : Reference) (params : Parameters) (num_haplotyes_hint : nat)
  (caching : CachingStrategy) : Exception + CoalescentModel :=
  if Rleb (snp_heterozygosity params) 0 || Rleb (indel_heterozygosity params) 0
  then inl (domain_error "CoalescentModel: snp and indel heterozygosity must be > 0")
  else inr {| reference_ := reference;
              reference_base_indel_heterozygosities_ :=
                calculate_base_indel_heterozygosities reference (indel_heterozygosity params);
              params_ := params;
              caching_ := caching;
              site_buffer1_ := [];
              k_indel_zero_result_cache_ := repeat [] (2 * num_haplotyes_hint);
              k_indel_pos_result_cache_ := [] |}.

(** [count_segregating_sites] (coalescent_model.hpp, not part of the
    sources) leaves the sites of the haplotypes being rated in
    [site_buffer1_] before [evaluate] runs. *)
Definition with_site_buffer (m : CoalescentModel) (sites : list Site) : CoalescentModel :=
  {| reference_ := reference_ m;
     reference_base_indel_heterozygosities_ := reference_base_indel_heterozygosities_ m;
     params_ := params_ m;
     caching_ := caching_ m;
     site_buffer1_ := sites;
     k_indel_zero_result_cache_ := k_indel_zero_result_cache_ m;
     k_indel_pos_result_cache_ := k_indel_pos_result_cache_ m |}.

Definition with_zero_cache (m : CoalescentModel) (cache : list (list (option R)))
  : CoalescentModel :=
  {| reference_ := reference_ m;
     reference_base_indel_heterozygosities_ := reference_base_indel_heterozygosities_ m;
     params_ := params_ m;
     caching_ := caching_ m;
     site_buffer1_ := site_buffer1_ m;
     k_indel_zero_result_cache_ := cache;
     k_indel_pos_result_cache_ := k_indel_pos_result_cache_ m |}.

Definition with_pos_cache (m : CoalescentModel) (cache : list (CacheKey * R))
  : CoalescentModel :=
  {| reference_ := reference_ m;
     reference_base_indel_heterozygosities_ := reference_base_indel_heterozygosities_ m;
     params_ := params_ m;
     caching_ := caching_ m;
     site_buffer1_ := site_buffer1_ m;
     k_indel_zero_result_cache_ := k_indel_zero_result_cache_ m;
     k_indel_pos_result_cache_ := cache |}.


(** [cache[n][k_snp] = result] *)
Definition store_zero (cache : list (list (option R))) (n k_snp : nat) (result : R)
  : list (list (option R)) :=
  update_at n (update_at k_snp (fun _ => Some result)) cache.

(** [evaluate(k_snp, n)]: the table for [k_indel = 0]. *)
Definition evaluate_k_indel_zero (m : CoalescentModel) (k_snp n : N)
  : R * CoalescentModel :=
  let cache := k_indel_zero_result_cache_ m in
  let computed :=
    coalescent_sites n k_snp 0
      (snp_heterozygosity (params_ m)) (indel_heterozygosity (params_ m)) in
  if (N.to_nat n <? length cache)%nat then
    let row := nth (N.to_nat n) cache [] in
    if (N.to_nat k_snp <? length row)%nat then
      match nth (N.to_nat k_snp) row None with
      | Some result => (result, m)
      | None =>
          (computed,
           with_zero_cache m (store_zero cache (N.to_nat n) (N.to_nat k_snp) computed))
      end
    else
      let cache :=
        update_at (N.to_nat n) (resize (N.to_nat (uadd k_snp 1)) None) cache in
      (computed,
       with_zero_cache m (store_zero cache (N.to_nat n) (N.to_nat k_snp) computed))
  else
    let cache := resize (N.to_nat (uadd n 1)) [] cache in
    let cache :=
      update_at (N.to_nat n) (fun _ => repeat None (N.to_nat (uadd k_snp 1))) cache in
    (computed,
     with_zero_cache m (store_zero cache (N.to_nat n) (N.to_nat k_snp) computed)).

(** One turn of the loop over the site buffer in [evaluate(k_snp, k_indel, n)]:
    [acc] is [(indel_heterozygosity, max_offset)].  The source reads out of
    range when the site's region leaves the table: the model cuts the
    region at the table's end, and leaves [acc] as it is when the site
    lies behind it. *)
Definition elevate (heterozygosities : list R) (acc : R * Z) (site : Site) : R * Z :=
  if is_indel site then
    let offset := begin_distance site in
    match firstn (Nat.max 1 (region_size site)) (skipn offset heterozygosities) with
    | [] => acc
    | x :: xs =>
        let largest := fold_left Rmax xs x in
        if Rlt_dec (fst acc) largest then (largest, Z.of_nat offset) else acc
    end
  else acc.

Definition key_eqb (a b : CacheKey) : bool :=
  let '(a1, a2, a3, a4) := a in
  let '(b1, b2, b3, b4) := b in
  (a1 =? b1)%N && (a2 =? b2)%N && (a3 =? b3)%N && (a4 =? b4)%Z.

Fixpoint find_key (t : CacheKey) (cache : list (CacheKey * R)) : option R :=
  match cache with
  | [] => None
  | (t', v) :: rest => if key_eqb t t' then Some v else find_key t rest
  end.

(** The indel heterozygosity and the offset the loop over the site buffer
    ends with. *)
Definition elevated (m : CoalescentModel) : R * Z :=
  fold_left (elevate (reference_base_indel_heterozygosities_ m)) (site_buffer1_ m)
    (indel_heterozygosity (params_ m), (-1)%Z).

(** [evaluate(k_snp, k_indel, n)] *)
Definition evaluate_k_indel_pos (m : CoalescentModel) (k_snp k_indel n : N)
  : R * CoalescentModel :=
  let '(indel_heterozygosity, max_offset) := elevated m in
  let t := (k_snp, k_indel, n, max_offset) in
  match find_key t (k_indel_pos_result_cache_ m) with
  | Some cached => (cached, m)
  | None =>
      let result :=
        coalescent_sites n k_snp k_indel
          (snp_heterozygosity (params_ m)) indel_heterozygosity in
      (result, with_pos_cache m ((t, result) :: k_indel_pos_result_cache_ m))
  end.

(** [evaluate(const SiteCountTuple&)], with [t = (k_snp, k_indel, n)]. *)
Definition evaluate (m : CoalescentModel) (t : N * N * N) : R * CoalescentModel :=
  let '(k_snp, k_indel, n) := t in
  if (k_indel =? 0)%N then evaluate_k_indel_zero m k_snp n
  else evaluate_k_indel_pos m k_snp k_indel n.

(** *** The specification's formulas *)

(** [bigsum n g] is [g 0 + ... + g (n-1)]. *)
Fixpoint bigsum (n : nat) (g : nat -> R) : R :=
  match n with
  | O => 0
  | S n' => bigsum n' g + g n'
  end.

(** The sum inside [C(n,k,theta)], over [i = 2..n], as the specification
    writes it. *)
Definition kingman_sum (n k : nat) (theta : R) : R :=
  bigsum (n - 1)
    (fun r =>
       let i := (r + 2)%nat in
       (-1) ^ i * INR (choose (n - 1) (i - 1))
       * (INR (i - 1) / (theta + INR i - 1))
       * (theta / (theta + INR i - 1)) ^ k).

(** [C(n,k,theta)] *)
Definition kingman_log_probability (n k : nat) (theta : R) : R :=
  ln (kingman_sum n k theta).

(** The prior of section 4.3. *)
Definition coalescent_prior (n k_snp k_indel : nat) (theta_snp theta_indel : R) : R :=
  let theta := theta_snp + theta_indel in
  kingman_log_probability n (k_snp + k_indel) theta
  + INR k_snp * ln (theta_snp / theta)
  + INR k_indel * ln (theta_indel / theta)
  + ln (INR (choose (k_snp + k_indel) k_snp)).

(** The indel heterozygosity [evaluate] rates a tuple with. *)
Definition effective_indel_heterozygosity (m : CoalescentModel) (k_indel : N) : R :=
  if (k_indel =? 0)%N then indel_heterozygosity (params_ m) else fst (elevated m).

(** The result caches hold what [coalescent_sites] gives for their keys. *)
Definition zero_cache_consistent (m : CoalescentModel) : Prop :=
  forall (n k_snp : N) (v : R),
    nth (N.to_nat k_snp) (nth (N.to_nat n) (k_indel_zero_result_cache_ m) []) None = Some v ->
    v = coalescent_sites n k_snp 0
          (snp_heterozygosity (params_ m)) (indel_heterozygosity (params_ m)).

Definition pos_cache_consistent_at (m : CoalescentModel) (k_snp k_indel n : N) : Prop :=
  forall v : R,
    find_key (k_snp, k_indel, n, snd (elevated m)) (k_indel_pos_result_cache_ m) = Some v ->
    v = coalescent_sites n k_snp k_indel
          (snp_heterozygosity (params_ m)) (fst (elevated m)).

(** *** Finite differences *)

Definition diff (f : nat -> R) : nat -> R := fun x => f x - f (S x).

Fixpoint iter_diff (p : nat) (f : nat -> R) : nat -> R :=
  match p with
  | O => f
  | S p' => diff (iter_diff p' f)
  end.

Definition alt_sum (p : nat) (f : nat -> R) (x : nat) : R :=
  bigsum (S p) (fun r => (-1) ^ r * INR (choose p r) * f (x + r)%nat).

(** All differences of [f] up to order [p] are positive. *)
Definition monotone_to_order (p : nat) (f : nat -> R) : Prop :=
  forall q x, (q <= p)%nat -> 0 < iter_diff q f x.

Definition hinv (theta : R) (x : nat) : R := / (theta + INR x).


(** *** Cache entries and a model over a repeat *)

(** Every entry of [new] is an entry of [old]. *)
Definition subentries (new old : list (list (option R))) : Prop :=
  forall i j v, nth j (nth i new []) None = Some v -> nth j (nth i old []) None = Some v.

(** A reference of four bases that is one homopolymer run, rated with
    heterozygosities of one half, and a deletion of its second base. *)
Definition repeat_reference : Reference :=
  {| sequence_size := 4;
     tandem_repeats := [ {| repeat_pos := 0; repeat_length := 4; repeat_period := 1 |} ] |}.

Definition half_parameters : Parameters :=
  {| snp_heterozygosity := 1 / 2; indel_heterozygosity := 1 / 2 |}.

Definition deletion_site : Site :=
  {| is_indel := true; begin_distance := 1; region_size := 1 |}.

Definition repeat_model : CoalescentModel :=
  {| reference_ := repeat_reference;
     reference_base_indel_heterozygosities_ :=
       calculate_base_indel_heterozygosities repeat_reference (1 / 2);
     params_ := half_parameters;
     caching_ := caching_none;
     site_buffer1_ := [];
     k_indel_zero_result_cache_ := repeat [] (2 * 1);
     k_indel_pos_result_cache_ := [] |}.

(** *** Calls in sequence *)

(** The values that [evaluate] returns for the tuples [ts], asked for one
    after the other on the same model object. *)
Fixpoint evaluate_each (m : CoalescentModel) (ts : list (N * N * N)) : list R :=
  match ts with
  | [] => []
  | t :: rest => fst (evaluate m t) :: evaluate_each (snd (evaluate m t)) rest
  end.

(** A call as [evaluate(haplotype_indices)] makes it: the sites of the
    haplotypes are put into the site buffer, then their tuple of counts is
    evaluated. *)
Definition Call : Type := (list Site * (N * N * N))%type.

Definition evaluate_sites (m : CoalescentModel) (call : Call) : R * CoalescentModel :=
  evaluate (with_site_buffer m (fst call)) (snd call).

(** The model object after the calls [calls], made one after the other. *)
Definition after_calls (m : CoalescentModel) (calls : list Call) : CoalescentModel :=
  fold_left (fun m call => snd (evaluate_sites m call)) calls m.

(** The entries of the table of per-base indel heterozygosities under a
    site: [max(1, region_size)] entries from the site's offset on. *)
Definition site_heterozygosities (heterozygosities : list R) (site : Site) : list R :=
  firstn (Nat.max 1 (region_size site)) (skipn (begin_distance site) heterozygosities).

(** The largest of the model's indel heterozygosity [base] and the
    per-base values under the indel sites of [sites]. *)
Definition largest_indel_heterozygosity
  (base : R) (heterozygosities : list R) (sites : list Site) : R :=
  fold_left Rmax
    (concat (map (site_heterozygosities heterozygosities) (filter is_indel sites))) base.

(** The model [m'] has the parameters and the table of [m], its cache for
    [k_indel = 0] holds computed values, and every entry of its cache for
    [k_indel > 0] was computed for the sites of one of the calls [calls]
    with the entry's counts. *)
Definition caches_from_calls (m : CoalescentModel) (calls : list Call) (m' : CoalescentModel)
  : Prop :=
  params_ m' = params_ m
  /\ reference_base_indel_heterozygosities_ m' = reference_base_indel_heterozygosities_ m
  /\ zero_cache_consistent m'
  /\ forall k_snp k_indel n offset v,
       find_key (k_snp, k_indel, n, offset) (k_indel_pos_result_cache_ m') = Some v ->
       exists sites,
         In (sites, (k_snp, k_indel, n)) calls
         /\ v = coalescent_sites n k_snp k_indel (snp_heterozygosity (params_ m))
                 (fst (elevated (with_site_buffer m sites))).

(** Both result caches hold what [coalescent] gives for their keys, for
    the sites that are in the site buffer. *)
Definition caches_consistent (m : CoalescentModel) : Prop :=
  zero_cache_consistent m
  /\ forall k_snp k_indel n, pos_cache_consistent_at m k_snp k_indel n.

(** A tuple [(k_snp, k_indel, n)] of at least two haplotypes whose counts
    add up inside an [unsigned]. *)
Definition representable (t : N * N * N) : Prop :=
  let '(k_snp, k_indel, n) := t in
  (2 <= n < modulus)%N /\ (k_snp + k_indel < modulus)%N.

(** The prior of section 4.3 for a tuple, with the indel heterozygosity
    that [evaluate] rates it with. *)
Definition prior_of (m : CoalescentModel) (t : N * N * N) : R :=
  let '(k_snp, k_indel, n) := t in
  coalescent_prior (N.to_nat n) (N.to_nat k_snp) (N.to_nat k_indel)
    (snp_heterozygosity (params_ m)) (effective_indel_heterozygosity m k_indel).

(** A reference of two runs, [AA] and [CCCC], rated with heterozygosities
    of one hundredth, and two deletions that begin at its second base: one
    of a single base, one that reaches into the second run. *)
Definition two_runs_reference : Reference :=
  {| sequence_size := 6;
     tandem_repeats := [ {| repeat_pos := 0; repeat_length := 2; repeat_period := 1 |};
                         {| repeat_pos := 2; repeat_length := 4; repeat_period := 1 |} ] |}.

Definition hundredth_parameters : Parameters :=
  {| snp_heterozygosity := 1 / 100; indel_heterozygosity := 1 / 100 |}.

Definition short_deletion : Site :=
  {| is_indel := true; begin_distance := 1; region_size := 1 |}.

Definition long_deletion : Site :=
  {| is_indel := true; begin_distance := 1; region_size := 2 |}.

Definition two_runs_model : CoalescentModel :=
  {| reference_ := two_runs_reference;
     reference_base_indel_heterozygosities_ :=
       calculate_base_indel_heterozygosities two_runs_reference (1 / 100);
     params_ := hundredth_parameters;
     caching_ := caching_none;
     site_buffer1_ := [];
     k_indel_zero_result_cache_ := repeat [] (2 * 1);
     k_indel_pos_result_cache_ := [] |}.

(** *** Sums, binomial coefficients and finite differences *)

Section FiniteDifferences.





Lemma bigsum_ext n g h : (forall r, (r < n)%nat -> g r = h r) -> bigsum n g = bigsum n h.
Proof.
  induction n as [|n IH]; intros E; simpl; [reflexivity|].
  rewrite IH by (intros; apply E; lia). rewrite E by lia. reflexivity.
Qed.

Lemma bigsum_plus n g h : bigsum n (fun r => g r + h r) = bigsum n g + bigsum n h.
Proof. induction n as [|n IH]; simpl; [lra | rewrite IH; lra]. Qed.

Lemma bigsum_scal n c g : bigsum n (fun r => c * g r) = c * bigsum n g.
Proof. induction n as [|n IH]; simpl; [lra | rewrite IH; lra]. Qed.

Lemma bigsum_shift n g : bigsum (S n) g = g O + bigsum n (fun r => g (S r)).
Proof.
  induction n as [|n IH]; [simpl; lra|].
  change (bigsum (S (S n)) g) with (bigsum (S n) g + g (S n)).
  rewrite IH. simpl. lra.
Qed.

Lemma choose_gt n : forall k, (n < k)%nat -> choose n k = O.
Proof.
  induction n as [|n IH]; intros [|k] H; simpl; try lia.
  rewrite !IH by lia. reflexivity.
Qed.

Lemma choose_n_0 n : choose n 0 = 1%nat.
Proof. destruct n; reflexivity. Qed.

Lemma alt_sum_step p f x : alt_sum (S p) f x = alt_sum p f x - alt_sum p f (S x).
Proof.
  unfold alt_sum.
  set (H := fun r => (-1) ^ r * INR (choose p r) * f (x + r)%nat).
  set (A := fun r => (-1) ^ r * INR (choose p r) * f (S x + r)%nat).
  rewrite (bigsum_shift (S p)).
  rewrite (bigsum_ext (S p) _ (fun r => (-1) * A r + H (S r))).
  2:{ intros r _. unfold A, H.
      change (choose (S p) (S r)) with (choose p r + choose p (S r))%nat.
      rewrite plus_INR. replace (x + S r)%nat with (S x + r)%nat by lia. simpl. lra. }
  rewrite bigsum_plus, bigsum_scal.
  assert (E1 : bigsum (S p) (fun r => H (S r)) = bigsum p (fun r => H (S r))).
  { simpl. unfold H at 2. rewrite (choose_gt p (S p)) by lia. simpl. lra. }
  assert (E2 : bigsum (S p) H = H O + bigsum p (fun r => H (S r))) by apply bigsum_shift.
  assert (E3 : H O = f x) by (unfold H; rewrite choose_n_0, Nat.add_0_r; simpl; lra).
  rewrite E1, E2, E3, choose_n_0, Nat.add_0_r.
  generalize (bigsum (S p) A) (bigsum p (fun r => H (S r))). intros a b. simpl. lra.
Qed.

Lemma alt_sum_iter_diff p : forall f x, alt_sum p f x = iter_diff p f x.
Proof.
  induction p as [|p IH]; intros f x.
  - unfold alt_sum. simpl. rewrite Nat.add_0_r. lra.
  - rewrite alt_sum_step, !IH. reflexivity.
Qed.

Lemma iter_diff_ext p : forall f g, (forall x, f x = g x) -> forall x, iter_diff p f x = iter_diff p g x.
Proof.
  induction p as [|p IH]; intros f g E x; simpl; [apply E|].
  unfold diff. rewrite (IH f g E x), (IH f g E (S x)). reflexivity.
Qed.

Lemma iter_diff_comm p : forall f x, iter_diff p (diff f) x = diff (iter_diff p f) x.
Proof.
  induction p as [|p IH]; intros f x; simpl; [reflexivity|].
  unfold diff at 1 3. rewrite !IH. reflexivity.
Qed.

Lemma iter_diff_shift p : forall f x, iter_diff p (fun y => f (S y)) x = iter_diff p f (S x).
Proof.
  induction p as [|p IH]; intros f x; simpl; [reflexivity|].
  unfold diff. rewrite !IH. reflexivity.
Qed.

Lemma iter_diff_plus p : forall f g x, iter_diff p (fun y => f y + g y) x = iter_diff p f x + iter_diff p g x.
Proof.
  induction p as [|p IH]; intros f g x; simpl; [reflexivity|].
  unfold diff. rewrite !IH. lra.
Qed.


Lemma monotone_weaken p q f : (q <= p)%nat -> monotone_to_order p f -> monotone_to_order q f.
Proof. intros L H r x Hr. apply H. lia. Qed.

Lemma monotone_diff p f : monotone_to_order (S p) f -> monotone_to_order p (diff f).
Proof. intros H q x Hq. rewrite iter_diff_comm. apply (H (S q) x). lia. Qed.

Lemma monotone_shift p f : monotone_to_order p f -> monotone_to_order p (fun y => f (S y)).
Proof. intros H q x Hq. rewrite iter_diff_shift. apply H. lia. Qed.

Lemma monotone_mult p : forall f g, monotone_to_order p f -> monotone_to_order p g -> monotone_to_order p (fun y => f y * g y).
Proof.
  induction p as [|p IH]; intros f g Hf Hg q x Hq.
  - replace q with O by lia. simpl.
    apply Rmult_lt_0_compat; [apply (Hf O x) | apply (Hg O x)]; lia.
  - destruct (Nat.eq_dec q (S p)) as [->|Hne].
    + change (iter_diff (S p) (fun y => f y * g y) x) with (diff (iter_diff p (fun y => f y * g y)) x).
      rewrite <- iter_diff_comm.
      rewrite (iter_diff_ext p _ (fun y => diff f y * g y + f (S y) * diff g y))
        by (intros y; unfold diff; lra).
      rewrite iter_diff_plus.
      apply Rplus_lt_0_compat.
      * apply (IH (diff f) g); [apply monotone_diff, Hf | apply (monotone_weaken (S p)); [lia | apply Hg] | lia].
      * apply (IH (fun y => f (S y)) (diff g));
          [apply monotone_shift, (monotone_weaken (S p)); [lia | apply Hf] | apply monotone_diff, Hg | lia].
    + apply (IH f g); [apply (monotone_weaken (S p)); [lia|assumption] .. | lia].
Qed.

End FiniteDifferences.

Section Reciprocal.

Variable theta : R.
Hypothesis theta_pos : 0 < theta.


Lemma hinv_pos x : 0 < (hinv theta) x.
Proof. unfold hinv. apply Rinv_0_lt_compat. pose proof (pos_INR x). lra. Qed.

Lemma monotone_hinv p : monotone_to_order p (hinv theta).
Proof.
  induction p as [|p IH]; intros q x Hq.
  - replace q with O by lia. apply hinv_pos.
  - destruct (Nat.eq_dec q (S p)) as [->|Hne]; [|apply IH; lia].
    change (iter_diff (S p) (hinv theta) x) with (diff (iter_diff p (hinv theta)) x).
    rewrite <- iter_diff_comm.
    rewrite (iter_diff_ext p _ (fun y => (hinv theta) y * (hinv theta) (S y))).
    + apply (monotone_mult p (hinv theta) (fun y => (hinv theta) (S y))); [apply IH | apply monotone_shift, IH | lia].
    + intros y. unfold diff, hinv. rewrite S_INR.
      pose proof (pos_INR y). field. lra.
Qed.

Lemma monotone_hinv_pow p k : monotone_to_order p (fun x => (hinv theta) x ^ S k).
Proof.
  induction k as [|k IH].
  - intros q x Hq. rewrite (iter_diff_ext q _ (hinv theta)) by (intros y; simpl; lra).
    apply (monotone_hinv p); assumption.
  - intros q x Hq.
    rewrite (iter_diff_ext q _ (fun y => (hinv theta) y * (hinv theta) y ^ S k)) by (intros y; simpl; lra).
    apply (monotone_mult p (hinv theta) _ (monotone_hinv p) IH). assumption.
Qed.

Lemma alt_sum_hinv_pow_pos p k x : 0 < alt_sum p (fun y => (hinv theta) y ^ S k) x.
Proof. rewrite alt_sum_iter_diff. apply (monotone_hinv_pow p k p x). lia. Qed.

End Reciprocal.


(* binomial identities *)
Lemma choose_absorb m : forall r, (choose (S m) (S r) * S r = S m * choose m r)%nat.
Proof.
  induction m as [|m IH]; intros r.
  - destruct r; simpl; lia.
  - change (choose (S (S m)) (S r)) with (choose (S m) r + choose (S m) (S r))%nat.
    destruct r as [|r].
    + rewrite !choose_n_0. specialize (IH O). rewrite choose_n_0 in IH. simpl in *. lia.
    + pose proof (IH r) as H1. pose proof (IH (S r)) as H2.
      change (choose (S m) (S r)) with (choose m r + choose m (S r))%nat in *.
      nia.
Qed.

Lemma choose_fact n : forall k, (k <= n)%nat -> (choose n k * (fact k * fact (n - k)) = fact n)%nat.
Proof.
  induction n as [|n IH]; intros k Hk.
  - replace k with O by lia. reflexivity.
  - destruct k as [|k].
    + rewrite choose_n_0. simpl. lia.
    + change (choose (S n) (S k)) with (choose n k + choose n (S k))%nat.
      replace (S n - S k)%nat with (n - k)%nat by lia.
      destruct (Nat.eq_dec k n) as [->|Hne].
      * rewrite (choose_gt n (S n)) by lia. pose proof (IH n (le_n n)) as H.
        rewrite Nat.sub_diag in *. simpl in *. nia.
      * pose proof (IH k ltac:(lia)) as H1. pose proof (IH (S k) ltac:(lia)) as H2.
        replace (n - k)%nat with (S (n - S k)) in * by lia.
        change (fact (S n)) with (S n * fact n)%nat.
        change (fact (S k)) with (S k * fact k)%nat in *.
        change (fact (S (n - S k))) with (S (n - S k) * fact (n - S k))%nat in *.
        nia.
Qed.

Lemma choose_pos n k : (k <= n)%nat -> (0 < choose n k)%nat.
Proof.
  intros H. pose proof (choose_fact n k H). pose proof (fact_neq_0 n).
  destruct (choose n k); simpl in *; lia.
Qed.

Lemma pow_m1_SS r : (-1) ^ (r + 2) = (-1) ^ r.
Proof. rewrite pow_add. simpl. lra. Qed.

Lemma kingman_sum_alt m k theta :
  0 < theta ->
  kingman_sum (S (S m)) k theta
  = INR (S m) * theta ^ k * alt_sum m (fun y => hinv theta y ^ S k) 1.
Proof.
  intros Ht. unfold kingman_sum, alt_sum.
  replace (S (S m) - 1)%nat with (S m) by lia.
  rewrite <- bigsum_scal. apply bigsum_ext. intros r Hr. cbv zeta.
  rewrite pow_m1_SS.
  replace (r + 2 - 1)%nat with (S r) by lia.
  assert (E : INR (choose (S m) (S r)) * INR (S r) = INR (S m) * INR (choose m r)).
  { rewrite <- !mult_INR. f_equal. apply choose_absorb. }
  unfold hinv.
  replace (theta + INR (r + 2) - 1) with (theta + INR (1 + r))
    by (rewrite !plus_INR; simpl; lra).
  assert (Hp : 0 < theta + INR (1 + r)) by (pose proof (pos_INR (1 + r)); lra).
  set (d := theta + INR (1 + r)) in *.
  unfold Rdiv. rewrite Rpow_mult_distr.
  transitivity ((-1) ^ r * (INR (choose (S m) (S r)) * INR (S r)) * (theta ^ k * (/ d * (/ d) ^ k))).
  - lra.
  - rewrite E. simpl. lra.
Qed.

Lemma kingman_sum_pos n k theta :
  (2 <= n)%nat -> 0 < theta -> 0 < kingman_sum n k theta.
Proof.
  intros Hn Ht. destruct n as [|[|m]]; try lia.
  rewrite kingman_sum_alt by assumption.
  apply Rmult_lt_0_compat; [apply Rmult_lt_0_compat|].
  - apply lt_0_INR. lia.
  - apply pow_lt. assumption.
  - apply alt_sum_hinv_pow_pos. assumption.
Qed.

Lemma modulus_pos : (0 < modulus)%N.
Proof. reflexivity. Qed.

Lemma usub_small a b : (b <= a)%N -> (a < modulus)%N -> usub a b = (a - b)%N.
Proof.
  intros Hb Ha. unfold usub.
  rewrite (N.mod_small b) by lia.
  replace (a + modulus - b)%N with ((a - b) + 1 * modulus)%N by lia.
  rewrite N.Div0.mod_add. apply N.mod_small. lia.
Qed.

Lemma uadd_small a b : (a + b < modulus)%N -> uadd a b = (a + b)%N.
Proof. intros H. unfold uadd. apply N.mod_small. assumption. Qed.

Lemma to_double_of_nat j : to_double (N.of_nat j) = INR j.
Proof. unfold to_double. rewrite Nat2N.id. reflexivity. Qed.

Lemma powm1_of_nat j : powm1 (N.of_nat j) = (-1) ^ j.
Proof.
  unfold powm1.
  destruct (Nat.Even_or_Odd j) as [[q ->]|[q ->]].
  - rewrite pow_1_even.
    replace (N.of_nat (2 * q)) with (N.of_nat q * 2)%N by lia.
    rewrite N.Div0.mod_mul. reflexivity.
  - replace (2 * q + 1)%nat with (S (2 * q)) by lia. rewrite pow_1_odd.
    replace (N.of_nat (S (2 * q))) with (1 + N.of_nat q * 2)%N by lia.
    rewrite N.Div0.mod_add. reflexivity.
Qed.

Lemma closed_range_2 n :
  closed_range 2 n = map N.of_nat (seq 2 (N.to_nat n - 1)).
Proof.
  unfold closed_range. change (N.to_nat 2) with 2%nat.
  replace (S (N.to_nat n) - 2)%nat with (N.to_nat n - 1)%nat by lia. reflexivity.
Qed.

Lemma fold_left_sum_seq (g : N -> R) m : forall a acc,
  fold_left (fun acc i => acc + g i) (map N.of_nat (seq a m)) acc
  = acc + bigsum m (fun r => g (N.of_nat (r + a))).
Proof.
  induction m as [|m IH]; intros a acc.
  - simpl. lra.
  - rewrite bigsum_shift. cbn [seq map fold_left]. rewrite IH.
    rewrite (bigsum_ext m (fun r => g (N.of_nat (r + S a))) (fun r => g (N.of_nat (S r + a)))).
    + simpl. lra.
    + intros r _. f_equal. f_equal. lia.
Qed.

Lemma real_space_sum n k theta :
  (2 <= n < modulus)%N ->
  coalescent_real_space n k theta = ln (kingman_sum (N.to_nat n) (N.to_nat k) theta).
Proof.
  intros Hn. unfold coalescent_real_space, kingman_sum.
  rewrite closed_range_2, fold_left_sum_seq, Rplus_0_l.
  f_equal. apply bigsum_ext. intros r Hr. cbv zeta.
  rewrite powm1_of_nat, to_double_of_nat.
  rewrite !usub_small by lia.
  unfold binom, to_double.
  replace (N.to_nat (n - 1)) with (N.to_nat n - 1)%nat by lia.
  replace (N.to_nat (N.of_nat (r + 2) - 1)) with (r + 2 - 1)%nat by lia.
  reflexivity.
Qed.

Lemma binom_pos n k : (k <= n)%N -> 0 < binom n k.
Proof. intros H. unfold binom. apply lt_0_INR, choose_pos. lia. Qed.

Lemma log_binom_ln n k :
  (k <= n < modulus)%N -> log_binom n k = ln (binom n k).
Proof.
  intros H. unfold log_binom, log_factorial, binom.
  rewrite usub_small by lia.
  replace (N.to_nat (n - k)) with (N.to_nat n - N.to_nat k)%nat by lia.
  assert (Hk : (N.to_nat k <= N.to_nat n)%nat) by lia.
  pose proof (choose_fact _ _ Hk) as E. apply (f_equal INR) in E.
  rewrite !mult_INR in E. rewrite <- E.
  pose proof (INR_fact_lt_0 (N.to_nat k)).
  pose proof (INR_fact_lt_0 (N.to_nat n - N.to_nat k)).
  assert (0 < INR (choose (N.to_nat n) (N.to_nat k))) by (apply lt_0_INR, choose_pos; lia).
  rewrite !ln_mult; try lra.
  apply Rmult_lt_0_compat; assumption.
Qed.

Lemma exp_nat_mult_ln k b : 0 < b -> exp (INR k * ln b) = b ^ k.
Proof. intros Hb. rewrite <- Rpower_pow by assumption. reflexivity. Qed.


Lemma fold_update_seq {A} (G : N -> A -> A) (c : A) m : forall a pre,
  length pre = a ->
  (N.of_nat (a + m + 2) <= modulus)%N ->
  fold_left (fun tmp i => update_at (N.to_nat (usub i 2)) (G i) tmp)
    (map N.of_nat (seq (a + 2) m)) (pre ++ repeat c m)
  = pre ++ map (fun i => G i c) (map N.of_nat (seq (a + 2) m)).
Proof.
  induction m as [|m IH]; intros a pre Ha Hb; [reflexivity|].
  cbn [seq map fold_left repeat].
  rewrite usub_small by lia.
  replace (N.to_nat (N.of_nat (a + 2) - 2)) with (length pre) by lia.
  rewrite update_at_app.
  change (pre ++ G (N.of_nat (a + 2)) c :: repeat c m)
    with (pre ++ [G (N.of_nat (a + 2)) c] ++ repeat c m).
  rewrite app_assoc.
  change (S (a + 2)) with (S a + 2)%nat.
  rewrite (IH (S a)).
  - rewrite <- app_assoc. reflexivity.
  - rewrite length_app. simpl. lia.
  - lia.
Qed.

Lemma fold_cadd_seq (E : nat -> Complex.C) m : forall a z,
  fold_left (fun curr x => Complex.add curr x) (map E (seq a m)) z
  = Complex.mk (Complex.re z + bigsum m (fun r => Complex.re (E (r + a)%nat)))
               (Complex.im z + bigsum m (fun r => Complex.im (E (r + a)%nat))).
Proof.
  induction m as [|m IH]; intros a z.
  - simpl. destruct z; simpl. f_equal; lra.
  - rewrite !bigsum_shift. cbn [seq map fold_left]. rewrite IH.
    rewrite (bigsum_ext m (fun r => Complex.re (E (r + S a)%nat))
               (fun r => Complex.re (E (S r + a)%nat)))
      by (intros; do 2 f_equal; lia).
    rewrite (bigsum_ext m (fun r => Complex.im (E (r + S a)%nat))
               (fun r => Complex.im (E (S r + a)%nat)))
      by (intros; do 2 f_equal; lia).
    simpl. f_equal; lra.
Qed.


Lemma max_element_from_in l : forall best,
  max_element_from best l = best \/ In (max_element_from best l) l.
Proof.
  induction l as [|x l IH]; intros best; simpl; [left; reflexivity|].
  destruct (Rlt_dec (Complex.re best) (Complex.re x)).
  - destruct (IH x) as [->|H]; auto.
  - destruct (IH best) as [->|H]; auto.
Qed.

Lemma max_element_in l : l <> [] -> In (max_element l) l.
Proof.
  destruct l as [|x l]; [congruence|]. intros _. simpl.
  destruct (max_element_from_in l x) as [->|H]; auto.
Qed.

Lemma bigsum_zero n g : (forall r, (r < n)%nat -> g r = 0) -> bigsum n g = 0.
Proof.
  intros H. rewrite (bigsum_ext n g (fun _ => 0 * 0)) by (intros; rewrite H by assumption; lra).
  rewrite bigsum_scal. lra.
Qed.

Lemma log_m1 : Complex.log (Complex.of_real (-1)) = Complex.mk 0 PI.
Proof.
  unfold Complex.log, Complex.of_real, Complex.abs, Complex.arg; simpl.
  f_equal.
  - replace (-1 * -1 + 0 * 0) with 1 by lra. rewrite sqrt_1. apply ln_1.
  - destruct (Rlt_dec 0 (-1)) as [H|_]; [lra|].
    destruct (Rlt_dec (-1) 0) as [_|H]; [|lra].
    destruct (Rle_dec 0 0) as [_|H]; [|lra].
    replace (0 / -1) with 0 by lra. rewrite atan_0. lra.
Qed.

Lemma cos_nat_PI (i : nat) : cos (INR i * PI) = (-1) ^ i.
Proof.
  induction i as [|i IH].
  - simpl. rewrite Rmult_0_l. apply cos_0.
  - rewrite S_INR. replace ((INR i + 1) * PI) with (INR i * PI + PI) by lra.
    rewrite neg_cos, IH. simpl. lra.
Qed.

Lemma sin_nat_PI (i : nat) : sin (INR i * PI) = 0.
Proof.
  induction i as [|i IH].
  - simpl. rewrite Rmult_0_l. apply sin_0.
  - rewrite S_INR. replace ((INR i + 1) * PI) with (INR i * PI + PI) by lra.
    rewrite neg_sin, IH. lra.
Qed.

Section LogSpace.

Variables (n k : N) (theta : R).
Hypothesis Hn : (2 <= n < modulus)%N.
Hypothesis Ht : 0 < theta.

(** The real part accumulated by the loop for index [j]. *)
Definition log_term (j : nat) : R :=
  0 * INR j + log_binom (usub n 1) (usub (N.of_nat j) 1)
  + ln (to_double (usub (N.of_nat j) 1) / (theta + INR j - 1))
  + to_double k * ln (theta / (theta + INR j - 1)).

Definition summand (j : nat) : R :=
  INR (choose (N.to_nat n - 1) (j - 1))
  * (INR (j - 1) / (theta + INR j - 1))
  * (theta / (theta + INR j - 1)) ^ N.to_nat k.

Lemma exp_log_term j :
  (2 <= j <= N.to_nat n)%nat -> exp (log_term j) = summand j.
Proof.
  intros Hj. unfold log_term, summand.
  rewrite !usub_small by lia.
  rewrite log_binom_ln by lia.
  unfold to_double at 1.
  replace (N.to_nat (N.of_nat j - 1)) with (j - 1)%nat by lia.
  assert (Hd : 0 < theta + INR j - 1).
  { assert (2 <= INR j) by (apply (le_INR 2); lia). lra. }
  assert (Ha : 0 < INR (j - 1) / (theta + INR j - 1)).
  { apply Rdiv_lt_0_compat; [apply lt_0_INR; lia | assumption]. }
  assert (Hb : 0 < theta / (theta + INR j - 1)) by (apply Rdiv_lt_0_compat; assumption).
  assert (Hc : 0 < binom (n - 1) (N.of_nat j - 1)) by (apply binom_pos; lia).
  rewrite !exp_plus, Rmult_0_l, exp_0, !exp_ln by assumption.
  unfold to_double. rewrite exp_nat_mult_ln by assumption.
  unfold binom.
  replace (N.to_nat (n - 1)) with (N.to_nat n - 1)%nat by lia.
  replace (N.to_nat (N.of_nat j - 1)) with (j - 1)%nat by lia.
  lra.
Qed.


Definition cx (j : nat) : Complex.C := Complex.mk (log_term j) (PI * INR j).

Lemma log_space_tmp :
  coalescent_log_space n k theta
  = Complex.re (complex_log_sum_exp (map cx (seq 2 (N.to_nat n - 1)))).
Proof.
  unfold coalescent_log_space. cbv zeta. do 2 f_equal.
  rewrite log_m1, closed_range_2.
  replace (N.to_nat (usub n 1)) with (N.to_nat n - 1)%nat
    by (rewrite usub_small by lia; lia).
  etransitivity; [apply (fold_update_seq _ _ _ 0%nat []); [reflexivity | lia] |].
  rewrite map_map. apply map_ext. intros j.
  unfold cx, log_term. rewrite to_double_of_nat.
  unfold Complex.add_real, Complex.scale. simpl. reflexivity.
Qed.

Lemma exp_sub_cx j jM :
  (2 <= j <= N.to_nat n)%nat ->
  Complex.exp (Complex.sub (cx j) (cx jM))
  = Complex.mk (exp (- log_term jM) * (-1) ^ jM * ((-1) ^ j * summand j)) 0.
Proof.
  intros Hj. unfold Complex.exp, Complex.sub, cx. simpl.
  rewrite cos_minus, sin_minus.
  rewrite !(Rmult_comm PI), !cos_nat_PI, !sin_nat_PI.
  unfold Rminus at 1 2. rewrite exp_plus, exp_log_term by assumption.
  f_equal; lra.
Qed.

Lemma log_space_sum :
  coalescent_log_space n k theta = ln (kingman_sum (N.to_nat n) (N.to_nat k) theta).
Proof.
  rewrite log_space_tmp.
  set (m := (N.to_nat n - 1)%nat).
  assert (Hm : (1 <= m)%nat) by (unfold m; lia).
  unfold complex_log_sum_exp.
  assert (Hin : In (max_element (map cx (seq 2 m))) (map cx (seq 2 m))).
  { apply max_element_in. destruct m; [lia | discriminate]. }
  apply in_map_iff in Hin. destruct Hin as (jM & EM & HjM).
  rewrite <- EM. clear EM.
  rewrite fold_left_map_in.
  rewrite <- (fold_left_map_in (fun curr x => Complex.add curr x)
                (fun j => Complex.exp (Complex.sub (cx j) (cx jM)))).
  rewrite fold_cadd_seq.
  rewrite (bigsum_ext m _ (fun r => (exp (- log_term jM) * (-1) ^ jM)
                                   * ((-1) ^ (r + 2) * summand (r + 2)))).
  2:{ intros r Hr. rewrite exp_sub_cx by (unfold m in Hr; lia). simpl. lra. }
  rewrite (bigsum_zero m (fun r => Complex.im _)).
  2:{ intros r Hr. rewrite exp_sub_cx by (unfold m in Hr; lia). reflexivity. }
  rewrite bigsum_scal.
  assert (ES : bigsum m (fun r => (-1) ^ (r + 2) * summand (r + 2))
               = kingman_sum (N.to_nat n) (N.to_nat k) theta).
  { unfold kingman_sum. apply bigsum_ext. intros r _. unfold summand. cbv zeta. lra. }
  rewrite ES.
  pose proof (kingman_sum_pos (N.to_nat n) (N.to_nat k) theta ltac:(lia) Ht) as Hpos.
  set (total := kingman_sum (N.to_nat n) (N.to_nat k) theta) in *.
  unfold Complex.add, Complex.log, Complex.abs. simpl.
  rewrite !Rplus_0_l, Rmult_0_l, Rplus_0_r.
  change (?x * ?x) with (Rsqr x) at 1.
  rewrite sqrt_Rsqr_abs, !Rabs_mult, pow_1_abs.
  rewrite (Rabs_pos_eq (exp _)) by (left; apply exp_pos).
  rewrite (Rabs_pos_eq total) by lra.
  rewrite Rmult_1_r, ln_mult, ln_exp by (try apply exp_pos; lra).
  lra.
Qed.

End LogSpace.


(** *** The value of [coalescent] and of [evaluate] *)

Lemma coalescent_space_real k : coalescent_space k = RealSpace <-> (k <= 80)%N.
Proof.
  unfold coalescent_space. destruct (N.leb_spec k 80); split; intros; try reflexivity; try lia; discriminate.
Qed.

Lemma coalescent_space_log k : coalescent_space k = LogSpace <-> (80 < k)%N.
Proof.
  unfold coalescent_space. destruct (N.leb_spec k 80); split; intros; try reflexivity; try lia; discriminate.
Qed.

Lemma coalescent_value n k theta :
  (2 <= n < modulus)%N -> 0 < theta ->
  coalescent n k theta = kingman_log_probability (N.to_nat n) (N.to_nat k) theta.
Proof.
  intros Hn Ht. unfold coalescent, kingman_log_probability.
  destruct (coalescent_space k).
  - apply real_space_sum; assumption.
  - apply log_space_sum; assumption.
Qed.

Lemma coalescent_sites_prior n k_snp k_indel theta_snp theta_indel :
  (2 <= n < modulus)%N -> (k_snp + k_indel < modulus)%N ->
  0 < theta_snp -> 0 < theta_indel ->
  coalescent_sites n k_snp k_indel theta_snp theta_indel
  = coalescent_prior (N.to_nat n) (N.to_nat k_snp) (N.to_nat k_indel) theta_snp theta_indel.
Proof.
  intros Hn Hk Hs Hi. unfold coalescent_sites, coalescent_prior. cbv zeta.
  rewrite uadd_small by assumption.
  rewrite coalescent_value by (try assumption; lra).
  rewrite log_binom_ln by lia.
  unfold binom, to_double.
  replace (N.to_nat (k_snp + k_indel)) with (N.to_nat k_snp + N.to_nat k_indel)%nat by lia.
  reflexivity.
Qed.

Lemma elevate_ge h site acc : fst acc <= fst (elevate h acc site).
Proof.
  unfold elevate. destruct (is_indel site); [|lra].
  destruct (firstn _ _); [lra|].
  destruct (Rlt_dec _ _); simpl; lra.
Qed.

Lemma fold_elevate_ge h sites : forall acc,
  fst acc <= fst (fold_left (elevate h) sites acc).
Proof.
  induction sites as [|s sites IH]; intros acc; simpl; [lra|].
  eapply Rle_trans; [apply (elevate_ge h s acc) | apply IH].
Qed.

Lemma elevated_ge m : indel_heterozygosity (params_ m) <= fst (elevated m).
Proof. unfold elevated. apply (fold_elevate_ge _ _ (_, _)). Qed.

Lemma evaluate_k_indel_zero_value m k_snp n :
  zero_cache_consistent m ->
  fst (evaluate_k_indel_zero m k_snp n)
  = coalescent_sites n k_snp 0
      (snp_heterozygosity (params_ m)) (indel_heterozygosity (params_ m)).
Proof.
  intros Hc. unfold evaluate_k_indel_zero. cbv zeta.
  destruct (N.to_nat n <? _)%nat; [|reflexivity].
  destruct (N.to_nat k_snp <? _)%nat; [|reflexivity].
  destruct (nth (N.to_nat k_snp) _ None) as [v|] eqn:E; [|reflexivity].
  simpl. apply Hc. assumption.
Qed.

Lemma evaluate_k_indel_pos_value m k_snp k_indel n :
  pos_cache_consistent_at m k_snp k_indel n ->
  fst (evaluate_k_indel_pos m k_snp k_indel n)
  = coalescent_sites n k_snp k_indel (snp_heterozygosity (params_ m)) (fst (elevated m)).
Proof.
  intros Hc. unfold evaluate_k_indel_pos, pos_cache_consistent_at in *.
  destruct (elevated m) as [ih off]. simpl in *.
  destruct (find_key _ _) as [v|]; [|reflexivity].
  simpl. apply Hc. reflexivity.
Qed.

(** *** The result caches *)


Lemma nth_resize {A} (x d : A) sz v j :
  nth j (resize sz x v) d = nth j v d \/ nth j (resize sz x v) d = x
  \/ nth j (resize sz x v) d = d.
Proof.
  unfold resize.
  destruct (Nat.lt_ge_cases j (length (firstn sz v))) as [H|H].
  - rewrite app_nth1 by assumption. rewrite nth_firstn.
    destruct (j <? sz)%nat; auto.
  - rewrite app_nth2 by assumption.
    destruct (Nat.lt_ge_cases (j - length (firstn sz v)) (sz - length v)) as [H1|H1].
    + right; left. apply nth_repeat_lt. assumption.
    + right; right. apply nth_overflow. rewrite List.repeat_length. assumption.
Qed.


Lemma nth_nil_none j : nth j (@nil (option R)) None = None.
Proof. destruct j; reflexivity. Qed.

Lemma subentries_resize_rows sz cache : subentries (resize sz [] cache) cache.
Proof.
  intros i j v H.
  destruct (nth_resize (@nil (option R)) [] sz cache i) as [E|[E|E]];
    rewrite E in H; try assumption; rewrite nth_nil_none in H; discriminate.
Qed.

Lemma subentries_resize_row n sz cache :
  subentries (update_at n (resize sz None) cache) cache.
Proof.
  intros i j v H. rewrite nth_update_at in H.
  destruct ((n =? i) && (i <? length cache))%nat; [|assumption].
  destruct (nth_resize (@None R) None sz (nth i cache []) j) as [E|[E|E]];
    rewrite E in H; try assumption; discriminate.
Qed.

Lemma subentries_assign_row n sz cache :
  subentries (update_at n (fun _ => repeat None sz) cache) cache.
Proof.
  intros i j v H. rewrite nth_update_at in H.
  destruct ((n =? i) && (i <? length cache))%nat; [|assumption].
  exfalso. destruct (Nat.lt_ge_cases j sz) as [L|L].
  - rewrite nth_repeat_lt in H by assumption. discriminate.
  - rewrite nth_overflow in H by (rewrite List.repeat_length; assumption). discriminate.
Qed.

Lemma store_zero_entries cache n k c i j v :
  nth j (nth i (store_zero cache n k c) []) None = Some v ->
  (i = n /\ j = k /\ v = c) \/ nth j (nth i cache []) None = Some v.
Proof.
  unfold store_zero. rewrite nth_update_at.
  destruct (Nat.eqb_spec n i) as [->|Hne]; simpl; [|auto].
  destruct (i <? length cache)%nat; [|auto].
  rewrite nth_update_at.
  destruct (Nat.eqb_spec k j) as [->|Hne]; simpl; [|auto].
  destruct (j <? _)%nat; [|auto].
  intros [= <-]. auto.
Qed.

Lemma evaluate_k_indel_zero_consistent m k_snp n :
  zero_cache_consistent m ->
  zero_cache_consistent (snd (evaluate_k_indel_zero m k_snp n)).
Proof.
  intros Hc. unfold evaluate_k_indel_zero. cbv zeta.
  set (c := coalescent_sites n k_snp 0 _ _).
  assert (Hstore : forall cache,
             subentries cache (k_indel_zero_result_cache_ m) ->
             zero_cache_consistent
               (with_zero_cache m (store_zero cache (N.to_nat n) (N.to_nat k_snp) c))).
  { intros cache Hsub n2 k2 v H. simpl in H.
    apply store_zero_entries in H. destruct H as [(En & Ek & ->)|H].
    - apply N2Nat.inj in En, Ek. subst. reflexivity.
    - apply Hc, Hsub, H. }
  destruct (N.to_nat n <? _)%nat.
  - destruct (N.to_nat k_snp <? _)%nat.
    + destruct (nth (N.to_nat k_snp) _ None); simpl; [assumption|].
      apply Hstore. intros i j v H. assumption.
    + simpl. apply Hstore, subentries_resize_row.
  - simpl. apply Hstore. intros i j v H.
    apply subentries_assign_row in H. apply subentries_resize_rows in H. assumption.
Qed.

Lemma evaluate_zero_cache_consistent m t :
  zero_cache_consistent m -> zero_cache_consistent (snd (evaluate m t)).
Proof.
  intros Hc. destruct t as [[k_snp k_indel] n]. unfold evaluate.
  destruct (k_indel =? 0)%N; [apply evaluate_k_indel_zero_consistent, Hc|].
  unfold evaluate_k_indel_pos. destruct (elevated m) as [ih off].
  destruct (find_key _ _); simpl; [assumption|].
  intros n2 k2 v H. apply Hc. assumption.
Qed.

Lemma make_CoalescentModel_consistent reference params hint caching m :
  make_CoalescentModel reference params hint caching = inr m ->
  zero_cache_consistent m
  /\ (forall k_snp k_indel n, pos_cache_consistent_at m k_snp k_indel n).
Proof.
  unfold make_CoalescentModel. destruct (_ || _); [discriminate|].
  intros [= <-]. split.
  - intros n k v H. cbn [k_indel_zero_result_cache_] in H.
    rewrite List.nth_repeat, nth_nil_none in H. discriminate.
  - intros k_snp k_indel n v H. simpl in H. discriminate.
Qed.

(** *** A deletion inside a repeat *)





Lemma Rleb_false x y : y < x -> Rleb x y = false.
Proof. intros H. unfold Rleb. destruct (Rle_dec x y); [lra | reflexivity]. Qed.

Lemma Rleb_true x y : x <= y -> Rleb x y = true.
Proof. intros H. unfold Rleb. destruct (Rle_dec x y); [reflexivity | lra]. Qed.

Lemma make_repeat_model :
  make_CoalescentModel repeat_reference half_parameters 1 caching_none = inr repeat_model.
Proof.
  unfold make_CoalescentModel. simpl.
  rewrite Rleb_false by lra. reflexivity.
Qed.

Lemma std_pow_4_ge : 4 <= std_pow (INR 4) 2.6.
Proof.
  unfold std_pow. replace (INR 4) with 4 by (simpl; lra).
  destruct (Req_dec_T 4 0) as [E|_]; [lra|].
  unfold Rpower.
  assert (H0 : 0 < ln 4) by (rewrite <- ln_1; apply ln_increasing; lra).
  rewrite <- (exp_ln 4) at 1 by lra.
  destruct (Req_dec (ln 4) (2.6 * ln 4)) as [E|NE]; [rewrite <- E; lra|].
  left. apply exp_increasing. nra.
Qed.

Lemma repeat_model_heterozygosities :
  reference_base_indel_heterozygosities_ repeat_model = [1; 1; 1; 1].
Proof.
  cbn [repeat_model reference_base_indel_heterozygosities_].
  unfold calculate_base_indel_heterozygosities, transform_range. simpl.
  pose proof std_pow_4_ge as H. simpl in H.
  rewrite Rmin_right by lra.
  rewrite Rmax_right by lra. reflexivity.
Qed.

Lemma repeat_model_elevated :
  elevated (with_site_buffer repeat_model [deletion_site]) = (1, 1%Z).
Proof.
  unfold elevated. cbn [with_site_buffer site_buffer1_ reference_base_indel_heterozygosities_ params_].
  rewrite repeat_model_heterozygosities.
  unfold elevate, deletion_site, repeat_model, half_parameters. simpl.
  destruct (Rlt_dec (1 / 2) 1); [reflexivity | lra].
Qed.

Lemma kingman_sum_2_1 theta :
  0 < theta -> kingman_sum 2 1 theta = theta / ((theta + 1) * (theta + 1)).
Proof. intros H. unfold kingman_sum. simpl. field. lra. Qed.

Lemma coalescent_prior_2_0_1 theta_snp theta_indel :
  0 < theta_snp -> 0 < theta_indel ->
  coalescent_prior 2 0 1 theta_snp theta_indel
  = ln (theta_indel / ((theta_snp + theta_indel + 1) * (theta_snp + theta_indel + 1))).
Proof.
  intros Hs Hi. unfold coalescent_prior, kingman_log_probability. cbv zeta.
  rewrite kingman_sum_2_1 by lra.
  change (INR (choose (0 + 1) 0)) with 1. rewrite ln_1.
  simpl INR. rewrite Rmult_0_l, Rmult_1_l, !Rplus_0_r.
  set (t := theta_snp + theta_indel).
  assert (Ht : 0 < t) by (unfold t; lra).
  rewrite <- ln_mult.
  - f_equal. field. lra.
  - apply Rdiv_lt_0_compat; [assumption | nra].
  - apply Rdiv_lt_0_compat; assumption.
Qed.

(** C4 (as stated) fails: with snp and indel heterozygosities of one half
    and a deletion inside a homopolymer run of four bases, [evaluate] on
    [(k_snp, k_indel, n) = (0, 1, 2)] rates the deletion with the elevated
    indel heterozygosity [1], not with the model's [1/2]. *)
Lemma evaluate_repeat_counterexample :
  fst (evaluate (with_site_buffer repeat_model [deletion_site]) (0, 1, 2)%N)
  <> coalescent_prior 2 0 1
       (snp_heterozygosity (params_ repeat_model))
       (indel_heterozygosity (params_ repeat_model)).
Proof.
  unfold evaluate. change ((1 =? 0)%N) with false. cbv iota.
  rewrite evaluate_k_indel_pos_value.
  2:{ intros v H. simpl in H. discriminate. }
  rewrite repeat_model_elevated. cbn [fst with_site_buffer params_ repeat_model
    half_parameters snp_heterozygosity indel_heterozygosity].
  rewrite coalescent_sites_prior by (unfold modulus; simpl; lia || lra).
  change (N.to_nat 2) with 2%nat. change (N.to_nat 0) with 0%nat. change (N.to_nat 1) with 1%nat.
  rewrite !coalescent_prior_2_0_1 by lra.
  intros E. apply ln_inv in E.
  - lra.
  - lra.
  - lra.
Qed.

(** C5: for [n >= 2] and [theta > 0] the real-space and the
    complex-log-sum-exp evaluations denote the same value, the logarithm of
    the alternating sum of section 4.3, for every [k]; and [coalescent]
    returns what the real-space evaluation returns exactly when [k <= 80]
    and what the log-space evaluation returns when [k > 80], for all
    arguments, also those on which the two evaluations differ. *)
Theorem coalescent_spaces_agree n k theta :
  (2 <= n < modulus)%N -> 0 < theta ->
  coalescent_real_space n k theta = coalescent_log_space n k theta
  /\ coalescent_real_space n k theta
     = kingman_log_probability (N.to_nat n) (N.to_nat k) theta
  /\ (forall n' theta',
        (k <= 80)%N -> coalescent n' k theta' = coalescent_real_space n' k theta')
  /\ (forall n' theta',
        (80 < k)%N -> coalescent n' k theta' = coalescent_log_space n' k theta').
Proof.
  intros Hn Ht. repeat split.
  - rewrite real_space_sum, log_space_sum by assumption. reflexivity.
  - apply real_space_sum. assumption.
  - intros n' theta' Hk. unfold coalescent.
    apply coalescent_space_real in Hk. rewrite Hk. reflexivity.
  - intros n' theta' Hk. unfold coalescent.
    apply coalescent_space_log in Hk. rewrite Hk. reflexivity.
Qed.

Lemma coalescent_spaces_agree_witness :
  coalescent_real_space 2 0 1 = coalescent_log_space 2 0 1
  /\ coalescent_real_space 2 0 1 = kingman_log_probability 2 0 1
  /\ (forall n' theta',
        (0 <= 80)%N -> coalescent n' 0 theta' = coalescent_real_space n' 0 theta')
  /\ (forall n' theta',
        (80 < 0)%N -> coalescent n' 0 theta' = coalescent_log_space n' 0 theta').
Proof.
  apply (coalescent_spaces_agree 2 0 1).
  - unfold modulus. lia.
  - lra.
Defined.

(** C10: the constructor raises the domain error exactly when the snp or
    the indel heterozygosity is [<= 0], and yields a model exactly when
    both are strictly positive. *)
Theorem make_CoalescentModel_domain_error reference params hint caching :
  ((exists what, make_CoalescentModel reference params hint caching
                 = inl (domain_error what))
   <-> (snp_heterozygosity params <= 0 \/ indel_heterozygosity params <= 0))
  /\ ((exists m, make_CoalescentModel reference params hint caching = inr m)
      <-> (0 < snp_heterozygosity params /\ 0 < indel_heterozygosity params)).
Proof.
  unfold make_CoalescentModel, Rleb.
  destruct (Rle_dec (snp_heterozygosity params) 0) as [Hs|Hs];
    destruct (Rle_dec (indel_heterozygosity params) 0) as [Hi|Hi]; simpl;
    (split; split; intros H;
     [ destruct H as [x E]; try discriminate; auto
     | try (eexists; reflexivity); exfalso; destruct H; lra
     | destruct H as [x E]; try discriminate; split; lra
     | try (eexists; reflexivity); exfalso; destruct H; lra ]).
Qed.

(** *** The table of per-base indel heterozygosities *)

Lemma transform_range_length {A} pos len (f : A -> A) v :
  length (transform_range pos len f v) = length v.
Proof.
  unfold transform_range.
  rewrite !length_app, length_map, !length_firstn, !length_skipn. lia.
Qed.

Lemma Forall_firstn_skipn {A} (P : A -> Prop) k n (l : list A) :
  Forall P l -> Forall P (firstn n (skipn k l)).
Proof.
  intros Hl.
  assert (Hskip : Forall P (skipn k l)).
  { rewrite <- (firstn_skipn k l) in Hl. apply Forall_app in Hl. apply Hl. }
  rewrite <- (firstn_skipn n (skipn k l)) in Hskip. apply Forall_app in Hskip. apply Hskip.
Qed.

Lemma Forall_transform_range {A} (P : A -> Prop) pos len (f : A -> A) v :
  (forall x, P x -> P (f x)) -> Forall P v -> Forall P (transform_range pos len f v).
Proof.
  intros Hf Hv. unfold transform_range.
  apply Forall_app. split; [apply (Forall_firstn_skipn P 0 pos v Hv)|].
  apply Forall_app. split.
  - apply Forall_forall. intros y Hy. apply in_map_iff in Hy. destruct Hy as (x & <- & Hx).
    apply Hf. revert x Hx. apply Forall_forall. apply Forall_firstn_skipn, Hv.
  - rewrite <- (firstn_skipn (pos + len) v) in Hv. apply Forall_app in Hv. apply Hv.
Qed.

Lemma base_indel_heterozygosities_invariant haplotype base :
  length (calculate_base_indel_heterozygosities haplotype base) = sequence_size haplotype
  /\ Forall (fun h => base <= h <= Rmax base 1)
       (calculate_base_indel_heterozygosities haplotype base).
Proof.
  unfold calculate_base_indel_heterozygosities.
  generalize (tandem_repeats haplotype) as runs.
  assert (Hinit : length (repeat base (sequence_size haplotype)) = sequence_size haplotype
                  /\ Forall (fun h => base <= h <= Rmax base 1)
                       (repeat base (sequence_size haplotype))).
  { split; [apply List.repeat_length|].
    apply Forall_forall. intros h Hh. apply repeat_spec in Hh. subst.
    split; [lra | apply Rmax_l]. }
  revert Hinit. generalize (repeat base (sequence_size haplotype)) as table.
  intros table Hinit runs. revert table Hinit.
  induction runs as [|run runs IH]; intros table [Hlen Hall]; [split; assumption|].
  cbn [fold_left]. apply IH. split.
  - rewrite transform_range_length. assumption.
  - apply Forall_transform_range; [|assumption].
    intros h [Hlo Hhi]. cbv beta. split.
    + eapply Rle_trans; [exact Hlo | apply Rmax_l].
    + apply Rmax_lub; [assumption|].
      eapply Rle_trans; [apply Rmin_r | apply Rmax_r].
Qed.

(** X1: the table that [calculate_base_indel_heterozygosities] builds has
    one entry per base of the reference, and no entry is below the base
    indel heterozygosity or above the larger of it and 1, whatever the
    tandem repeats are. *)
Theorem base_indel_heterozygosities_bounds haplotype base :
  length (calculate_base_indel_heterozygosities haplotype base) = sequence_size haplotype
  /\ forall i,
       (i < sequence_size haplotype)%nat ->
       base <= nth i (calculate_base_indel_heterozygosities haplotype base) 0
       <= Rmax base 1.
Proof.
  destruct (base_indel_heterozygosities_invariant haplotype base) as [Hlen Hall].
  split; [assumption|]. intros i Hi.
  rewrite Forall_forall in Hall. apply Hall. apply nth_In. lia.
Qed.

Lemma elevate_le table hi acc site :
  Forall (fun h => fst acc <= hi /\ h <= hi) table ->
  fst acc <= hi -> fst (elevate table acc site) <= hi.
Proof.
  intros Ht Hacc. unfold elevate. destruct (is_indel site); [|assumption].
  destruct (firstn _ _) as [|x xs] eqn:E; [assumption|].
  destruct (Rlt_dec _ _) as [_|_]; [|assumption]. cbn [fst].
  assert (Hin : Forall (fun h => h <= hi) (x :: xs)).
  { rewrite <- E. apply Forall_firstn_skipn.
    eapply Forall_impl; [|exact Ht]. intros a Ha. apply Ha. }
  inversion Hin as [|? ? Hx Hxs]; subst.
  clear E Hin. revert x Hx. induction xs as [|y xs IH]; intros x Hx; [assumption|].
  cbn [fold_left]. inversion Hxs; subst. apply IH; [assumption|]. apply Rmax_lub; assumption.
Qed.

(** X2: on a model that the constructor made, whatever sites are in the
    site buffer, the indel heterozygosity that [evaluate] rates a tuple
    with is at least the model's own and at most the larger of it and 1. *)
Theorem effective_indel_heterozygosity_bounds
  reference params hint caching m sites k_indel :
  make_CoalescentModel reference params hint caching = inr m ->
  indel_heterozygosity params
  <= effective_indel_heterozygosity (with_site_buffer m sites) k_indel
  <= Rmax (indel_heterozygosity params) 1.
Proof.
  unfold make_CoalescentModel. destruct (_ || _); [discriminate|].
  intros [= <-]. unfold effective_indel_heterozygosity.
  destruct (k_indel =? 0)%N.
  - cbn [with_site_buffer params_]. split; [lra | apply Rmax_l].
  - split.
    { match goal with |- _ <= fst (elevated ?M) => exact (elevated_ge M) end. }
    unfold elevated.
    cbn [with_site_buffer site_buffer1_ reference_base_indel_heterozygosities_ params_].
    destruct (base_indel_heterozygosities_invariant reference (indel_heterozygosity params))
      as [_ Hall].
    set (table := calculate_base_indel_heterozygosities reference _) in *.
    set (hi := Rmax (indel_heterozygosity params) 1) in *.
    assert (H : forall acc, fst acc <= hi -> fst (fold_left (elevate table) sites acc) <= hi).
    { induction sites as [|site sites IH]; intros acc Hacc; [assumption|].
      cbn [fold_left]. apply IH. apply elevate_le; [|assumption].
      eapply Forall_impl; [|exact Hall]. intros a Ha. split; [assumption | apply Ha]. }
    apply H. apply Rmax_l.
Qed.

Lemma effective_indel_heterozygosity_bounds_witness :
  1 / 2 <= effective_indel_heterozygosity (with_site_buffer repeat_model [deletion_site]) 1
  <= Rmax (1 / 2) 1.
Proof.
  exact (effective_indel_heterozygosity_bounds repeat_reference half_parameters 1
           caching_none repeat_model [deletion_site] 1 make_repeat_model).
Defined.
(** *** The result caches as memo tables *)

Lemma key_eqb_refl t : key_eqb t t = true.
Proof.
  destruct t as [[[a b] c] d]. unfold key_eqb.
  rewrite !N.eqb_refl, Z.eqb_refl. reflexivity.
Qed.

Lemma key_eqb_eq a b : key_eqb a b = true -> a = b.
Proof.
  destruct a as [[[a1 a2] a3] a4], b as [[[b1 b2] b3] b4]. unfold key_eqb.
  rewrite !andb_true_iff, !N.eqb_eq, Z.eqb_eq. intros [[[-> ->] ->] ->]. reflexivity.
Qed.

Lemma evaluate_k_indel_pos_memoised m k_snp k_indel n :
  evaluate_k_indel_pos (snd (evaluate_k_indel_pos m k_snp k_indel n)) k_snp k_indel n
  = evaluate_k_indel_pos m k_snp k_indel n.
Proof.
  unfold evaluate_k_indel_pos.
  destruct (elevated m) as [ih off] eqn:Ee.
  destruct (find_key _ _) as [v|] eqn:Ef.
  - cbn [snd]. rewrite Ee, Ef. reflexivity.
  - cbn [snd].
    replace (elevated (with_pos_cache m _)) with (elevated m) by reflexivity.
    rewrite Ee. cbn [with_pos_cache k_indel_pos_result_cache_ find_key].
    rewrite key_eqb_refl. reflexivity.
Qed.

Lemma nth_store_zero cache n k c :
  (n < length cache)%nat -> (k < length (nth n cache []))%nat ->
  (n < length (store_zero cache n k c))%nat
  /\ (k < length (nth n (store_zero cache n k c) []))%nat
  /\ nth k (nth n (store_zero cache n k c) []) None = Some c.
Proof.
  intros Hn Hk. unfold store_zero.
  rewrite update_at_length. split; [assumption|].
  rewrite (nth_update_at _ []), Nat.eqb_refl.
  apply Nat.ltb_lt in Hn. rewrite Hn. cbn [andb].
  rewrite update_at_length. split; [assumption|].
  rewrite (nth_update_at _ None), Nat.eqb_refl.
  apply Nat.ltb_lt in Hk. rewrite Hk. reflexivity.
Qed.

Lemma evaluate_k_indel_zero_hit m k_snp n c :
  (N.to_nat n < length (k_indel_zero_result_cache_ m))%nat ->
  (N.to_nat k_snp < length (nth (N.to_nat n) (k_indel_zero_result_cache_ m) []))%nat ->
  nth (N.to_nat k_snp) (nth (N.to_nat n) (k_indel_zero_result_cache_ m) []) None = Some c ->
  evaluate_k_indel_zero m k_snp n = (c, m).
Proof.
  intros Hn Hk E. unfold evaluate_k_indel_zero. cbv zeta.
  apply Nat.ltb_lt in Hn, Hk. rewrite Hn, Hk, E. reflexivity.
Qed.

Lemma evaluate_k_indel_zero_memoised m k_snp n :
  (n + 1 < modulus)%N -> (k_snp + 1 < modulus)%N ->
  evaluate_k_indel_zero (snd (evaluate_k_indel_zero m k_snp n)) k_snp n
  = evaluate_k_indel_zero m k_snp n.
Proof.
  intros Hn Hk.
  assert (Hstored : forall cache,
             (N.to_nat n < length cache)%nat ->
             (N.to_nat k_snp < length (nth (N.to_nat n) cache []))%nat ->
             forall c,
               evaluate_k_indel_zero
                 (with_zero_cache m (store_zero cache (N.to_nat n) (N.to_nat k_snp) c))
                 k_snp n
               = (c, with_zero_cache m (store_zero cache (N.to_nat n) (N.to_nat k_snp) c))).
  { intros cache Hn' Hk' c.
    destruct (nth_store_zero cache (N.to_nat n) (N.to_nat k_snp) c Hn' Hk') as (H1 & H2 & H3).
    apply evaluate_k_indel_zero_hit; assumption. }
  unfold evaluate_k_indel_zero at 2 3. cbv zeta.
  destruct (Nat.ltb_spec (N.to_nat n) (length (k_indel_zero_result_cache_ m))) as [Ln|Ln].
  - destruct (Nat.ltb_spec (N.to_nat k_snp)
                (length (nth (N.to_nat n) (k_indel_zero_result_cache_ m) []))) as [Lk|Lk].
    + destruct (nth (N.to_nat k_snp) _ None) as [v|] eqn:E; cbn [snd].
      * apply evaluate_k_indel_zero_hit; assumption.
      * apply Hstored; assumption.
    + cbn [snd]. apply Hstored.
      * rewrite update_at_length. assumption.
      * rewrite (nth_update_at _ []), Nat.eqb_refl.
        apply Nat.ltb_lt in Ln. rewrite Ln. cbn [andb].
        unfold resize. rewrite length_app, length_firstn, List.repeat_length.
        rewrite uadd_small by assumption. lia.
  - cbn [snd].
    assert (Hlen : length (resize (N.to_nat (uadd n 1)) [] (k_indel_zero_result_cache_ m))
                   = S (N.to_nat n)).
    { unfold resize. rewrite length_app, length_firstn, List.repeat_length.
      rewrite uadd_small by assumption. lia. }
    apply Hstored.
    + rewrite update_at_length, Hlen. lia.
    + rewrite (nth_update_at _ []), Nat.eqb_refl, Hlen.
      replace (N.to_nat n <? S (N.to_nat n))%nat with true
        by (symmetry; apply Nat.ltb_lt; lia).
      cbn [andb]. rewrite List.repeat_length, uadd_small by assumption. lia.
Qed.

(** X3: [evaluate] memoises.  Asked for the same tuple again, it returns
    the value it returned before and leaves the model object as the first
    call left it ([n + 1] and [k_snp + 1] fitting an [unsigned], as the
    sizes of the table for [k_indel = 0] need). *)
Theorem evaluate_memoised m k_snp k_indel n :
  (n + 1 < modulus)%N -> (k_snp + 1 < modulus)%N ->
  evaluate (snd (evaluate m (k_snp, k_indel, n))) (k_snp, k_indel, n)
  = evaluate m (k_snp, k_indel, n).
Proof.
  intros Hn Hk. unfold evaluate. destruct (k_indel =? 0)%N.
  - apply evaluate_k_indel_zero_memoised; assumption.
  - apply evaluate_k_indel_pos_memoised.
Qed.

Lemma evaluate_memoised_witness :
  evaluate (snd (evaluate repeat_model (3, 0, 2)%N)) (3, 0, 2)%N
  = evaluate repeat_model (3, 0, 2)%N.
Proof.
  apply (evaluate_memoised repeat_model 3 0 2); unfold modulus; lia.
Defined.

(** *** Calls in sequence *)

Lemma evaluate_keeps_sites m t :
  params_ (snd (evaluate m t)) = params_ m
  /\ elevated (snd (evaluate m t)) = elevated m.
Proof.
  destruct t as [[k_snp k_indel] n]. unfold evaluate.
  destruct (k_indel =? 0)%N.
  - unfold evaluate_k_indel_zero. cbv zeta.
    destruct (_ <? _)%nat; [destruct (_ <? _)%nat; [destruct (nth _ _ _)|]|];
      split; reflexivity.
  - unfold evaluate_k_indel_pos. destruct (elevated m) as [ih off] eqn:E.
    destruct (find_key _ _); split; try reflexivity; assumption.
Qed.

Lemma evaluate_caches_consistent m t :
  caches_consistent m -> caches_consistent (snd (evaluate m t)).
Proof.
  intros [Hz Hp]. split; [apply evaluate_zero_cache_consistent, Hz|].
  destruct t as [[k_snp k_indel] n]. unfold evaluate.
  destruct (k_indel =? 0)%N.
  - intros ks ki n' v. unfold evaluate_k_indel_zero. cbv zeta.
    destruct (_ <? _)%nat; [destruct (_ <? _)%nat; [destruct (nth _ _ _)|]|];
      exact (Hp ks ki n' v).
  - intros ks ki n' v. unfold pos_cache_consistent_at, evaluate_k_indel_pos.
    pose proof (Hp ks ki n') as Hold. unfold pos_cache_consistent_at in Hold.
    destruct (elevated m) as [ih off] eqn:E.
    destruct (find_key (k_snp, k_indel, n, off) _) as [w|] eqn:Ef; cbn [snd].
    + rewrite E. exact (Hold v).
    + replace (elevated (with_pos_cache m _)) with (elevated m) by reflexivity.
      rewrite E. cbn [with_pos_cache k_indel_pos_result_cache_ params_ find_key fst snd].
      destruct (key_eqb (ks, ki, n', off) (k_snp, k_indel, n, off)) eqn:Ek.
      * apply key_eqb_eq in Ek. injection Ek as -> -> ->. intros [= <-]. reflexivity.
      * cbn [fst snd] in Hold. exact (Hold v).
Qed.

Lemma evaluate_value m t :
  caches_consistent m -> representable t ->
  0 < snp_heterozygosity (params_ m) -> 0 < indel_heterozygosity (params_ m) ->
  fst (evaluate m t) = prior_of m t.
Proof.
  intros [Hz Hp] Hr Hs Hi. destruct t as [[k_snp k_indel] n]. destruct Hr as [Hn Hk].
  unfold evaluate, prior_of, effective_indel_heterozygosity.
  destruct (N.eqb_spec k_indel 0) as [->|Hne].
  - rewrite evaluate_k_indel_zero_value by assumption.
    apply coalescent_sites_prior; assumption.
  - rewrite evaluate_k_indel_pos_value by apply Hp.
    apply coalescent_sites_prior; try assumption.
    pose proof (elevated_ge m). lra.
Qed.

Lemma evaluate_each_value : forall ts m,
  caches_consistent m -> Forall representable ts ->
  0 < snp_heterozygosity (params_ m) -> 0 < indel_heterozygosity (params_ m) ->
  evaluate_each m ts = map (prior_of m) ts.
Proof.
  induction ts as [|t ts IH]; intros m Hc Hr Hs Hi; [reflexivity|].
  inversion Hr as [|? ? Ht Hts]; subst.
  cbn [evaluate_each map]. f_equal; [apply evaluate_value; assumption|].
  destruct (evaluate_keeps_sites m t) as [Ep Ee].
  rewrite IH; [|apply evaluate_caches_consistent, Hc | assumption | rewrite Ep; assumption ..].
  apply map_ext. intros [[ks ki] n]. unfold prior_of, effective_indel_heterozygosity.
  rewrite Ep, Ee. reflexivity.
Qed.

(** X4: the caches never change an answer.  On a model that the
    constructor made, with any sites in the site buffer, every call in a
    sequence of [evaluate] calls (tuples with [n >= 2] and counts that fit
    an [unsigned]) returns the prior of section 4.3 for its tuple, whether
    the value is computed or found in a cache filled by the calls before. *)
Theorem evaluate_each_prior reference params hint caching m sites ts :
  make_CoalescentModel reference params hint caching = inr m ->
  Forall representable ts ->
  evaluate_each (with_site_buffer m sites) ts
  = map (prior_of (with_site_buffer m sites)) ts.
Proof.
  intros Hm Hts.
  destruct (make_CoalescentModel_consistent _ _ _ _ _ Hm) as [Hz Hp].
  assert (Hpos : 0 < snp_heterozygosity (params_ m) /\ 0 < indel_heterozygosity (params_ m)).
  { unfold make_CoalescentModel, Rleb in Hm.
    destruct (Rle_dec (snp_heterozygosity params) 0);
      destruct (Rle_dec (indel_heterozygosity params) 0); try discriminate.
    injection Hm as <-. cbn [params_]. lra. }
  apply evaluate_each_value; try apply Hpos; [|assumption].
  split; [exact Hz|].
  intros ks ki n v H.
  unfold make_CoalescentModel in Hm. destruct (_ || _); [discriminate|].
  injection Hm as <-. simpl in H. discriminate.
Qed.

Lemma evaluate_each_prior_witness :
  evaluate_each (with_site_buffer repeat_model [deletion_site])
    [(0, 1, 2); (1, 0, 2); (0, 1, 2)]%N
  = map (prior_of (with_site_buffer repeat_model [deletion_site]))
      [(0, 1, 2); (1, 0, 2); (0, 1, 2)]%N.
Proof.
  apply (evaluate_each_prior repeat_reference half_parameters 1 caching_none).
  - exact make_repeat_model.
  - repeat constructor; unfold modulus; lia.
Defined.
(** *** The key of the cache for [k_indel > 0] *)

Lemma Rpower_2_bounds : 1 < Rpower 2 2.6 < 8.
Proof.
  split.
  - rewrite <- (Rpower_O 2) by lra. apply Rpower_lt; lra.
  - replace 8 with (2 ^ 3) by lra. rewrite <- Rpower_pow by lra.
    apply Rpower_lt; [lra | simpl; lra].
Qed.

Lemma Rpower_4_bounds : Rpower 2 2.6 < Rpower 4 2.6 < 64.
Proof.
  split.
  - apply Rlt_Rpower_l; lra.
  - replace 64 with (4 ^ 3) by lra. rewrite <- Rpower_pow by lra.
    apply Rpower_lt; [lra | simpl; lra].
Qed.

Lemma two_runs_heterozygosities :
  exists a b,
    1 / 100 < a /\ a < b
    /\ reference_base_indel_heterozygosities_ two_runs_model = [a; a; b; b; b; b].
Proof.
  pose proof Rpower_2_bounds as [H2 H2']. pose proof Rpower_4_bounds as [H4 H4'].
  exists (1 / 100 * Rpower 2 2.6), (1 / 100 * Rpower 4 2.6).
  split; [lra|]. split; [lra|].
  cbn [two_runs_model reference_base_indel_heterozygosities_].
  unfold calculate_base_indel_heterozygosities, transform_range, std_pow.
  cbn [two_runs_reference tandem_repeats sequence_size fold_left repeat_pos
       repeat_length repeat_period].
  change (2 / 1)%nat with 2%nat. change (4 / 1)%nat with 4%nat.
  replace (INR 2) with 2 by (simpl; lra). replace (INR 4) with 4 by (simpl; lra).
  destruct (Req_dec_T 2 0) as [E|_]; [lra|].
  destruct (Req_dec_T 4 0) as [E|_]; [lra|].
  rewrite !Rmin_left by lra.
  simpl. rewrite !Rmax_right by lra. reflexivity.
Qed.

Lemma two_runs_elevated :
  exists a b,
    1 / 100 < a /\ a < b
    /\ elevated (with_site_buffer two_runs_model [short_deletion]) = (a, 1%Z)
    /\ elevated (with_site_buffer two_runs_model [long_deletion]) = (b, 1%Z).
Proof.
  destruct two_runs_heterozygosities as (a & b & Ha & Hb & E).
  exists a, b. split; [assumption|]. split; [assumption|].
  unfold elevated.
  cbn [with_site_buffer site_buffer1_ reference_base_indel_heterozygosities_ params_].
  rewrite E. unfold elevate, short_deletion, long_deletion.
  cbn [two_runs_model params_ hundredth_parameters indel_heterozygosity fold_left
       is_indel begin_distance region_size Nat.max skipn firstn fst].
  rewrite (Rmax_right a b) by lra.
  destruct (Rlt_dec (1 / 100) a); [|lra].
  destruct (Rlt_dec (1 / 100) b); [|lra].
  split; reflexivity.
Qed.

(** X5: the cache for [k_indel > 0] is keyed by the counts and by the
    offset of the indel site with the largest heterozygosity, not by that
    heterozygosity.  After a call for one set of sites, a call for the
    same tuple and other sites with the same offset returns the value of
    the first call, whatever the indel heterozygosity of the second set
    of sites is. *)
Theorem evaluate_cached_by_offset m sites1 sites2 k_snp k_indel n :
  k_indel <> 0%N ->
  snd (elevated (with_site_buffer m sites1)) = snd (elevated (with_site_buffer m sites2)) ->
  fst (evaluate
         (with_site_buffer (snd (evaluate (with_site_buffer m sites1) (k_snp, k_indel, n)))
            sites2)
         (k_snp, k_indel, n))
  = fst (evaluate (with_site_buffer m sites1) (k_snp, k_indel, n)).
Proof.
  intros Hk Hoff. unfold evaluate.
  apply N.eqb_neq in Hk. rewrite Hk.
  unfold evaluate_k_indel_pos at 2 3.
  destruct (elevated (with_site_buffer m sites1)) as [ih1 off] eqn:E1.
  destruct (elevated (with_site_buffer m sites2)) as [ih2 off2] eqn:E2.
  cbn [snd] in Hoff. subst off2.
  destruct (find_key (k_snp, k_indel, n, off)
              (k_indel_pos_result_cache_ (with_site_buffer m sites1))) as [v|] eqn:Ef;
    cbn [fst snd]; unfold evaluate_k_indel_pos.
  - replace (elevated (with_site_buffer (with_site_buffer m sites1) sites2))
      with (elevated (with_site_buffer m sites2)) by reflexivity.
    rewrite E2.
    replace (k_indel_pos_result_cache_ (with_site_buffer (with_site_buffer m sites1) sites2))
      with (k_indel_pos_result_cache_ (with_site_buffer m sites1)) by reflexivity.
    rewrite Ef. reflexivity.
  - match goal with
    | |- context [elevated (with_site_buffer (with_pos_cache _ ?c) sites2)] =>
        replace (elevated (with_site_buffer (with_pos_cache (with_site_buffer m sites1) c)
                             sites2))
          with (elevated (with_site_buffer m sites2)) by reflexivity
    end.
    rewrite E2.
    cbn [with_site_buffer with_pos_cache k_indel_pos_result_cache_ find_key].
    rewrite key_eqb_refl. reflexivity.
Qed.

Lemma evaluate_cached_by_offset_witness :
  fst (evaluate
         (with_site_buffer
            (snd (evaluate (with_site_buffer two_runs_model [short_deletion]) (0, 1, 2)%N))
            [long_deletion])
         (0, 1, 2)%N)
  = fst (evaluate (with_site_buffer two_runs_model [short_deletion]) (0, 1, 2)%N)
  /\ fst (elevated (with_site_buffer two_runs_model [short_deletion]))
     < fst (elevated (with_site_buffer two_runs_model [long_deletion])).
Proof.
  destruct two_runs_elevated as (a & b & Ha & Hb & E1 & E2).
  split.
  - apply (evaluate_cached_by_offset two_runs_model [short_deletion] [long_deletion] 0 1 2).
    + discriminate.
    + rewrite E1, E2. reflexivity.
  - rewrite E1, E2. assumption.
Defined.
(** *** Calls with their own sites *)

Lemma fold_left_Rmax_le : forall l a, a <= fold_left Rmax l a.
Proof.
  induction l as [|x l IH]; intros a; [simpl; lra|].
  cbn [fold_left]. eapply Rle_trans; [apply (Rmax_l a x) | apply IH].
Qed.

Lemma fold_left_Rmax_Rmax : forall l a b,
  fold_left Rmax l (Rmax a b) = Rmax a (fold_left Rmax l b).
Proof.
  induction l as [|x l IH]; intros a b; [reflexivity|].
  cbn [fold_left]. rewrite <- IH. f_equal.
  unfold Rmax. repeat destruct (Rle_dec _ _); lra.
Qed.

Lemma elevate_largest heterozygosities acc site :
  fst (elevate heterozygosities acc site)
  = fold_left Rmax
      (if is_indel site then site_heterozygosities heterozygosities site else [])
      (fst acc).
Proof.
  unfold elevate, site_heterozygosities. destruct (is_indel site); [|reflexivity].
  destruct (firstn _ _) as [|x xs]; [reflexivity|].
  cbn [fold_left]. rewrite fold_left_Rmax_Rmax.
  destruct (Rlt_dec (fst acc) (fold_left Rmax xs x)) as [Hlt|Hge]; cbn [fst].
  - rewrite Rmax_right by lra. reflexivity.
  - rewrite Rmax_left by lra. reflexivity.
Qed.

Lemma fold_elevate_largest heterozygosities : forall sites acc,
  fst (fold_left (elevate heterozygosities) sites acc)
  = largest_indel_heterozygosity (fst acc) heterozygosities sites.
Proof.
  unfold largest_indel_heterozygosity.
  induction sites as [|site sites IH]; intros acc; [reflexivity|].
  cbn [fold_left filter]. rewrite IH, elevate_largest.
  destruct (is_indel site); [|reflexivity].
  cbn [map concat]. rewrite fold_left_app. reflexivity.
Qed.

(** The indel heterozygosity that the loop over the site buffer ends with
    is the largest of the model's own and the per-base values under the
    indel sites. *)
Lemma elevated_largest m :
  fst (elevated m)
  = largest_indel_heterozygosity (indel_heterozygosity (params_ m))
      (reference_base_indel_heterozygosities_ m) (site_buffer1_ m).
Proof. unfold elevated. apply fold_elevate_largest. Qed.

Lemma evaluate_keeps_model m t :
  params_ (snd (evaluate m t)) = params_ m
  /\ reference_base_indel_heterozygosities_ (snd (evaluate m t))
     = reference_base_indel_heterozygosities_ m.
Proof.
  destruct t as [[k_snp k_indel] n]. unfold evaluate.
  destruct (k_indel =? 0)%N.
  - unfold evaluate_k_indel_zero. cbv zeta.
    destruct (_ <? _)%nat; [destruct (_ <? _)%nat; [destruct (nth _ _ _)|]|];
      split; reflexivity.
  - unfold evaluate_k_indel_pos. destruct (elevated m) as [ih off].
    destruct (find_key _ _); split; reflexivity.
Qed.

Lemma evaluate_k_indel_zero_keeps_pos_cache m k_snp n :
  k_indel_pos_result_cache_ (snd (evaluate_k_indel_zero m k_snp n))
  = k_indel_pos_result_cache_ m.
Proof.
  unfold evaluate_k_indel_zero. cbv zeta.
  destruct (_ <? _)%nat; [destruct (_ <? _)%nat; [destruct (nth _ _ _)|]|]; reflexivity.
Qed.

Lemma elevated_same_model m m' sites :
  params_ m' = params_ m ->
  reference_base_indel_heterozygosities_ m' = reference_base_indel_heterozygosities_ m ->
  elevated (with_site_buffer m' sites) = elevated (with_site_buffer m sites).
Proof.
  intros Ep Et. unfold elevated.
  cbn [with_site_buffer reference_base_indel_heterozygosities_ params_ site_buffer1_].
  rewrite Ep, Et. reflexivity.
Qed.

Lemma evaluate_sites_caches_from_calls m calls m' call :
  caches_from_calls m calls m' ->
  caches_from_calls m (calls ++ [call]) (snd (evaluate_sites m' call)).
Proof.
  intros (Ep & Et & Hz & Hpos). destruct call as [sites [[k_snp k_indel] n]].
  unfold evaluate_sites. cbn [fst snd].
  destruct (evaluate_keeps_model (with_site_buffer m' sites) (k_snp, k_indel, n))
    as [Ep' Et'].
  split; [rewrite Ep'; exact Ep|]. split; [rewrite Et'; exact Et|].
  split; [apply evaluate_zero_cache_consistent; exact Hz|].
  assert (Hold : forall ks ki n' offset v,
             find_key (ks, ki, n', offset) (k_indel_pos_result_cache_ m') = Some v ->
             exists sites',
               In (sites', (ks, ki, n')) (calls ++ [(sites, (k_snp, k_indel, n))])
               /\ v = coalescent_sites n' ks ki (snp_heterozygosity (params_ m))
                       (fst (elevated (with_site_buffer m sites')))).
  { intros ks ki n' offset v H. destruct (Hpos ks ki n' offset v H) as (sites' & Hin & Ev).
    exists sites'. split; [apply in_or_app; left; assumption | assumption]. }
  unfold evaluate. destruct (k_indel =? 0)%N.
  - rewrite evaluate_k_indel_zero_keeps_pos_cache. exact Hold.
  - unfold evaluate_k_indel_pos.
    rewrite (elevated_same_model m m' sites Ep Et).
    destruct (elevated (with_site_buffer m sites)) as [ih off] eqn:Ee.
    destruct (find_key (k_snp, k_indel, n, off) _) as [w|] eqn:Ef; cbn [snd];
      [exact Hold|].
    intros ks ki n' offset v.
    cbn [with_pos_cache with_site_buffer k_indel_pos_result_cache_ params_ find_key].
    destruct (key_eqb (ks, ki, n', offset) (k_snp, k_indel, n, off)) eqn:Ek.
    + apply key_eqb_eq in Ek. injection Ek as -> -> -> ->. intros [= <-].
      exists sites. split; [apply in_or_app; right; left; reflexivity|].
      rewrite Ee, Ep. reflexivity.
    + apply Hold.
Qed.

Lemma after_calls_caches_from_calls reference params hint caching m calls :
  make_CoalescentModel reference params hint caching = inr m ->
  caches_from_calls m calls (after_calls m calls).
Proof.
  intros Hm. induction calls as [|call calls IH] using rev_ind.
  - destruct (make_CoalescentModel_consistent _ _ _ _ _ Hm) as [Hz _].
    split; [reflexivity|]. split; [reflexivity|]. split; [exact Hz|].
    intros k_snp k_indel n offset v H. exfalso.
    unfold make_CoalescentModel in Hm. destruct (_ || _); [discriminate|].
    injection Hm as <-. discriminate H.
  - unfold after_calls. rewrite fold_left_app. cbn [fold_left].
    apply evaluate_sites_caches_from_calls. exact IH.
Qed.

(** What a call returns: the value of [coalescent] for its tuple, rated
    with the indel heterozygosity of its own sites or, when the value
    comes from the cache for [k_indel > 0], of the sites of an earlier call
    with the same tuple. *)
Lemma evaluate_sites_value m calls m' sites k_snp k_indel n :
  caches_from_calls m calls m' ->
  exists sites',
    (sites' = sites \/ In (sites', (k_snp, k_indel, n)) calls)
    /\ fst (evaluate_sites m' (sites, (k_snp, k_indel, n)))
       = coalescent_sites n k_snp k_indel (snp_heterozygosity (params_ m))
           (effective_indel_heterozygosity (with_site_buffer m sites') k_indel).
Proof.
  intros (Ep & Et & Hz & Hpos).
  unfold evaluate_sites, evaluate, effective_indel_heterozygosity. cbn [fst snd].
  destruct (N.eqb_spec k_indel 0) as [->|Hne].
  - exists sites. split; [left; reflexivity|].
    rewrite evaluate_k_indel_zero_value by exact Hz.
    cbn [with_site_buffer params_]. rewrite Ep. reflexivity.
  - unfold evaluate_k_indel_pos.
    rewrite (elevated_same_model m m' sites Ep Et).
    destruct (elevated (with_site_buffer m sites)) as [ih off] eqn:Ee.
    destruct (find_key (k_snp, k_indel, n, off) _) as [w|] eqn:Ef; cbn [fst].
    + destruct (Hpos k_snp k_indel n off w Ef) as (sites' & Hin & Ev).
      exists sites'. split; [right; assumption | exact Ev].
    + exists sites. split; [left; reflexivity|].
      rewrite Ee. cbn [with_site_buffer params_ fst]. rewrite Ep. reflexivity.
Qed.

Lemma make_CoalescentModel_fields reference params hint caching m :
  make_CoalescentModel reference params hint caching = inr m ->
  params_ m = params
  /\ reference_base_indel_heterozygosities_ m
     = calculate_base_indel_heterozygosities reference (indel_heterozygosity params)
  /\ 0 < snp_heterozygosity params /\ 0 < indel_heterozygosity params.
Proof.
  unfold make_CoalescentModel, Rleb.
  destruct (Rle_dec (snp_heterozygosity params) 0);
    destruct (Rle_dec (indel_heterozygosity params) 0); try discriminate.
  intros [= <-]. repeat split; lra.
Qed.

(** C4 (as amended): on a model that the constructor made, after any calls
    made before, a call for sites [sites] and a tuple [(k_snp, k_indel, n)]
    with [n >= 2] and counts whose sum fits an unsigned returns the prior
    of section 4.3 in which the indel heterozygosity is the model's own
    when [k_indel = 0] and, when [k_indel > 0], the largest of it and the
    repeat-elevated per-base values under the indel sites of [sites];
    this for a tuple that no earlier call asked for with sites of another
    largest value. *)
Theorem evaluate_prior reference params hint caching m calls sites k_snp k_indel n :
  let largest :=
    largest_indel_heterozygosity (indel_heterozygosity params)
      (calculate_base_indel_heterozygosities reference (indel_heterozygosity params)) in
  make_CoalescentModel reference params hint caching = inr m ->
  (2 <= n < modulus)%N -> (k_snp + k_indel < modulus)%N ->
  (forall sites', In (sites', (k_snp, k_indel, n)) calls -> largest sites' = largest sites) ->
  fst (evaluate_sites (after_calls m calls) (sites, (k_snp, k_indel, n)))
  = coalescent_prior (N.to_nat n) (N.to_nat k_snp) (N.to_nat k_indel)
      (snp_heterozygosity params)
      (if (k_indel =? 0)%N then indel_heterozygosity params else largest sites).
Proof.
  intros largest Hm Hn Hk Hsame.
  destruct (make_CoalescentModel_fields _ _ _ _ _ Hm) as (Ep & Et & Hs & Hi).
  assert (Elargest : forall sites',
             fst (elevated (with_site_buffer m sites')) = largest sites').
  { intros sites'. rewrite elevated_largest.
    cbn [with_site_buffer params_ reference_base_indel_heterozygosities_ site_buffer1_].
    rewrite Ep, Et. reflexivity. }
  destruct (evaluate_sites_value m calls (after_calls m calls) sites k_snp k_indel n
              (after_calls_caches_from_calls _ _ _ _ _ calls Hm))
    as (sites' & Hfrom & ->).
  rewrite Ep.
  assert (Erated : effective_indel_heterozygosity (with_site_buffer m sites') k_indel
                   = if (k_indel =? 0)%N then indel_heterozygosity params
                     else largest sites).
  { unfold effective_indel_heterozygosity. cbn [with_site_buffer params_]. rewrite Ep.
    destruct (k_indel =? 0)%N; [reflexivity|].
    change (fst (elevated (with_site_buffer m sites')) = largest sites).
    rewrite Elargest. destruct Hfrom as [->|Hin]; [reflexivity | apply Hsame, Hin]. }
  rewrite Erated.
  apply coalescent_sites_prior; try assumption.
  destruct (k_indel =? 0)%N; [assumption|].
  rewrite <- Elargest. pose proof (elevated_ge (with_site_buffer m sites)) as Hge.
  cbn [with_site_buffer params_] in Hge. rewrite Ep in Hge. lra.
Qed.

Lemma evaluate_prior_witness :
  fst (evaluate_sites
         (after_calls repeat_model [([deletion_site], (0, 1, 2)%N); ([], (1, 0, 2)%N)])
         ([deletion_site], (0, 1, 2)%N))
  = coalescent_prior 2 0 1 (1 / 2)
      (largest_indel_heterozygosity (1 / 2)
         (calculate_base_indel_heterozygosities repeat_reference (1 / 2))
         [deletion_site]).
Proof.
  apply (evaluate_prior repeat_reference half_parameters 1 caching_none repeat_model
           [([deletion_site], (0, 1, 2)%N); ([], (1, 0, 2)%N)] [deletion_site] 0 1 2).
  - exact make_repeat_model.
  - unfold modulus. lia.
  - unfold modulus. lia.
  - intros sites' [H | [H | []]]; [injection H as <-; reflexivity | discriminate H].
Defined.

(** *** The prior is a log-probability *)













End Coalescent.

(** ** fixed_ploidy_genotype_likelihood_model.cpp *)

Module GenotypeLikelihood.

Import Unsigned Maths Std.

Definition SampleIdType : Type := string.

(** A haplotype is known here by its base sequence, which is what [==]
    compares (haplotype.hpp is not part of the sources). *)
Definition Haplotype : Type := string.

(** Modelled from the spec: [Genotype<Haplotype>] (genotype.hpp is not part
    of the sources), a multiset of fixed size kept as an ordered vector,
    with element access, [is_homozygous], [zygosity] (the number of
    distinct members) and [count]. *)
Definition Genotype : Type := list Haplotype.

Definition at_ (g : Genotype) (i : nat) : Haplotype := nth i g EmptyString.

Definition is_homozygous (g : Genotype) : bool :=
  forallb (fun h => String.eqb h (at_ g 0)) g.

Definition zygosity (g : Genotype) : nat := List.length (nodup string_dec g).

Definition count (g : Genotype) (h : Haplotype) : nat := count_occ string_dec g h.

(** What the model reads of the cache: [log_likelihoods(sample, haplotype)]. *)
Definition HaplotypeLikelihoods : Type := SampleIdType -> Haplotype -> list R.

Record FixedPloidyGenotypeLikelihoodModel : Type :=
  { haplotype_likelihoods_ : HaplotypeLikelihoods;
    ploidy_ : N;
    ln_ploidy_ : R }.

Definition make_model (ploidy : N) (haplotype_likelihoods : HaplotypeLikelihoods)
  : FixedPloidyGenotypeLikelihoodModel :=
  {| haplotype_likelihoods_ := haplotype_likelihoods;
     ploidy_ := ploidy;
     ln_ploidy_ := ln (to_double ploidy) |}.

(** [std::accumulate(first, last, 0.0)] *)
Definition accumulate (l : list R) : R := fold_left Rplus l 0.

(** [std::inner_product(first1, last1, first2, 0.0, std::plus, op)]; the
    second range is read as far as the first one reaches (the source reads
    past its end when it is the shorter one; the model stops there). *)
Definition inner_product (l1 l2 : list R) (op : R -> R -> R) : R :=
  fold_left (fun acc ab => acc + op (fst ab) (snd ab)) (combine l1 l2) 0.

Definition log_likelihood_haploid
  (m : FixedPloidyGenotypeLikelihoodModel) (sample : SampleIdType) (genotype : Genotype) : R :=
  accumulate (haplotype_likelihoods_ m sample (at_ genotype 0)).

Definition log_likelihood_diploid
  (m : FixedPloidyGenotypeLikelihoodModel) (sample : SampleIdType) (genotype : Genotype) : R :=
  if is_homozygous genotype then
    accumulate (haplotype_likelihoods_ m sample (at_ genotype 0))
  else
    let log_likelihoods1 := haplotype_likelihoods_ m sample (at_ genotype 0) in
    let log_likelihoods2 := haplotype_likelihoods_ m sample (at_ genotype 1) in
    inner_product log_likelihoods1 log_likelihoods2
      (fun a b => log_sum_exp2 a b - ln_ploidy_ m).

(** The element reads [log_likelihoods2[i]] and [log_likelihoods3[i]] of the
    triallelic loop give [0] out of range (undefined in the source). *)
Definition log_likelihood_triploid
  (m : FixedPloidyGenotypeLikelihoodModel) (sample : SampleIdType) (genotype : Genotype) : R :=
  if is_homozygous genotype then
    accumulate (haplotype_likelihoods_ m sample (at_ genotype 0))
  else
    let log_likelihoods1 := haplotype_likelihoods_ m sample (at_ genotype 0) in
    let log_likelihoods2 := haplotype_likelihoods_ m sample (at_ genotype 1) in
    if (zygosity genotype =? 3)%nat then
      let log_likelihoods3 := haplotype_likelihoods_ m sample (at_ genotype 1) in
      fold_left
        (fun result i =>
           result
           + (log_sum_exp3 (nth i log_likelihoods1 0) (nth i log_likelihoods2 0)
                (nth i log_likelihoods3 0)
              - ln_ploidy_ m))
        (seq 0 (List.length log_likelihoods1)) 0
    else if (count genotype (at_ genotype 0) =? 1)%nat then
      inner_product log_likelihoods1 log_likelihoods2
        (fun a b => log_sum_exp2 a (2 * b) - ln_ploidy_ m)
    else
      inner_product log_likelihoods1 log_likelihoods2
        (fun a b => log_sum_exp2 (2 * a) b - ln_ploidy_ m).

Definition log_likelihood_polyploid
  (m : FixedPloidyGenotypeLikelihoodModel) (sample : SampleIdType) (genotype : Genotype) : R :=
  if is_homozygous genotype then
    accumulate (haplotype_likelihoods_ m sample (at_ genotype 0))
  else
    let log_likelihoods := map (haplotype_likelihoods_ m sample) genotype in
    let num_reads := List.length (hd [] log_likelihoods) in
    fold_left
      (fun result i =>
         let tmp := map (fun haplotype_likelihoods => nth i haplotype_likelihoods 0)
                      log_likelihoods in
         result + (log_sum_exp tmp - ln_ploidy_ m))
      (seq 0 num_reads) 0.

Definition log_likelihood
  (m : FixedPloidyGenotypeLikelihoodModel) (sample : SampleIdType) (genotype : Genotype) : R :=
  match ploidy_ m with
  | 1%N => log_likelihood_haploid m sample genotype
  | 2%N => log_likelihood_diploid m sample genotype
  | 3%N => log_likelihood_triploid m sample genotype
  | _ => log_likelihood_polyploid m sample genotype
  end.

(** *** The general formula *)

(** [P(read i | genotype)]: the mean over the genotype's haplotypes of
    [P(read i | haplotype)]. *)
Definition read_probability
  (likelihoods : HaplotypeLikelihoods) (sample : SampleIdType) (genotype : Genotype)
  (i : nat) : R :=
  fold_right (fun h acc => exp (nth i (likelihoods sample h) 0) + acc) 0 genotype
  / INR (List.length genotype).

(** [ln p(reads | genotype)], the sum over the sample's reads of
    [ln p(read | genotype)]. *)
Definition general_log_likelihood
  (likelihoods : HaplotypeLikelihoods) (sample : SampleIdType) (genotype : Genotype) : R :=
  fold_right
    (fun i acc => ln (read_probability likelihoods sample genotype i) + acc) 0
    (seq 0 (List.length (likelihoods sample (at_ genotype 0)))).

(** *** One read, three distinct haplotypes *)

Definition triallelic_genotype : Genotype := ["A"; "C"; "G"]%string.

Definition one_read_likelihoods : HaplotypeLikelihoods :=
  fun _ h => if String.eqb h "G"%string then [1] else [0].

Definition triploid_model : FixedPloidyGenotypeLikelihoodModel :=
  make_model 3 one_read_likelihoods.

Lemma log_sum_exp3_ln a b c : log_sum_exp3 a b c = ln (exp a + exp b + exp c).
Proof.
  unfold log_sum_exp3. cbv zeta. set (m := Rmax a (Rmax b c)).
  rewrite <- (ln_exp m) at 1.
  rewrite <- ln_mult.
  - f_equal. rewrite !Rmult_plus_distr_l, <- !exp_plus. f_equal; [f_equal|]; f_equal; lra.
  - apply exp_pos.
  - pose proof (exp_pos (a - m)). pose proof (exp_pos (b - m)). pose proof (exp_pos (c - m)). lra.
Qed.


(** What the triallelic branch computes: the second haplotype stands in
    for the third. *)
Lemma log_likelihood_triploid_triallelic m sample genotype :
  is_homozygous genotype = false -> zygosity genotype = 3%nat ->
  log_likelihood_triploid m sample genotype
  = fold_left
      (fun result i =>
         result
         + (ln (exp (nth i (haplotype_likelihoods_ m sample (at_ genotype 0)) 0)
                + exp (nth i (haplotype_likelihoods_ m sample (at_ genotype 1)) 0)
                + exp (nth i (haplotype_likelihoods_ m sample (at_ genotype 1)) 0))
            - ln_ploidy_ m))
      (seq 0 (List.length (haplotype_likelihoods_ m sample (at_ genotype 0)))) 0.
Proof.
  intros Hh Hz. unfold log_likelihood_triploid. rewrite Hh, Hz. cbv zeta.
  change (3 =? 3)%nat with true. cbv iota.
  apply fold_left_ext. intros result i. rewrite log_sum_exp3_ln. reflexivity.
Qed.

(** C1 fails on the code: for one read with [ln P(r|A) = ln P(r|C) = 0] and
    [ln P(r|G) = 1] the triallelic branch of [log_likelihood] reads the
    likelihoods of the second haplotype in place of the third and returns
    [ln ((1 + 1 + 1) / 3) = 0], while the general formula gives
    [ln ((1 + 1 + e) / 3)], which is positive. *)
Theorem log_likelihood_triallelic_drops_third :
  zygosity triallelic_genotype = 3%nat
  /\ log_likelihood triploid_model "s"%string triallelic_genotype = 0
  /\ general_log_likelihood one_read_likelihoods "s"%string triallelic_genotype
     = ln ((1 + 1 + exp 1) / 3)
  /\ log_likelihood triploid_model "s"%string triallelic_genotype
     <> general_log_likelihood one_read_likelihoods "s"%string triallelic_genotype.
Proof.
  assert (E1 : log_likelihood triploid_model "s"%string triallelic_genotype = 0).
  { unfold log_likelihood. cbn [triploid_model make_model ploidy_].
    rewrite log_likelihood_triploid_triallelic by reflexivity.
    simpl. rewrite exp_0. unfold to_double. simpl.
    replace (1 + 1 + 1) with 3 by lra. lra. }
  assert (E2 : general_log_likelihood one_read_likelihoods "s"%string triallelic_genotype
               = ln ((1 + 1 + exp 1) / 3)).
  { unfold general_log_likelihood, read_probability. simpl. rewrite exp_0.
    rewrite !Rplus_0_r. f_equal. lra. }
  repeat split; try assumption; try reflexivity.
  rewrite E1, E2. intros E.
  assert (H : 0 < ln ((1 + 1 + exp 1) / 3)).
  { rewrite <- ln_1. apply ln_increasing; [lra|].
    pose proof (exp_ineq1 1 ltac:(lra)). lra. }
  lra.
Qed.

(** *** The fast paths and the general formula *)

Lemma log_sum_exp2_ln a b : log_sum_exp2 a b = ln (exp a + exp b).
Proof.
  unfold log_sum_exp2. cbv zeta. set (m := Rmax a b).
  rewrite <- (ln_exp m) at 1.
  rewrite <- ln_mult.
  - f_equal. rewrite Rmult_plus_distr_l, <- !exp_plus. f_equal; f_equal; lra.
  - apply exp_pos.
  - pose proof (exp_pos (a - m)). pose proof (exp_pos (b - m)). lra.
Qed.

Lemma fold_left_exp_shift m : forall l acc,
  fold_left (fun acc x => acc + exp (x - m)) l acc
  = acc + exp (- m) * fold_right (fun x s => exp x + s) 0 l.
Proof.
  induction l as [|x l IH]; intros acc; cbn [fold_left fold_right]; [lra|].
  rewrite IH. replace (x - m) with (- m + x) by lra. rewrite exp_plus. lra.
Qed.

Lemma sum_exp_pos : forall l, l <> [] -> 0 < fold_right (fun x s => exp x + s) 0 l.
Proof.
  intros l Hl.
  assert (H : forall l', 0 <= fold_right (fun x s => exp x + s) 0 l').
  { induction l' as [|x l' IH]; cbn [fold_right]; [lra|]. pose proof (exp_pos x). lra. }
  destruct l as [|x l]; [congruence|]. cbn [fold_right].
  pose proof (exp_pos x). pose proof (H l). lra.
Qed.

Lemma log_sum_exp_ln l :
  l <> [] -> log_sum_exp l = ln (fold_right (fun x s => exp x + s) 0 l).
Proof.
  intros Hl. unfold log_sum_exp. cbv zeta. set (m := list_max l).
  rewrite fold_left_exp_shift, Rplus_0_l.
  pose proof (sum_exp_pos l Hl) as Hpos.
  rewrite ln_mult by (try apply exp_pos; assumption).
  rewrite ln_exp. lra.
Qed.

(** Sums over the reads [0 .. n-1]. *)
Lemma fold_right_seq_succ (F : nat -> R) n : forall s,
  fold_right (fun i acc => F i + acc) 0 (seq (S s) n)
  = fold_right (fun i acc => F (S i) + acc) 0 (seq s n).
Proof.
  induction n as [|n IH]; intros s; [reflexivity|].
  cbn [seq fold_right]. rewrite IH. reflexivity.
Qed.

Lemma fold_right_seq_ext (F G : nat -> R) n : forall s,
  (forall i, (s <= i < s + n)%nat -> F i = G i) ->
  fold_right (fun i acc => F i + acc) 0 (seq s n)
  = fold_right (fun i acc => G i + acc) 0 (seq s n).
Proof.
  induction n as [|n IH]; intros s E; [reflexivity|].
  cbn [seq fold_right]. rewrite E by lia. rewrite IH; [reflexivity|].
  intros i Hi. apply E. lia.
Qed.

Lemma fold_left_seq_sum (F : nat -> R) n : forall s acc,
  fold_left (fun result i => result + F i) (seq s n) acc
  = acc + fold_right (fun i acc => F i + acc) 0 (seq s n).
Proof.
  induction n as [|n IH]; intros s acc; cbn [seq fold_left fold_right]; [lra|].
  rewrite IH. lra.
Qed.

Lemma accumulate_seq l :
  accumulate l = fold_right (fun i acc => nth i l 0 + acc) 0 (seq 0 (List.length l)).
Proof.
  unfold accumulate.
  assert (H : forall l acc,
             fold_left Rplus l acc
             = acc + fold_right (fun i acc => nth i l 0 + acc) 0 (seq 0 (List.length l))).
  { clear l. induction l as [|x l IH]; intros acc; cbn [fold_left List.length seq fold_right];
      [lra|].
    rewrite IH, (fold_right_seq_succ (fun i => nth i (x :: l) 0)). cbn [nth]. lra. }
  rewrite H. lra.
Qed.

Lemma inner_product_seq (op : R -> R -> R) : forall l1 l2,
  List.length l1 = List.length l2 ->
  inner_product l1 l2 op
  = fold_right (fun i acc => op (nth i l1 0) (nth i l2 0) + acc) 0
      (seq 0 (List.length l1)).
Proof.
  unfold inner_product.
  assert (H : forall l1 l2 acc,
             List.length l1 = List.length l2 ->
             fold_left (fun acc ab => acc + op (fst ab) (snd ab)) (combine l1 l2) acc
             = acc + fold_right (fun i acc => op (nth i l1 0) (nth i l2 0) + acc) 0
                       (seq 0 (List.length l1))).
  { induction l1 as [|x l1 IH]; intros [|y l2] acc E; try discriminate;
      cbn [combine fold_left List.length seq fold_right fst snd]; [lra|].
    rewrite IH by (simpl in E; lia).
    rewrite (fold_right_seq_succ (fun i => op (nth i (x :: l1) 0) (nth i (y :: l2) 0))).
    cbn [nth]. lra. }
  intros l1 l2 E. rewrite H by assumption. lra.
Qed.

Lemma is_homozygous_all genotype h :
  is_homozygous genotype = true -> In h genotype -> h = at_ genotype 0.
Proof.
  unfold is_homozygous. rewrite forallb_forall. intros H Hin.
  apply String.eqb_eq, H, Hin.
Qed.

Lemma sum_exp_homozygous (likelihoods : Haplotype -> list R) h0 i : forall genotype,
  (forall h, In h genotype -> h = h0) ->
  fold_right (fun h acc => exp (nth i (likelihoods h) 0) + acc) 0 genotype
  = INR (List.length genotype) * exp (nth i (likelihoods h0) 0).
Proof.
  induction genotype as [|h genotype IH]; intros Hall.
  - simpl. lra.
  - cbn [fold_right]. rewrite IH by (intros h' Hh'; apply Hall; right; assumption).
    rewrite (Hall h) by (left; reflexivity).
    cbn [List.length]. rewrite S_INR. lra.
Qed.

(** X7: for a homozygous genotype of any ploidy, [log_likelihood] is the
    sum of the read log-likelihoods of its haplotype, which is what the
    general formula [sum_r ln (sum_h P(r|h) / ploidy)] gives. *)
Theorem log_likelihood_homozygous m sample genotype :
  genotype <> [] -> is_homozygous genotype = true ->
  log_likelihood m sample genotype
  = accumulate (haplotype_likelihoods_ m sample (at_ genotype 0))
  /\ log_likelihood m sample genotype
     = general_log_likelihood (haplotype_likelihoods_ m) sample genotype.
Proof.
  intros Hne Hhom.
  assert (E : log_likelihood m sample genotype
              = accumulate (haplotype_likelihoods_ m sample (at_ genotype 0))).
  { unfold log_likelihood, log_likelihood_haploid, log_likelihood_diploid,
      log_likelihood_triploid, log_likelihood_polyploid.
    rewrite Hhom. destruct (ploidy_ m) as [|[[|[]|]|[|[]|]|]]; reflexivity. }
  split; [exact E|]. rewrite E, accumulate_seq.
  unfold general_log_likelihood. apply fold_right_seq_ext. intros i _.
  unfold read_probability.
  rewrite (sum_exp_homozygous (haplotype_likelihoods_ m sample) (at_ genotype 0))
    by (intros h Hh; apply is_homozygous_all; assumption).
  assert (Hlen : 0 < INR (List.length genotype)).
  { apply lt_0_INR. destruct genotype; [congruence | simpl; lia]. }
  replace (INR (List.length genotype)
           * exp (nth i (haplotype_likelihoods_ m sample (at_ genotype 0)) 0)
           / INR (List.length genotype))
    with (exp (nth i (haplotype_likelihoods_ m sample (at_ genotype 0)) 0))
    by (field; lra).
  rewrite ln_exp. reflexivity.
Qed.

Lemma log_likelihood_homozygous_witness :
  log_likelihood triploid_model "s"%string ["A"; "A"; "A"]%string
  = accumulate (haplotype_likelihoods_ triploid_model "s"%string
                  (at_ ["A"; "A"; "A"]%string 0))
  /\ log_likelihood triploid_model "s"%string ["A"; "A"; "A"]%string
     = general_log_likelihood (haplotype_likelihoods_ triploid_model) "s"%string
         ["A"; "A"; "A"]%string.
Proof.
  apply (log_likelihood_homozygous triploid_model "s"%string ["A"; "A"; "A"]%string).
  - discriminate.
  - reflexivity.
Defined.

(** X8: for a heterozygous diploid genotype whose two haplotypes have a
    likelihood for every read, the diploid fast path of [log_likelihood]
    computes the general formula [sum_r ln ((P(r|h0) + P(r|h1)) / 2)]. *)
Theorem log_likelihood_diploid_general likelihoods sample h0 h1 :
  h0 <> h1 ->
  List.length (likelihoods sample h0) = List.length (likelihoods sample h1) ->
  log_likelihood (make_model 2 likelihoods) sample [h0; h1]
  = general_log_likelihood likelihoods sample [h0; h1].
Proof.
  intros Hne Hlen. unfold log_likelihood. cbn [make_model ploidy_].
  unfold log_likelihood_diploid, is_homozygous.
  cbn [forallb at_ nth]. rewrite String.eqb_refl.
  apply String.eqb_neq in Hne. rewrite String.eqb_sym, Hne. cbn [andb].
  cbn [make_model haplotype_likelihoods_ ln_ploidy_].
  rewrite inner_product_seq by assumption.
  unfold general_log_likelihood. cbn [at_ nth].
  apply fold_right_seq_ext. intros i _.
  unfold read_probability. cbn [fold_right List.length].
  rewrite log_sum_exp2_ln, Rplus_0_r.
  unfold to_double. change (N.to_nat 2) with 2%nat.
  pose proof (exp_pos (nth i (likelihoods sample h0) 0)).
  pose proof (exp_pos (nth i (likelihoods sample h1) 0)).
  assert (H2 : 0 < INR 2) by (simpl; lra).
  unfold Rdiv.
  rewrite ln_mult; [rewrite ln_Rinv by assumption; lra | lra
                   | apply Rinv_0_lt_compat; assumption].
Qed.

Lemma log_likelihood_diploid_general_witness :
  log_likelihood (make_model 2 one_read_likelihoods) "s"%string ["A"; "G"]%string
  = general_log_likelihood one_read_likelihoods "s"%string ["A"; "G"]%string.
Proof.
  apply (log_likelihood_diploid_general one_read_likelihoods "s"%string "A"%string "G"%string).
  - discriminate.
  - reflexivity.
Defined.

(** X9: the triploid path of [log_likelihood] reads the likelihoods of the
    first two haplotypes of the genotype only: two caches that agree on
    them give the same result, whatever they hold for the third
    haplotype. *)
Theorem log_likelihood_triploid_two_haplotypes likelihoods likelihoods' sample genotype :
  likelihoods sample (at_ genotype 0) = likelihoods' sample (at_ genotype 0) ->
  likelihoods sample (at_ genotype 1) = likelihoods' sample (at_ genotype 1) ->
  log_likelihood (make_model 3 likelihoods) sample genotype
  = log_likelihood (make_model 3 likelihoods') sample genotype.
Proof.
  intros E0 E1. unfold log_likelihood, log_likelihood_triploid.
  cbn [make_model ploidy_ haplotype_likelihoods_ ln_ploidy_].
  rewrite E0, E1. reflexivity.
Qed.

Lemma log_likelihood_triploid_two_haplotypes_witness :
  log_likelihood (make_model 3 one_read_likelihoods) "s"%string triallelic_genotype
  = log_likelihood (make_model 3 (fun _ _ => [0])) "s"%string triallelic_genotype.
Proof.
  apply (log_likelihood_triploid_two_haplotypes one_read_likelihoods (fun _ _ => [0])
           "s"%string triallelic_genotype); reflexivity.
Defined.

Lemma fold_right_seq_lt (F G : nat -> R) n : forall s,
  (0 < n)%nat ->
  (forall i, (s <= i < s + n)%nat -> F i < G i) ->
  fold_right (fun i acc => F i + acc) 0 (seq s n)
  < fold_right (fun i acc => G i + acc) 0 (seq s n).
Proof.
  induction n as [|n IH]; intros s Hn H; [lia|].
  cbn [seq fold_right]. pose proof (H s ltac:(lia)) as H0.
  destruct n as [|n]; [simpl; lra|].
  pose proof (IH (S s) ltac:(lia) ltac:(intros i Hi; apply H; lia)). lra.
Qed.

Lemma exp_double_lt x : x <= 0 -> exp (2 * x) < exp x + exp x.
Proof.
  intros Hx. replace (2 * x) with (x + x) by lra. rewrite exp_plus.
  pose proof (exp_pos x) as Hp.
  assert (Hle : exp x <= 1).
  { destruct Hx as [Hlt | ->]; [|rewrite exp_0; lra].
    left. rewrite <- exp_0. apply exp_increasing. assumption. }
  nra.
Qed.

Lemma nth_nonpositive l i : Forall (fun x => x <= 0) l -> nth i l 0 <= 0.
Proof.
  intros H. destruct (Nat.lt_ge_cases i (List.length l)) as [Hi|Hi].
  - rewrite Forall_forall in H. apply H, nth_In, Hi.
  - rewrite nth_overflow by assumption. lra.
Qed.

(** X10: on a triploid genotype with two distinct haplotypes, one of them
    twice, the 2-1 fast path doubles a log-likelihood where the formula
    doubles a likelihood: it computes [ln ((P(r|g0)^x + P(r|g1)^y) / 3)]
    with [(x, y) = (1, 2)] or [(2, 1)].  For the genotypes [a, b, a] and
    [a, b, b], reads with likelihoods that are probabilities and at least
    one read, the result is strictly below the value of the general
    formula. *)
Theorem log_likelihood_triploid_two_one_below likelihoods sample a b g2 :
  a <> b -> g2 = a \/ g2 = b ->
  List.length (likelihoods sample a) = List.length (likelihoods sample b) ->
  likelihoods sample a <> [] ->
  Forall (fun x => x <= 0) (likelihoods sample a) ->
  Forall (fun x => x <= 0) (likelihoods sample b) ->
  log_likelihood (make_model 3 likelihoods) sample [a; b; g2]
  < general_log_likelihood likelihoods sample [a; b; g2].
Proof.
  intros Hne Hg2 Hlen Hreads Ha Hb.
  assert (Hab : String.eqb b a = false) by (apply String.eqb_neq; congruence).
  assert (Hn : (0 < List.length (likelihoods sample a))%nat).
  { destruct (likelihoods sample a); [congruence | simpl; lia]. }
  assert (H3 : ln (to_double 3) = ln 3).
  { unfold to_double. f_equal. simpl. lra. }
  unfold log_likelihood. cbn [make_model ploidy_].
  unfold log_likelihood_triploid, is_homozygous, zygosity, count.
  cbn [forallb at_ nth make_model haplotype_likelihoods_ ln_ploidy_].
  rewrite String.eqb_refl, Hab. cbn [andb].
  unfold general_log_likelihood. cbn [at_ nth]. rewrite H3.
  assert (Hread : forall x y z,
             0 < x -> 0 < y -> 0 < z -> y < z ->
             ln (x + y) - ln 3 < ln ((x + z) / 3)).
  { intros x y z Hx Hy Hz Hyz. unfold Rdiv.
    rewrite ln_mult, ln_Rinv by lra.
    apply Rplus_lt_compat_r. apply ln_increasing; lra. }
  destruct Hg2 as [-> | ->].
  - (* [a; b; a] *)
    cbn [nodup count_occ]. 
    destruct (in_dec string_dec a [b; a]) as [_|Hn']; [|exfalso; apply Hn'; simpl; auto].
    destruct (in_dec string_dec b [a]) as [[E|[]]|_]; [congruence|].
    destruct (in_dec string_dec a []) as [[]|_].
    destruct (string_dec a a) as [_|Hn']; [|congruence].
    destruct (string_dec b a) as [E|_]; [congruence|].
    cbn [List.length Nat.eqb].
    rewrite inner_product_seq by assumption.
    apply fold_right_seq_lt; [assumption|]. intros i _.
    rewrite log_sum_exp2_ln. unfold read_probability. cbn [fold_right List.length].
    pose proof (exp_double_lt _ (nth_nonpositive _ i Ha)) as Hd.
    pose proof (exp_pos (nth i (likelihoods sample a) 0)).
    pose proof (exp_pos (nth i (likelihoods sample b) 0)).
    pose proof (exp_pos (2 * nth i (likelihoods sample a) 0)).
    replace (INR 3) with 3 by (simpl; lra).
    replace (exp (2 * nth i (likelihoods sample a) 0) + exp (nth i (likelihoods sample b) 0))
      with (exp (nth i (likelihoods sample b) 0) + exp (2 * nth i (likelihoods sample a) 0))
      by lra.
    replace (exp (nth i (likelihoods sample a) 0)
             + (exp (nth i (likelihoods sample b) 0)
                + (exp (nth i (likelihoods sample a) 0) + 0)))
      with (exp (nth i (likelihoods sample b) 0)
            + (exp (nth i (likelihoods sample a) 0) + exp (nth i (likelihoods sample a) 0)))
      by lra.
    apply Hread; lra.
  - (* [a; b; b] *)
    cbn [nodup count_occ].
    destruct (in_dec string_dec a [b; b]) as [[E|[E|[]]]|_]; try congruence.
    destruct (in_dec string_dec b [b]) as [_|Hn']; [|exfalso; apply Hn'; simpl; auto].
    destruct (in_dec string_dec b []) as [[]|_].
    destruct (string_dec a a) as [_|Hn']; [|congruence].
    destruct (string_dec b a) as [E|_]; [congruence|].
    cbn [List.length Nat.eqb].
    rewrite inner_product_seq by assumption.
    apply fold_right_seq_lt; [assumption|]. intros i _.
    rewrite log_sum_exp2_ln. unfold read_probability. cbn [fold_right List.length].
    pose proof (exp_double_lt _ (nth_nonpositive _ i Hb)) as Hd.
    pose proof (exp_pos (nth i (likelihoods sample a) 0)).
    pose proof (exp_pos (nth i (likelihoods sample b) 0)).
    pose proof (exp_pos (2 * nth i (likelihoods sample b) 0)).
    replace (INR 3) with 3 by (simpl; lra).
    replace (exp (nth i (likelihoods sample a) 0)
             + (exp (nth i (likelihoods sample b) 0)
                + (exp (nth i (likelihoods sample b) 0) + 0)))
      with (exp (nth i (likelihoods sample a) 0)
            + (exp (nth i (likelihoods sample b) 0) + exp (nth i (likelihoods sample b) 0)))
      by lra.
    apply Hread; lra.
Qed.

Lemma log_likelihood_triploid_two_one_below_witness :
  log_likelihood (make_model 3 (fun _ _ => [0])) "s"%string ["A"; "C"; "C"]%string
  < general_log_likelihood (fun _ _ => [0]) "s"%string ["A"; "C"; "C"]%string.
Proof.
  apply (log_likelihood_triploid_two_one_below (fun _ _ => [0]) "s"%string
           "A"%string "C"%string "C"%string).
  - discriminate.
  - right. reflexivity.
  - reflexivity.
  - discriminate.
  - apply Forall_cons; [lra | apply Forall_nil].
  - apply Forall_cons; [lra | apply Forall_nil].
Defined.

Lemma fold_right_map_exp (likelihoods : Haplotype -> list R) i : forall genotype,
  fold_right (fun x s => exp x + s) 0
    (map (fun haplotype_likelihoods => nth i haplotype_likelihoods 0)
       (map likelihoods genotype))
  = fold_right (fun h acc => exp (nth i (likelihoods h) 0) + acc) 0 genotype.
Proof.
  induction genotype as [|h genotype IH]; [reflexivity|].
  cbn [map fold_right]. rewrite IH. reflexivity.
Qed.

(** X11: for a heterozygous genotype of ploidy 4 or more whose haplotypes
    all have a likelihood for every read, with as many haplotypes as the
    model's ploidy, the polyploid path of [log_likelihood] computes the
    general formula [sum_r ln (sum_h P(r|h) / ploidy)]. *)
Theorem log_likelihood_polyploid_general likelihoods sample ploidy genotype :
  (4 <= ploidy)%N -> N.to_nat ploidy = List.length genotype ->
  is_homozygous genotype = false ->
  (forall h, In h genotype ->
             List.length (likelihoods sample h)
             = List.length (likelihoods sample (at_ genotype 0))) ->
  log_likelihood (make_model ploidy likelihoods) sample genotype
  = general_log_likelihood likelihoods sample genotype.
Proof.
  intros Hp Hlen Hhet Hreads.
  assert (E : log_likelihood (make_model ploidy likelihoods) sample genotype
              = log_likelihood_polyploid (make_model ploidy likelihoods) sample genotype).
  { unfold log_likelihood. cbn [make_model ploidy_].
    destruct ploidy as [|[[p|p|]|[p|p|]|]]; try lia; reflexivity. }
  rewrite E. unfold log_likelihood_polyploid. rewrite Hhet. cbv zeta.
  cbn [make_model haplotype_likelihoods_ ln_ploidy_].
  assert (Hne : genotype <> []) by (destruct genotype; [simpl in Hlen; lia | discriminate]).
  assert (Ehd : hd [] (map (likelihoods sample) genotype)
                = likelihoods sample (at_ genotype 0))
    by (destruct genotype; [congruence | reflexivity]).
  rewrite Ehd, fold_left_seq_sum, Rplus_0_l.
  unfold general_log_likelihood.
  apply fold_right_seq_ext. intros i _.
  assert (Hmap : map (fun haplotype_likelihoods : list R => nth i haplotype_likelihoods 0)
                   (map (likelihoods sample) genotype) <> [])
    by (destruct genotype; [congruence | discriminate]).
  pose proof (sum_exp_pos _ Hmap) as Hpos.
  rewrite log_sum_exp_ln by assumption.
  rewrite fold_right_map_exp in *.
  unfold read_probability, to_double. rewrite Hlen.
  assert (Hn : 0 < INR (List.length genotype)).
  { apply lt_0_INR. destruct genotype; [congruence | simpl; lia]. }
  unfold Rdiv.
  rewrite ln_mult; [rewrite ln_Rinv by assumption; lra | assumption
                   | apply Rinv_0_lt_compat; assumption].
Qed.

Lemma log_likelihood_polyploid_general_witness :
  log_likelihood (make_model 4 one_read_likelihoods) "s"%string ["A"; "C"; "G"; "G"]%string
  = general_log_likelihood one_read_likelihoods "s"%string ["A"; "C"; "G"; "G"]%string.
Proof.
  apply (log_likelihood_polyploid_general one_read_likelihoods "s"%string 4
           ["A"; "C"; "G"; "G"]%string).
  - lia.
  - reflexivity.
  - reflexivity.
  - intros h [<-|[<-|[<-|[<-|[]]]]]; reflexivity.
Defined.

End GenotypeLikelihood.

(** ** core/models/genotype/tumour_model.cpp *)

Module Tumour.

Import Std Maths.

Definition SampleName : Type := string.

Definition Haplotype : Type := string.

Definition Genotype : Type := list Haplotype.

(** Modelled from the spec: [CancerGenotype<Haplotype>] (cancer_genotype.hpp
    is not part of the sources), the pair of a germline and a somatic
    genotype of section 3. *)
Record CancerGenotype : Type :=
  { germline : Genotype;
    somatic : Genotype }.

Definition somatic_ploidy (g : CancerGenotype) : nat := List.length (somatic g).

(** Modelled from the spec: [CancerGenotype::ploidy]; section 3 sets
    [ploidy = germline.ploidy]. *)
Definition ploidy (g : CancerGenotype) : nat := List.length (germline g).

(** The other reading of [ploidy()], which [flatten<K>] suggests when it
    copies the germline and the somatic haplotypes into [K] slots: the
    number of haplotypes of both parts. *)
Definition total_ploidy (g : CancerGenotype) : nat :=
  (List.length (germline g) + somatic_ploidy g)%nat.

(** Modelled from the spec: [demote], the germline and somatic haplotypes
    as one flat genotype. *)
Definition demote (g : CancerGenotype) : Genotype := germline g ++ somatic g.

Definition LogProbabilityVector : Type := list R.

Record AlgorithmParameters : Type :=
  { epsilon : R;
    max_iterations : nat;
    max_seeds : nat }.

Record VariationalBayesParameters : Type :=
  { vb_epsilon : R;
    vb_max_iterations : nat }.

Inductive Error : Type :=
| UnimplementedFeatureError (feature where_ : string).

(** Modelled from the spec: [maths::normalise_logs] (utils/maths.hpp is not
    part of the sources) turns log-weights into a normalised
    log-distribution by subtracting their log-sum-exp. *)
Definition normalise_logs (logs : LogProbabilityVector) : LogProbabilityVector :=
  let norm := log_sum_exp logs in
  map (fun x => x - norm) logs.

(** Modelled from the spec: [maths::dirichlet_expectation(i, alphas)], the
    mean of component [i] of a Dirichlet distribution. *)
Definition dirichlet_expectation (i : nat) (alphas : list R) : R :=
  nth i alphas 0 / fold_right Rplus 0 alphas.

(** The default of the parameter [p] of [make_point_seed]. *)
Definition point_mass : R := 0.9999.

Definition make_point_seed (num_genotypes n : nat) (p : R) : LogProbabilityVector :=
  let result :=
    repeat (if (1 <? num_genotypes)%nat
            then ln ((1 - p) / INR (num_genotypes - 1)) else 0)
      num_genotypes in
  if (1 <? num_genotypes)%nat then update_at n (fun _ => ln p) result else result.

Definition generate_exhaustive_seeds (n : nat) : list LogProbabilityVector :=
  map (fun i => make_point_seed n i point_mass) (seq 0 n).

Definition num_weighted_seeds (samples : list SampleName) (genotypes : list CancerGenotype)
  : nat :=
  1 + 4 * List.length samples + 2 * (if (1 <? List.length samples)%nat then 1 else 0).

(** [std::transform(other.begin, other.end, result.cbegin, result.begin, +)] *)
Definition add_to (other result : LogProbabilityVector) : LogProbabilityVector :=
  map (fun ab => fst ab + snd ab) (combine other result)
  ++ skipn (List.length other) result.

Definition compute_log_posteriors (log_priors log_likelihoods : LogProbabilityVector)
  : LogProbabilityVector :=
  normalise_logs (map (fun pl => fst pl + snd pl) (combine log_priors log_likelihoods)).

(** [make_range_seed(num_genotypes, begin, n, p)] *)
Definition make_range_seed (num_genotypes begin n : nat) (p : R) : LogProbabilityVector :=
  fill_n begin n (ln (p / INR n))
    (repeat (ln ((1 - p) / INR (num_genotypes - n))) num_genotypes).

Definition genotype_eqb (a b : Genotype) : bool :=
  if list_eq_dec string_dec a b then true else false.

(** [make_range_seed(genotypes, germline, p)]: the seed of the first run
    of cancer genotypes with the germline genotype [germline].  The source
    does not hand [p] on, so the inner call runs with its default.  When no
    cancer genotype has the germline genotype, the source advances the end
    iterator; the model gives [None]. *)
Definition make_range_seed_of (genotypes : list CancerGenotype) (germline_ : Genotype) (p : R)
  : option LogProbabilityVector :=
  let same := fun g => genotype_eqb (germline g) germline_ in
  let itr1 := find_if same genotypes in
  if (itr1 <? List.length genotypes)%nat then
    let itr2 := (S itr1 + find_if_not same (skipn (S itr1) genotypes))%nat in
    Some (make_range_seed (List.length genotypes) itr1 (itr2 - itr1) point_mass)
  else None.

(** A distribution in log space sums to one, and has its mode at [i]. *)
Definition is_normalised (seed : LogProbabilityVector) : Prop :=
  fold_right (fun x acc => exp x + acc) 0 seed = 1.

Definition concentrated_on (i : nat) (seed : LogProbabilityVector) : Prop :=
  forall j, (j < List.length seed)%nat -> j <> i -> nth j seed 0 < nth i seed 0.

Section Model.

(** The collaborators whose code is not part of the sources: the
    likelihood cache, the genotype prior model, the germline likelihood
    model and the variational Bayes mixture model. *)
Variable HaplotypeLikelihoodCache : Type.
Variable GenotypePriorModel : Type.
Variable InferredLatents : Type.

(** [GermlineLikelihoodModel {cache}.evaluate(genotype)] after
    [cache.prime(sample)]. *)
Variable likelihood_model_evaluate :
  HaplotypeLikelihoodCache -> SampleName -> Genotype -> R.

Variable calculate_log_priors :
  list CancerGenotype -> GenotypePriorModel -> LogProbabilityVector.

Record Priors : Type :=
  { genotype_prior_model : GenotypePriorModel;
    alphas : SampleName -> list R }.

(** The seeds that the second half of [generate_targetted_seeds] pushes
    onto [result]: the range seeds of the top-likelihood germline block
    and the point seeds of its somatic tail. *)
Variable germline_block_seeds :
  list CancerGenotype -> LogProbabilityVector -> Priors -> nat -> list LogProbabilityVector.

(** [CancerGenotype::ploidy], the value the dispatch switches on. *)
Variable ploidy_of : CancerGenotype -> nat.

(** The template [run_variational_bayes<K>]: flatten, run the mixture
    model from every seed, expand. *)
Variable run_variational_bayes_K :
  nat -> list SampleName -> list CancerGenotype -> (SampleName -> list R) ->
  LogProbabilityVector -> HaplotypeLikelihoodCache -> VariationalBayesParameters ->
  list LogProbabilityVector -> InferredLatents.

Record TumourModel : Type :=
  { samples_ : list SampleName;
    priors_ : Priors;
    parameters_ : AlgorithmParameters }.

Definition compute_germline_log_likelihoods
  (sample : SampleName) (genotypes : list CancerGenotype)
  (haplotype_log_likelihoods : HaplotypeLikelihoodCache) : LogProbabilityVector :=
  map (fun genotype =>
         likelihood_model_evaluate haplotype_log_likelihoods sample (germline genotype))
    genotypes.

Definition compute_demoted_log_likelihoods
  (sample : SampleName) (genotypes : list CancerGenotype)
  (haplotype_log_likelihoods : HaplotypeLikelihoodCache) : LogProbabilityVector :=
  map (fun genotype =>
         likelihood_model_evaluate haplotype_log_likelihoods sample (demote genotype))
    genotypes.

Definition is_somatic_expected (sample : SampleName) (priors : Priors) : bool :=
  let a := alphas priors sample in
  let e := dirichlet_expectation (List.length a - 1) a in
  if Rlt_dec 0.05 e then true else false.

(** One turn of the loop over the samples in [generate_weighted_seeds];
    the state is [(result, combined_log_likelihoods)]. *)
Definition weighted_seeds_of_sample
  (genotypes : list CancerGenotype) (genotype_log_priors : LogProbabilityVector)
  (haplotype_log_likelihoods : HaplotypeLikelihoodCache) (priors : Priors)
  (state : list LogProbabilityVector * LogProbabilityVector) (sample : SampleName)
  : list LogProbabilityVector * LogProbabilityVector :=
  let log_likelihoods :=
    compute_germline_log_likelihoods sample genotypes haplotype_log_likelihoods in
  let demoted_log_likelihoods :=
    compute_demoted_log_likelihoods sample genotypes haplotype_log_likelihoods in
  let combined_log_likelihoods :=
    if is_somatic_expected sample priors
    then add_to demoted_log_likelihoods (snd state)
    else add_to log_likelihoods (snd state) in
  (fst state
   ++ [ compute_log_posteriors genotype_log_priors log_likelihoods;
        normalise_logs log_likelihoods;
        compute_log_posteriors genotype_log_priors demoted_log_likelihoods;
        normalise_logs demoted_log_likelihoods ],
   combined_log_likelihoods).

Definition generate_weighted_seeds
  (samples : list SampleName) (genotypes : list CancerGenotype)
  (genotype_log_priors : LogProbabilityVector)
  (haplotype_log_likelihoods : HaplotypeLikelihoodCache) (priors : Priors)
  : list LogProbabilityVector :=
  let state :=
    fold_left
      (weighted_seeds_of_sample genotypes genotype_log_priors haplotype_log_likelihoods priors)
      samples
      ([normalise_logs genotype_log_priors], repeat 0 (List.length genotypes)) in
  if (1 <? List.length samples)%nat then
    fst state
    ++ [ normalise_logs (add_to genotype_log_priors (snd state));
         normalise_logs (snd state) ]
  else fst state.

(** The weighted seed set as the claim describes it.  The four seeds of a
    sample: the posterior from its germline likelihoods, these likelihoods
    normalised, the posterior from its demoted likelihoods, and these
    normalised. *)
Definition sample_seeds
  (genotypes : list CancerGenotype) (genotype_log_priors : LogProbabilityVector)
  (haplotype_log_likelihoods : HaplotypeLikelihoodCache) (sample : SampleName)
  : list LogProbabilityVector :=
  let log_likelihoods :=
    compute_germline_log_likelihoods sample genotypes haplotype_log_likelihoods in
  let demoted_log_likelihoods :=
    compute_demoted_log_likelihoods sample genotypes haplotype_log_likelihoods in
  [ compute_log_posteriors genotype_log_priors log_likelihoods;
    normalise_logs log_likelihoods;
    compute_log_posteriors genotype_log_priors demoted_log_likelihoods;
    normalise_logs demoted_log_likelihoods ].

(** The log-likelihood of a genotype summed over the samples: the demoted
    one for a sample in which a somatic haplotype is expected, the
    germline one for the others. *)
Definition combined_log_likelihood
  (samples : list SampleName) (haplotype_log_likelihoods : HaplotypeLikelihoodCache)
  (priors : Priors) (genotype : CancerGenotype) : R :=
  fold_left
    (fun sum sample =>
       likelihood_model_evaluate haplotype_log_likelihoods sample
         (if is_somatic_expected sample priors then demote genotype else germline genotype)
       + sum)
    samples 0.

(** The prior seed, the four seeds of every sample, and for more than one
    sample the two combined seeds: the combined likelihoods with the
    priors added, and without them, both normalised. *)
Definition weighted_seed_set
  (samples : list SampleName) (genotypes : list CancerGenotype)
  (genotype_log_priors : LogProbabilityVector)
  (haplotype_log_likelihoods : HaplotypeLikelihoodCache) (priors : Priors)
  : list LogProbabilityVector :=
  let combined :=
    map (combined_log_likelihood samples haplotype_log_likelihoods priors) genotypes in
  [normalise_logs genotype_log_priors]
  ++ concat (map (sample_seeds genotypes genotype_log_priors haplotype_log_likelihoods)
               samples)
  ++ (if (1 <? List.length samples)%nat
      then [ normalise_logs (add_to genotype_log_priors combined);
             normalise_logs combined ]
      else []).

Definition generate_targetted_seeds
  (genotypes : list CancerGenotype) (approx_log_likelihoods : LogProbabilityVector)
  (priors : Priors) (n : nat) (result : list LogProbabilityVector)
  : list LogProbabilityVector :=
  if (n =? 0)%nat then result
  else
    let result :=
      if (List.length genotypes <=? n)%nat
      then result
           ++ map (fun i => make_point_seed (List.length genotypes) i point_mass)
                (seq 0 (List.length genotypes))
      else result in
    result ++ germline_block_seeds genotypes approx_log_likelihoods priors n.

Definition generate_seeds
  (samples : list SampleName) (genotypes : list CancerGenotype)
  (genotype_log_priors : LogProbabilityVector)
  (haplotype_log_likelihoods : HaplotypeLikelihoodCache) (priors : Priors)
  (max_seeds : nat) : list LogProbabilityVector :=
  if (List.length genotypes
      <=? Nat.min max_seeds (num_weighted_seeds samples genotypes))%nat
  then generate_exhaustive_seeds (List.length genotypes)
  else
    let result :=
      generate_weighted_seeds samples genotypes genotype_log_priors
        haplotype_log_likelihoods priors in
    if (List.length result <? max_seeds)%nat
    then generate_targetted_seeds genotypes (last result []) priors
           (max_seeds - List.length result) result
    else result.

(** [genotypes.front()]; the callers assert that [genotypes] is not empty. *)
Definition front (genotypes : list CancerGenotype) : CancerGenotype :=
  hd {| germline := []; somatic := [] |} genotypes.

Definition run_variational_bayes_helper
  (samples : list SampleName) (genotypes : list CancerGenotype)
  (prior_alphas : SampleName -> list R) (genotype_log_priors : LogProbabilityVector)
  (haplotype_log_likelihoods : HaplotypeLikelihoodCache) (params : AlgorithmParameters)
  (seeds : list LogProbabilityVector) : Error + InferredLatents :=
  let vb_params :=
    {| vb_epsilon := epsilon params; vb_max_iterations := max_iterations params |} in
  let run K :=
    inr (run_variational_bayes_K K samples genotypes prior_alphas genotype_log_priors
           haplotype_log_likelihoods vb_params seeds) in
  match ploidy_of (front genotypes) with
  | 2 => run 2%nat
  | 3 => run 3%nat
  | 4 => run 4%nat
  | 5 => run 5%nat
  | 6 => run 6%nat
  | 7 => run 7%nat
  | 8 => run 8%nat
  | _ => inl (UnimplementedFeatureError "tumour model ploidies above 8" "TumourModel")
  end.

(** The main entry point. *)
Definition run_variational_bayes
  (samples : list SampleName) (genotypes : list CancerGenotype) (priors : Priors)
  (haplotype_log_likelihoods : HaplotypeLikelihoodCache) (params : AlgorithmParameters)
  : Error + InferredLatents :=
  let genotype_log_priors := calculate_log_priors genotypes (genotype_prior_model priors) in
  let seeds :=
    generate_seeds samples genotypes genotype_log_priors haplotype_log_likelihoods priors
      (max_seeds params) in
  run_variational_bayes_helper samples genotypes (alphas priors) genotype_log_priors
    haplotype_log_likelihoods params seeds.

Definition evaluate
  (m : TumourModel) (genotypes : list CancerGenotype)
  (haplotype_likelihoods : HaplotypeLikelihoodCache) : Error + InferredLatents :=
  run_variational_bayes (samples_ m) genotypes (priors_ m) haplotype_likelihoods
    (parameters_ m).

(** *** Point seeds *)

Lemma sum_exp_repeat x n :
  fold_right (fun x acc => exp x + acc) 0 (repeat x n) = INR n * exp x.
Proof.
  induction n as [|n IH]; [simpl; lra|].
  rewrite S_INR. cbn [repeat fold_right]. rewrite IH. lra.
Qed.

Lemma sum_exp_update y : forall l i,
  (i < List.length l)%nat ->
  fold_right (fun x acc => exp x + acc) 0 (update_at i (fun _ => y) l)
  = fold_right (fun x acc => exp x + acc) 0 l - exp (nth i l 0) + exp y.
Proof.
  induction l as [|x l IH]; intros i Hi; [simpl in Hi; lia|].
  destruct i as [|i]; simpl; [lra|].
  rewrite IH by (simpl in Hi; lia). lra.
Qed.

Lemma length_update_at {A} (f : A -> A) : forall l i,
  List.length (update_at i f l) = List.length l.
Proof.
  induction l as [|x l IH]; intros [|i]; simpl; try reflexivity.
  rewrite IH. reflexivity.
Qed.

Lemma make_point_seed_length num_genotypes n p :
  List.length (make_point_seed num_genotypes n p) = num_genotypes.
Proof.
  unfold make_point_seed. cbv zeta.
  destruct (1 <? num_genotypes)%nat; rewrite ?length_update_at; apply List.repeat_length.
Qed.

Lemma make_point_seed_normalised num_genotypes n p :
  (n < num_genotypes)%nat -> 0 < p < 1 ->
  is_normalised (make_point_seed num_genotypes n p).
Proof.
  intros Hn Hp. unfold is_normalised, make_point_seed. cbv zeta.
  destruct (Nat.ltb_spec 1 num_genotypes) as [H1|H1].
  - rewrite sum_exp_update by (rewrite List.repeat_length; assumption).
    rewrite sum_exp_repeat, nth_repeat_lt by assumption.
    assert (Hk : 0 < INR (num_genotypes - 1)) by (apply lt_0_INR; lia).
    rewrite !exp_ln by (try apply Rdiv_lt_0_compat; lra).
    replace (INR num_genotypes) with (INR (num_genotypes - 1) + 1)
      by (rewrite minus_INR by lia; simpl; lra).
    field. lra.
  - replace num_genotypes with 1%nat by lia. simpl. rewrite exp_0. lra.
Qed.

Lemma make_point_seed_concentrated num_genotypes n p :
  (n < num_genotypes)%nat -> 1 / 2 < p < 1 ->
  concentrated_on n (make_point_seed num_genotypes n p).
Proof.
  intros Hn Hp j Hj Hne. rewrite make_point_seed_length in Hj.
  unfold make_point_seed. cbv zeta.
  destruct (Nat.ltb_spec 1 num_genotypes) as [H1|H1]; [|lia].
  rewrite !nth_update_at, !List.repeat_length.
  destruct (Nat.eqb_spec n j) as [E|_]; [congruence|].
  rewrite Nat.eqb_refl. cbn [andb].
  destruct (Nat.ltb_spec n num_genotypes) as [_|]; [|lia].
  rewrite nth_repeat_lt by assumption.
  assert (Hk : 1 <= INR (num_genotypes - 1)) by (apply (le_INR 1); lia).
  apply ln_increasing.
  - apply Rdiv_lt_0_compat; lra.
  - apply Rle_lt_trans with (1 - p); [|lra].
    apply (Rmult_le_reg_r (INR (num_genotypes - 1))); [lra|].
    unfold Rdiv. rewrite Rmult_assoc, Rinv_l by lra. nra.
Qed.

Lemma generate_exhaustive_seeds_length n :
  List.length (generate_exhaustive_seeds n) = n.
Proof. unfold generate_exhaustive_seeds. rewrite length_map, length_seq. reflexivity. Qed.

Lemma generate_exhaustive_seeds_nth n i :
  (i < n)%nat -> nth i (generate_exhaustive_seeds n) [] = make_point_seed n i point_mass.
Proof.
  intros Hi. unfold generate_exhaustive_seeds.
  rewrite (nth_indep _ [] (make_point_seed n 0 point_mass))
    by (rewrite length_map, length_seq; assumption).
  rewrite (map_nth (fun i => make_point_seed n i point_mass)), seq_nth by assumption.
  reflexivity.
Qed.

(** *** Weighted seeds *)

Lemma weighted_seeds_fold_length genotypes log_priors cache priors samples : forall state,
  List.length
    (fst (fold_left (weighted_seeds_of_sample genotypes log_priors cache priors)
            samples state))
  = (List.length (fst state) + 4 * List.length samples)%nat.
Proof.
  induction samples as [|s samples IH]; intros state; [simpl; lia|].
  cbn [fold_left]. rewrite IH. unfold weighted_seeds_of_sample. cbn [fst].
  rewrite length_app. simpl. lia.
Qed.

Lemma generate_weighted_seeds_length samples genotypes log_priors cache priors :
  List.length (generate_weighted_seeds samples genotypes log_priors cache priors)
  = num_weighted_seeds samples genotypes.
Proof.
  unfold generate_weighted_seeds, num_weighted_seeds. cbv zeta.
  destruct (1 <? List.length samples)%nat;
    rewrite ?length_app, weighted_seeds_fold_length; simpl; lia.
Qed.

Lemma add_to_map {A : Type} (f g : A -> R) : forall l,
  add_to (map f l) (map g l) = map (fun x => f x + g x) l.
Proof.
  intros l. unfold add_to. rewrite length_map.
  replace (skipn (List.length l) (map g l)) with (@nil R)
    by (symmetry; apply skipn_all2; rewrite length_map; lia).
  rewrite app_nil_r.
  induction l as [|x l IH]; [reflexivity|].
  cbn [map combine fst snd]. rewrite IH. reflexivity.
Qed.

Lemma weighted_seeds_fold genotypes log_priors cache priors :
  forall samples result (sum : CancerGenotype -> R),
    fold_left (weighted_seeds_of_sample genotypes log_priors cache priors) samples
      (result, map sum genotypes)
    = (result ++ concat (map (sample_seeds genotypes log_priors cache) samples),
       map (fun genotype =>
              fold_left
                (fun sum sample =>
                   likelihood_model_evaluate cache sample
                     (if is_somatic_expected sample priors
                      then demote genotype else germline genotype)
                   + sum)
                samples (sum genotype))
         genotypes).
Proof.
  induction samples as [|sample samples IH]; intros result sum.
  - cbn [fold_left map concat]. rewrite app_nil_r. reflexivity.
  - cbn [fold_left map concat]. unfold weighted_seeds_of_sample at 2. cbn [fst snd].
    assert (E : (if is_somatic_expected sample priors
                 then add_to (compute_demoted_log_likelihoods sample genotypes cache)
                        (map sum genotypes)
                 else add_to (compute_germline_log_likelihoods sample genotypes cache)
                        (map sum genotypes))
                = map (fun genotype =>
                         likelihood_model_evaluate cache sample
                           (if is_somatic_expected sample priors
                            then demote genotype else germline genotype)
                         + sum genotype)
                    genotypes).
    { unfold compute_demoted_log_likelihoods, compute_germline_log_likelihoods.
      destruct (is_somatic_expected sample priors); apply add_to_map. }
    cbv zeta. rewrite E, IH. rewrite <- app_assoc. reflexivity.
Qed.

Lemma generate_weighted_seeds_set samples genotypes log_priors cache priors :
  generate_weighted_seeds samples genotypes log_priors cache priors
  = weighted_seed_set samples genotypes log_priors cache priors.
Proof.
  unfold generate_weighted_seeds, weighted_seed_set, combined_log_likelihood. cbv zeta.
  replace (repeat 0 (List.length genotypes))
    with (map (fun _ : CancerGenotype => 0) genotypes).
  - rewrite weighted_seeds_fold. cbn [fst snd].
    destruct (1 <? List.length samples)%nat.
    + rewrite <- app_assoc. reflexivity.
    + rewrite app_nil_r. reflexivity.
  - induction genotypes as [|g genotypes IH]; [reflexivity|].
    cbn [map List.length repeat]. rewrite IH. reflexivity.
Qed.

(** C6: when [|G| <= min(max_seeds, base_seed_count)], with
    [base_seed_count = 1 + 4|S| + 2[|S| > 1]], [generate_seeds] returns the
    exhaustive set, [|G|] seeds of which the i-th is the point seed of
    genotype [i], a normalised log-distribution with its mode at [i];
    otherwise it returns the weighted seed set, which is the prior seed,
    the four seeds of every sample and, for more than one sample, the two
    combined seeds, [base_seed_count] seeds in all: as they are when
    [max_seeds <= base_seed_count], and followed by the targeted seeds for
    the [max_seeds - base_seed_count] free places when there are fewer
    than [max_seeds] (a point seed per genotype when the free places are
    as many as the genotypes, then the seeds of the top germline block). *)
Theorem generate_seeds_exhaustive_or_weighted
  samples genotypes genotype_log_priors cache priors max_seeds :
  let base_seed_count :=
    (1 + 4 * List.length samples
     + 2 * (if (1 <? List.length samples)%nat then 1 else 0))%nat in
  let seeds := generate_seeds samples genotypes genotype_log_priors cache priors max_seeds in
  let weighted := weighted_seed_set samples genotypes genotype_log_priors cache priors in
  ((List.length genotypes <= Nat.min max_seeds base_seed_count)%nat ->
   seeds = generate_exhaustive_seeds (List.length genotypes)
   /\ List.length seeds = List.length genotypes
   /\ forall i, (i < List.length genotypes)%nat ->
        nth i seeds [] = make_point_seed (List.length genotypes) i point_mass
        /\ List.length (nth i seeds []) = List.length genotypes
        /\ is_normalised (nth i seeds [])
        /\ concentrated_on i (nth i seeds []))
  /\ ((Nat.min max_seeds base_seed_count < List.length genotypes)%nat ->
      List.length weighted = base_seed_count
      /\ (max_seeds <= base_seed_count -> seeds = weighted)%nat
      /\ ((base_seed_count < max_seeds)%nat ->
          seeds
          = weighted
            ++ (if (List.length genotypes <=? max_seeds - base_seed_count)%nat
                then map (fun i => make_point_seed (List.length genotypes) i point_mass)
                       (seq 0 (List.length genotypes))
                else [])
            ++ germline_block_seeds genotypes (last weighted []) priors
                 (max_seeds - base_seed_count))).
Proof.
  intros base_seed_count seeds weighted.
  assert (Eset : generate_weighted_seeds samples genotypes genotype_log_priors cache priors
                 = weighted) by apply generate_weighted_seeds_set.
  assert (Hw : List.length weighted = base_seed_count)
    by (rewrite <- Eset; apply generate_weighted_seeds_length).
  split.
  - intros Hle.
    assert (E : seeds = generate_exhaustive_seeds (List.length genotypes)).
    { unfold seeds, generate_seeds, num_weighted_seeds.
      fold base_seed_count.
      destruct (Nat.leb_spec (List.length genotypes) (Nat.min max_seeds base_seed_count));
        [reflexivity | lia]. }
    rewrite E. split; [reflexivity|]. split; [apply generate_exhaustive_seeds_length|].
    intros i Hi. rewrite generate_exhaustive_seeds_nth by assumption.
    split; [reflexivity|]. split; [apply make_point_seed_length|].
    split.
    + apply make_point_seed_normalised; [assumption | unfold point_mass; lra].
    + apply make_point_seed_concentrated; [assumption | unfold point_mass; lra].
  - intros Hgt. split; [assumption|].
    assert (E : seeds = if (List.length weighted <? max_seeds)%nat
                        then generate_targetted_seeds genotypes (last weighted []) priors
                               (max_seeds - List.length weighted) weighted
                        else weighted).
    { unfold seeds, generate_seeds, num_weighted_seeds.
      fold base_seed_count. cbv zeta. rewrite Eset.
      destruct (Nat.leb_spec (List.length genotypes) (Nat.min max_seeds base_seed_count));
        [lia | reflexivity]. }
    rewrite E, Hw. split.
    + intros Hm. destruct (Nat.ltb_spec base_seed_count max_seeds); [lia | reflexivity].
    + intros Hm. destruct (Nat.ltb_spec base_seed_count max_seeds); [|lia].
      unfold generate_targetted_seeds.
      destruct (Nat.eqb_spec (max_seeds - base_seed_count) 0); [lia|].
      destruct (List.length genotypes <=? max_seeds - base_seed_count)%nat.
      * rewrite <- app_assoc. reflexivity.
      * reflexivity.
Qed.

(** *** The dimension of the weighted seeds *)

Lemma normalise_logs_length logs : List.length (normalise_logs logs) = List.length logs.
Proof. unfold normalise_logs. cbv zeta. apply length_map. Qed.

Lemma compute_log_posteriors_length log_priors log_likelihoods :
  List.length log_priors = List.length log_likelihoods ->
  List.length (compute_log_posteriors log_priors log_likelihoods) = List.length log_priors.
Proof.
  intros E. unfold compute_log_posteriors.
  rewrite normalise_logs_length, length_map, length_combine. lia.
Qed.

Lemma add_to_length other result :
  List.length other = List.length result ->
  List.length (add_to other result) = List.length result.
Proof.
  intros E. unfold add_to.
  rewrite length_app, length_map, length_combine, length_skipn. lia.
Qed.

Lemma weighted_seeds_fold_lengths genotypes log_priors cache priors :
  List.length log_priors = List.length genotypes ->
  forall samples state,
    Forall (fun seed => List.length seed = List.length genotypes) (fst state) ->
    List.length (snd state) = List.length genotypes ->
    let out :=
      fold_left (weighted_seeds_of_sample genotypes log_priors cache priors) samples state in
    Forall (fun seed => List.length seed = List.length genotypes) (fst out)
    /\ List.length (snd out) = List.length genotypes.
Proof.
  intros Hp. induction samples as [|s samples IH]; intros state Hseeds Hcomb;
    [split; assumption|].
  cbn [fold_left]. apply IH; unfold weighted_seeds_of_sample; cbn [fst snd].
  - apply Forall_app. split; [assumption|].
    assert (Hg : List.length (compute_germline_log_likelihoods s genotypes cache)
                 = List.length genotypes) by apply length_map.
    assert (Hd : List.length (compute_demoted_log_likelihoods s genotypes cache)
                 = List.length genotypes) by apply length_map.
    repeat apply Forall_cons; try apply Forall_nil;
      rewrite ?compute_log_posteriors_length, ?normalise_logs_length; congruence.
  - destruct (is_somatic_expected s priors).
    + rewrite add_to_length; [assumption|].
      etransitivity; [apply length_map | symmetry; exact Hcomb].
    + rewrite add_to_length; [assumption|].
      etransitivity; [apply length_map | symmetry; exact Hcomb].
Qed.

(** X12: when there is one log-prior per cancer genotype, every seed that
    [generate_weighted_seeds] makes is a vector with one entry per cancer
    genotype, whatever the samples and the likelihoods are. *)
Theorem generate_weighted_seeds_dimension
  samples genotypes genotype_log_priors cache priors :
  List.length genotype_log_priors = List.length genotypes ->
  Forall (fun seed => List.length seed = List.length genotypes)
    (generate_weighted_seeds samples genotypes genotype_log_priors cache priors).
Proof.
  intros Hp. unfold generate_weighted_seeds. cbv zeta.
  destruct (weighted_seeds_fold_lengths genotypes genotype_log_priors cache priors Hp samples
              ([normalise_logs genotype_log_priors], repeat 0 (List.length genotypes)))
    as [Hseeds Hcomb].
  - cbn [fst]. apply Forall_cons; [|apply Forall_nil].
    rewrite normalise_logs_length. assumption.
  - cbn [snd]. apply List.repeat_length.
  - cbv zeta in *. destruct (1 <? List.length samples)%nat; [|assumption].
    apply Forall_app. split; [assumption|].
    repeat apply Forall_cons; try apply Forall_nil;
      rewrite normalise_logs_length, ?add_to_length; congruence.
Qed.

(** *** The ploidy dispatch *)

(** C3 (as amended): [evaluate] raises the unsupported-ploidy error exactly
    when the ploidy of the first cancer genotype is below 2 or above 8, and
    for every ploidy [K] in 2..8 it returns what the variational Bayes
    implementation instantiated at [K] returns for the generated seeds. *)
Theorem evaluate_unsupported_ploidy m g gs cache :
  ((exists feature where_,
       evaluate m (g :: gs) cache = inl (UnimplementedFeatureError feature where_))
   <-> (ploidy_of g < 2 \/ 8 < ploidy_of g)%nat)
  /\ ((exists latents, evaluate m (g :: gs) cache = inr latents)
      <-> (2 <= ploidy_of g <= 8)%nat)
  /\ ((2 <= ploidy_of g <= 8)%nat ->
      let genotype_log_priors :=
        calculate_log_priors (g :: gs) (genotype_prior_model (priors_ m)) in
      evaluate m (g :: gs) cache
      = inr (run_variational_bayes_K (ploidy_of g) (samples_ m) (g :: gs)
               (alphas (priors_ m)) genotype_log_priors cache
               {| vb_epsilon := epsilon (parameters_ m);
                  vb_max_iterations := max_iterations (parameters_ m) |}
               (generate_seeds (samples_ m) (g :: gs) genotype_log_priors cache
                  (priors_ m) (max_seeds (parameters_ m))))).
Proof.
  unfold evaluate, run_variational_bayes, run_variational_bayes_helper.
  cbn [front hd]. cbv zeta.
  destruct (ploidy_of g) as [|[|[|[|[|[|[|[|[|p]]]]]]]]];
    (split; [|split]);
    try (split; [ intros [x [y E]]; try discriminate; lia
                | intros H; try lia; do 2 eexists; reflexivity ]);
    try (split; [ intros [x E]; try discriminate; lia
                | intros H; try lia; eexists; reflexivity ]);
    try (intros H; try lia; reflexivity).
Qed.

End Model.

(** *** A haploid germline, and eight germline haplotypes with a somatic one *)

Definition haploid_genotype : CancerGenotype :=
  {| germline := ["A"]%string; somatic := ["C"]%string |}.

Definition octoploid_genotype : CancerGenotype :=
  {| germline := repeat "A"%string 8; somatic := ["C"]%string |}.

Definition one_sample_model : TumourModel unit :=
  {| samples_ := ["tumour"%string];
     priors_ := {| genotype_prior_model := tt; alphas := fun _ => [1; 1] |};
     parameters_ := {| epsilon := 0.05; max_iterations := 1000; max_seeds := 12 |} |}.

(** C3 (as stated) fails.  With [ploidy()] the germline ploidy, as section 3
    has it, a haploid germline (ploidy 1, inside 1..8) raises the error.
    With [ploidy()] the number of germline and somatic haplotypes, a
    germline ploidy of 8 (not greater than 8) raises it as well.  The
    collaborators are trivial ones: the error does not depend on them. *)
Lemma evaluate_ploidy_counterexample :
  (ploidy haploid_genotype = 1%nat
   /\ evaluate unit unit unit (fun _ _ _ => 0) (fun _ _ => []) (fun _ _ _ _ => [])
        ploidy (fun _ _ _ _ _ _ _ _ => tt) one_sample_model [haploid_genotype] tt
      = inl (UnimplementedFeatureError "tumour model ploidies above 8" "TumourModel"))
  /\ (ploidy octoploid_genotype = 8%nat
      /\ evaluate unit unit unit (fun _ _ _ => 0) (fun _ _ => []) (fun _ _ _ _ => [])
           total_ploidy (fun _ _ _ _ _ _ _ _ => tt) one_sample_model
           [octoploid_genotype] tt
         = inl (UnimplementedFeatureError "tumour model ploidies above 8" "TumourModel")).
Proof. repeat split. Qed.

Lemma generate_weighted_seeds_dimension_witness :
  Forall (fun seed => List.length seed = List.length [haploid_genotype; octoploid_genotype])
    (generate_weighted_seeds unit unit (fun _ _ _ => 0) ["tumour"%string]
       [haploid_genotype; octoploid_genotype] [0; 0] tt (priors_ unit one_sample_model)).
Proof.
  apply (generate_weighted_seeds_dimension unit unit (fun _ _ _ => 0) ["tumour"%string]
           [haploid_genotype; octoploid_genotype] [0; 0] tt (priors_ unit one_sample_model)).
  reflexivity.
Defined.

(** *** Range seeds *)

Lemma fill_n_app {A} (x : A) pre mid post :
  fill_n (List.length pre) (List.length mid) x (pre ++ mid ++ post)
  = pre ++ map (fun _ => x) mid ++ post.
Proof.
  unfold fill_n.
  rewrite firstn_app, firstn_all, Nat.sub_diag, firstn_O, app_nil_r.
  rewrite (skipn_app (List.length pre)), skipn_all, Nat.sub_diag. cbn [skipn app].
  rewrite firstn_app, firstn_all, Nat.sub_diag, firstn_O, app_nil_r.
  rewrite (app_assoc pre mid post), skipn_app, <- length_app, skipn_all.
  rewrite length_app. replace (_ - _)%nat with 0%nat by lia. reflexivity.
Qed.

Lemma map_const_repeat {A B} (x : B) (y : A) n :
  map (fun _ => x) (repeat y n) = repeat x n.
Proof. induction n as [|n IH]; [reflexivity|]. cbn [repeat map]. rewrite IH. reflexivity. Qed.

Lemma make_range_seed_blocks num_genotypes begin n p :
  (begin + n <= num_genotypes)%nat ->
  make_range_seed num_genotypes begin n p
  = repeat (ln ((1 - p) / INR (num_genotypes - n))) begin
    ++ repeat (ln (p / INR n)) n
    ++ repeat (ln ((1 - p) / INR (num_genotypes - n))) (num_genotypes - (begin + n)).
Proof.
  intros H. unfold make_range_seed.
  set (lo := ln ((1 - p) / INR (num_genotypes - n))).
  replace num_genotypes with (begin + (n + (num_genotypes - (begin + n))))%nat at 1 by lia.
  rewrite !repeat_app.
  pose proof (fill_n_app (ln (p / INR n)) (repeat lo begin) (repeat lo n)
                (repeat lo (num_genotypes - (begin + n)))) as E.
  rewrite !List.repeat_length in E. rewrite E, map_const_repeat. reflexivity.
Qed.

Lemma sum_exp_app l1 l2 :
  fold_right (fun x acc => exp x + acc) 0 (l1 ++ l2)
  = fold_right (fun x acc => exp x + acc) 0 l1 + fold_right (fun x acc => exp x + acc) 0 l2.
Proof. induction l1 as [|x l1 IH]; cbn [app fold_right]; [lra | rewrite IH; lra]. Qed.

(** X13: [make_range_seed(num_genotypes, begin, n, p)] with a range of
    [n > 0] genotypes inside the vector and [0 < p < 1] has one entry per
    genotype, the entries of the range hold [ln (p / n)], and its mass is 1
    when the range leaves a genotype out; when the range is the whole
    vector its mass is [p], so the seed is not normalised. *)
Theorem make_range_seed_mass num_genotypes begin n p :
  (0 < n)%nat -> (begin + n <= num_genotypes)%nat -> 0 < p < 1 ->
  List.length (make_range_seed num_genotypes begin n p) = num_genotypes
  /\ (forall i, (begin <= i < begin + n)%nat ->
                nth i (make_range_seed num_genotypes begin n p) 0 = ln (p / INR n))
  /\ ((n < num_genotypes)%nat -> is_normalised (make_range_seed num_genotypes begin n p))
  /\ (n = num_genotypes ->
      fold_right (fun x acc => exp x + acc) 0 (make_range_seed num_genotypes begin n p) = p).
Proof.
  intros Hn Hle Hp. rewrite make_range_seed_blocks by assumption.
  set (lo := ln ((1 - p) / INR (num_genotypes - n))).
  assert (Hpos : 0 < INR n) by (apply lt_0_INR; assumption).
  assert (Ehi : exp (ln (p / INR n)) = p / INR n)
    by (apply exp_ln, Rdiv_lt_0_compat; lra).
  split; [|split; [|split]].
  - rewrite !length_app, !List.repeat_length. lia.
  - intros i Hi. rewrite app_nth2 by (rewrite List.repeat_length; lia).
    rewrite List.repeat_length, app_nth1 by (rewrite List.repeat_length; lia).
    apply nth_repeat_lt. lia.
  - intros Hlt. unfold is_normalised. rewrite !sum_exp_app, !sum_exp_repeat, Ehi.
    assert (Hrest : 0 < INR (num_genotypes - n)) by (apply lt_0_INR; lia).
    unfold lo. rewrite exp_ln by (apply Rdiv_lt_0_compat; lra).
    replace (INR (num_genotypes - (begin + n)))
      with (INR (num_genotypes - n) - INR begin)
      by (rewrite !minus_INR, plus_INR by lia; lra).
    field. lra.
  - intros E. subst num_genotypes. replace begin with 0%nat by lia.
    rewrite !sum_exp_app, !sum_exp_repeat, Ehi.
    replace (n - (0 + n))%nat with 0%nat by lia. simpl INR. field. lra.
Qed.

Lemma make_range_seed_mass_witness :
  List.length (make_range_seed 3 1 2 point_mass) = 3%nat
  /\ (forall i, (1 <= i < 1 + 2)%nat ->
                nth i (make_range_seed 3 1 2 point_mass) 0 = ln (point_mass / INR 2))
  /\ ((2 < 3)%nat -> is_normalised (make_range_seed 3 1 2 point_mass))
  /\ (2%nat = 3%nat ->
      fold_right (fun x acc => exp x + acc) 0 (make_range_seed 3 1 2 point_mass)
      = point_mass).
Proof.
  apply (make_range_seed_mass 3 1 2 point_mass); [lia | lia | unfold point_mass; lra].
Defined.

Lemma find_if_spec {A} (p : A -> bool) : forall l,
  (find_if p l <= List.length l)%nat
  /\ (forall i x, (i < find_if p l)%nat -> nth_error l i = Some x -> p x = false)
  /\ (forall x, nth_error l (find_if p l) = Some x -> p x = true).
Proof.
  induction l as [|y l (IH1 & IH2 & IH3)]; cbn [find_if List.length].
  - split; [lia|]. split; [intros i x Hi; lia | intros x H; discriminate].
  - destruct (p y) eqn:Ey.
    + split; [lia|]. split; [intros i x Hi; lia|]. intros x [= <-]. assumption.
    + split; [lia|]. split.
      * intros [|i] x Hi; cbn [nth_error]; [intros [= <-]; assumption|].
        apply IH2. lia.
      * intros x. cbn [nth_error]. apply IH3.
Qed.

Lemma find_if_found {A} (p : A -> bool) : forall l,
  (exists x, In x l /\ p x = true) <-> (find_if p l < List.length l)%nat.
Proof.
  induction l as [|y l IH]; cbn [find_if List.length].
  - split; [intros (x & [] & _) | lia].
  - destruct (p y) eqn:Ey.
    + split; [lia | intros _; exists y; split; [left; reflexivity | assumption]].
    + split.
      * intros (x & [<-|Hin] & Hx); [congruence|].
        assert (H : (find_if p l < List.length l)%nat)
          by (apply IH; exists x; split; assumption).
        lia.
      * intros H. assert (H' : (find_if p l < List.length l)%nat) by lia.
        apply IH in H'. destruct H' as (x & Hin & Hx).
        exists x. split; [right; assumption | assumption].
Qed.

Lemma genotype_eqb_eq a b : genotype_eqb a b = true <-> a = b.
Proof.
  unfold genotype_eqb. destruct (list_eq_dec string_dec a b); split; congruence.
Qed.

(** X14: [make_range_seed(genotypes, germline, p)] seeds the first run of
    cancer genotypes with the germline genotype [germline]: no genotype
    before the run has it, all of the run have it, the genotype after the
    run has not.  The seed is made with the default [0.9999], whatever [p]
    is.  When no cancer genotype has the germline genotype, the call has
    no defined result. *)
Theorem make_range_seed_of_first_run genotypes germline_ p :
  (~ In germline_ (map germline genotypes) ->
   make_range_seed_of genotypes germline_ p = None)
  /\ (In germline_ (map germline genotypes) ->
      exists begin n,
        make_range_seed_of genotypes germline_ p
        = Some (make_range_seed (List.length genotypes) begin n point_mass)
        /\ (0 < n)%nat /\ (begin + n <= List.length genotypes)%nat
        /\ (forall i g, (i < begin)%nat -> nth_error genotypes i = Some g ->
                        germline g <> germline_)
        /\ (forall i g, (begin <= i < begin + n)%nat -> nth_error genotypes i = Some g ->
                        germline g = germline_)
        /\ (forall g, nth_error genotypes (begin + n) = Some g ->
                      germline g <> germline_)).
Proof.
  unfold make_range_seed_of. cbv zeta.
  set (same := fun g => genotype_eqb (germline g) germline_).
  assert (Hex : In germline_ (map germline genotypes)
                <-> (find_if same genotypes < List.length genotypes)%nat).
  { rewrite <- find_if_found. rewrite in_map_iff. split.
    - intros (g & E & Hin). exists g. split; [assumption|]. apply genotype_eqb_eq, E.
    - intros (g & Hin & E). exists g. split; [apply genotype_eqb_eq, E | assumption]. }
  split.
  - intros Hno. destruct (Nat.ltb_spec (find_if same genotypes) (List.length genotypes));
      [exfalso; apply Hno, Hex; assumption | reflexivity].
  - intros Hin. apply Hex in Hin.
    destruct (Nat.ltb_spec (find_if same genotypes) (List.length genotypes)); [|lia].
    set (first := find_if same genotypes) in *.
    set (rest := skipn (S first) genotypes).
    destruct (find_if_spec same genotypes) as (_ & Hbefore & Hat).
    destruct (find_if_spec (fun g => negb (same g)) rest) as (Hlen & Hrun & Hend).
    fold first in Hbefore, Hat. unfold find_if_not.
    set (k := find_if (fun g => negb (same g)) rest) in *.
    exists first, (S k).
    replace (S first + k - first)%nat with (S k) by lia.
    split; [reflexivity|]. split; [lia|].
    assert (Hrest : List.length rest = (List.length genotypes - S first)%nat)
      by apply length_skipn.
    split; [lia|]. split; [|split].
    + intros i g Hi Hg E. apply genotype_eqb_eq in E.
      pose proof (Hbefore i g Hi Hg) as Hf. unfold same in Hf. congruence.
    + intros i g Hi Hg. apply genotype_eqb_eq.
      destruct (Nat.eq_dec i first) as [->|Hne]; [apply Hat, Hg|].
      assert (Hr : nth_error rest (i - S first) = Some g).
      { unfold rest. rewrite nth_error_skipn. replace (S first + (i - S first))%nat with i by lia.
        assumption. }
      pose proof (Hrun (i - S first)%nat g ltac:(lia) Hr) as Hn.
      apply negb_false_iff in Hn. exact Hn.
    + intros g Hg E. apply genotype_eqb_eq in E.
      assert (Hr : nth_error rest k = Some g).
      { unfold rest. rewrite nth_error_skipn. replace (S first + k)%nat with (first + S k)%nat by lia.
        assumption. }
      pose proof (Hend g Hr) as Hn. unfold same in Hn. rewrite E in Hn. discriminate.
Qed.

End Tumour.

(** ** core/tools/haplotypegenerator/haplotype_tree.hpp *)

Module HaplotypeTree.

Local Open Scope nat_scope.

(** *** [extend_tree_until] *)

Section ExtendUntil.

(** [HaplotypeTree] is declared in the header and defined in
    haplotype_tree.cpp, which is not part of the sources: the tree, its
    [extend] and its [num_haplotypes] are parameters here. *)
Variable Tree : Type.
Variable Allele : Type.
Variable extend : Tree -> Allele -> Tree.
Variable num_haplotypes : Tree -> nat.

Record Variant : Type :=
  { ref_allele : Allele;
    alt_allele : Allele }.

(** [detail::extend_tree]: the overload for alleles and the one for
    variants. *)
Definition extend_tree (elements : list Allele) (tree : Tree) : Tree :=
  fold_left extend elements tree.

Definition extend_tree_variants (elements : list Variant) (tree : Tree) : Tree :=
  fold_left
    (fun tree variant => extend (extend tree (ref_allele variant)) (alt_allele variant))
    elements tree.

(** The alleles of a range of variants, reference allele first. *)
Definition variant_alleles (elements : list Variant) : list Allele :=
  flat_map (fun variant => [ref_allele variant; alt_allele variant]) elements.

(** [std::find_if(first, last, pred)] for a predicate that extends the
    tree by its argument and then tests the bound.  Iterators are offsets
    from [first]; the tree is threaded through. *)
Fixpoint find_if_extending {X : Type} (extend_by : Tree -> X -> Tree)
  (max_haplotypes : nat) (elements : list X) (tree : Tree) : nat * Tree :=
  match elements with
  | [] => (O, tree)
  | x :: rest =>
      let tree := extend_by tree x in
      if (max_haplotypes <=? num_haplotypes tree)%nat then (O, tree)
      else
        let found := find_if_extending extend_by max_haplotypes rest tree in
        (S (fst found), snd found)
  end.

Definition extend_tree_until_by {X : Type} (extend_by : Tree -> X -> Tree)
  (elements : list X) (tree : Tree) (max_haplotypes : nat) : nat * Tree :=
  match elements with
  | [] => (O, tree)
  | _ :: _ =>
      let found := find_if_extending extend_by max_haplotypes elements tree in
      if (num_haplotypes (snd found) =? max_haplotypes)%nat
      then (S (fst found), snd found)
      else found
  end.

(** The overload for alleles. *)
Definition extend_tree_until
  (elements : list Allele) (tree : Tree) (max_haplotypes : nat) : nat * Tree :=
  extend_tree_until_by extend elements tree max_haplotypes.

(** The overload for variants. *)
Definition extend_tree_until_variants
  (elements : list Variant) (tree : Tree) (max_haplotypes : nat) : nat * Tree :=
  extend_tree_until_by
    (fun tree variant => extend (extend tree (ref_allele variant)) (alt_allele variant))
    elements tree max_haplotypes.

(** The tree after the first [k] elements. *)
Definition extended {X : Type} (extend_by : Tree -> X -> Tree)
  (elements : list X) (tree : Tree) (k : nat) : Tree :=
  fold_left extend_by (firstn k elements) tree.

(** What [extend_tree_until] leaves behind: the first [applied] elements
    are in the tree and the iterator [it] is returned. *)
Inductive UntilOutcome {X : Type} (extend_by : Tree -> X -> Tree)
  (elements : list X) (tree : Tree) (max_haplotypes : nat)
  (it : nat) (result : Tree) : Prop :=
| never_reached :
    (forall k, 1 <= k <= List.length elements ->
               num_haplotypes (extended extend_by elements tree k) < max_haplotypes) ->
    result = extended extend_by elements tree (List.length elements) ->
    it = List.length elements ->
    UntilOutcome extend_by elements tree max_haplotypes it result
| reached_exactly (applied : nat) :
    1 <= applied <= List.length elements ->
    (forall k, 1 <= k < applied ->
               num_haplotypes (extended extend_by elements tree k) < max_haplotypes) ->
    result = extended extend_by elements tree applied ->
    num_haplotypes result = max_haplotypes ->
    it = applied ->
    UntilOutcome extend_by elements tree max_haplotypes it result
| overshot (applied : nat) :
    1 <= applied <= List.length elements ->
    (forall k, 1 <= k < applied ->
               num_haplotypes (extended extend_by elements tree k) < max_haplotypes) ->
    result = extended extend_by elements tree applied ->
    max_haplotypes < num_haplotypes result ->
    S it = applied ->
    UntilOutcome extend_by elements tree max_haplotypes it result.

Lemma extended_cons {X : Type} (extend_by : Tree -> X -> Tree) x rest tree k :
  extended extend_by (x :: rest) tree (S k) = extended extend_by rest (extend_by tree x) k.
Proof. reflexivity. Qed.

Lemma find_if_extending_stops {X : Type} (extend_by : Tree -> X -> Tree) max_haplotypes :
  forall elements tree,
    let found := find_if_extending extend_by max_haplotypes elements tree in
    (forall k, 1 <= k <= fst found -> k <= List.length elements ->
               num_haplotypes (extended extend_by elements tree k) < max_haplotypes)
    /\ ((fst found < List.length elements
         /\ snd found = extended extend_by elements tree (S (fst found))
         /\ max_haplotypes <= num_haplotypes (snd found))
        \/ (fst found = List.length elements
            /\ snd found = extended extend_by elements tree (List.length elements))).
Proof.
  induction elements as [|x rest IH]; intros tree.
  - simpl. split; [intros k Hk; lia | right; split; reflexivity].
  - cbn [find_if_extending]. cbv zeta.
    destruct (Nat.leb_spec max_haplotypes (num_haplotypes (extend_by tree x))) as [Hr|Hr].
    + cbn [fst snd]. split; [intros k Hk; lia|].
      left. repeat split; [simpl; lia | assumption].
    + specialize (IH (extend_by tree x)). cbv zeta in IH. destruct IH as [Hmin Hend].
      cbn [fst snd]. split.
      * intros [|[|k]] Hk Hlen; [lia | exact Hr |].
        rewrite extended_cons. apply Hmin; simpl in Hlen; lia.
      * destruct Hend as [(Hlt & Hres & Hmax)|(Hit & Hres)].
        -- left. rewrite extended_cons. repeat split; [simpl; lia | assumption ..].
        -- right. cbn [List.length]. rewrite extended_cons. split; [lia | assumption].
Qed.

(** C2 (as amended): [extend_tree_until] extends the tree with the elements
    in order and stops after the first one that brings [num_haplotypes()]
    to [max_haplotypes] or above.  That extension stays in the tree also
    when it overshoots the bound.  The iterator returned is the one after
    the last element applied when the bound was met exactly, the one OF the
    last element applied when the bound was overshot, and [last] when the
    bound was never reached. *)
Theorem extend_tree_until_outcome {X : Type} (extend_by : Tree -> X -> Tree)
  (elements : list X) (tree : Tree) (max_haplotypes : nat) :
  UntilOutcome extend_by elements tree max_haplotypes
    (fst (extend_tree_until_by extend_by elements tree max_haplotypes))
    (snd (extend_tree_until_by extend_by elements tree max_haplotypes)).
Proof.
  destruct elements as [|x rest].
  - apply never_reached; [intros k Hk; simpl in Hk; lia | reflexivity | reflexivity].
  - unfold extend_tree_until_by.
    pose proof (find_if_extending_stops extend_by max_haplotypes (x :: rest) tree) as H.
    cbv zeta in *.
    set (found := find_if_extending extend_by max_haplotypes (x :: rest) tree) in *.
    destruct H as [Hmin Hend].
    destruct (Nat.eqb_spec (num_haplotypes (snd found)) max_haplotypes) as [He|Hne];
      cbn [fst snd].
    + destruct Hend as [(Hlt & Hres & Hmax)|(Hit & Hres)].
      * apply (reached_exactly _ _ _ _ _ _ (S (fst found)));
          [lia | intros k Hk; apply Hmin; lia | assumption | assumption | reflexivity].
      * exfalso.
        assert (Hb : num_haplotypes (snd found) < max_haplotypes).
        { rewrite Hres. apply Hmin; simpl in *; lia. }
        lia.
    + destruct Hend as [(Hlt & Hres & Hmax)|(Hit & Hres)].
      * apply (overshot _ _ _ _ _ _ (S (fst found)));
          [lia | intros k Hk; apply Hmin; lia | assumption | lia | reflexivity].
      * apply never_reached; [intros k Hk; apply Hmin; lia | assumption | assumption].
Qed.

(** *** [extend_tree_until] beside [extend_tree] *)

Lemma extend_tree_until_by_prefix {X : Type} (extend_by : Tree -> X -> Tree)
  (elements : list X) (tree : Tree) (max_haplotypes : nat) :
  let outcome := extend_tree_until_by extend_by elements tree max_haplotypes in
  exists applied,
    applied <= List.length elements
    /\ (elements <> [] -> 1 <= applied)
    /\ snd outcome = extended extend_by elements tree applied
    /\ (fst outcome = applied \/ S (fst outcome) = applied)
    /\ (fst outcome = List.length elements -> applied = List.length elements)
    /\ ((forall k, 1 <= k <= List.length elements ->
                   num_haplotypes (extended extend_by elements tree k) < max_haplotypes) ->
        fst outcome = List.length elements /\ applied = List.length elements).
Proof.
  cbv zeta. destruct elements as [|x rest].
  - exists 0. cbn. repeat split; auto. congruence.
  - unfold extend_tree_until_by.
    pose proof (find_if_extending_stops extend_by max_haplotypes (x :: rest) tree) as H.
    cbv zeta in H.
    set (found := find_if_extending extend_by max_haplotypes (x :: rest) tree) in *.
    destruct H as [Hmin Hend].
    destruct Hend as [(Hlt & Hres & Hmax)|(Hit & Hres)].
    + exists (S (fst found)).
      assert (Hreach : ~ (forall k, 1 <= k <= List.length (x :: rest) ->
                                    num_haplotypes (extended extend_by (x :: rest) tree k)
                                    < max_haplotypes)).
      { intros Hall. specialize (Hall (S (fst found)) ltac:(lia)).
        rewrite <- Hres in Hall. lia. }
      destruct (Nat.eqb_spec (num_haplotypes (snd found)) max_haplotypes) as [He|Hne];
        cbn [fst snd].
      * split; [lia|]. split; [intros _; lia|]. split; [assumption|].
        split; [left; reflexivity|]. split; [intros E; exact E|].
        intros Hall. contradiction.
      * split; [lia|]. split; [intros _; lia|]. split; [assumption|].
        split; [right; reflexivity|]. split; [intros E; lia|].
        intros Hall. contradiction.
    + exists (List.length (x :: rest)).
      assert (Hb : num_haplotypes (snd found) < max_haplotypes).
      { rewrite Hres. apply Hmin; simpl in *; lia. }
      destruct (Nat.eqb_spec (num_haplotypes (snd found)) max_haplotypes) as [He|Hne];
        [lia|].
      cbn [fst snd]. split; [lia|]. split; [intros _; simpl; lia|]. split; [assumption|].
      split; [left; assumption|]. split; [intros _; reflexivity|].
      intros _. split; [assumption | reflexivity].
Qed.

Lemma extended_all {X : Type} (extend_by : Tree -> X -> Tree) elements tree :
  extended extend_by elements tree (List.length elements) = fold_left extend_by elements tree.
Proof. unfold extended. rewrite firstn_all. reflexivity. Qed.

Lemma fold_left_variant_alleles : forall elements tree,
  fold_left extend (variant_alleles elements) tree
  = fold_left
      (fun tree variant => extend (extend tree (ref_allele variant)) (alt_allele variant))
      elements tree.
Proof.
  induction elements as [|v elements IH]; intros tree; [reflexivity|].
  cbn [variant_alleles flat_map app fold_left]. apply IH.
Qed.

(** X15: extending a tree by a range of variants is extending it by their
    alleles in order, reference allele before alternative allele; and the
    tree that [extend_tree_until] leaves for a range of variants is
    extended by both alleles of each of the first [applied] variants,
    never by one allele of a variant alone. *)
Theorem extend_tree_variants_alleles elements tree max_haplotypes :
  extend_tree_variants elements tree = extend_tree (variant_alleles elements) tree
  /\ exists applied,
       applied <= List.length elements
       /\ snd (extend_tree_until_variants elements tree max_haplotypes)
          = extend_tree (variant_alleles (firstn applied elements)) tree.
Proof.
  split.
  - unfold extend_tree_variants, extend_tree. symmetry. apply fold_left_variant_alleles.
  - unfold extend_tree_until_variants.
    destruct (extend_tree_until_by_prefix
                (fun tree variant => extend (extend tree (ref_allele variant))
                                       (alt_allele variant))
                elements tree max_haplotypes) as (applied & Hle & _ & Hres & _).
    exists applied. split; [assumption|]. rewrite Hres.
    unfold extended, extend_tree. symmetry. apply fold_left_variant_alleles.
Qed.

(** X16: [extend_tree_until] beside [extend_tree].  When it returns [last]
    the whole range is in the tree, as after [extend_tree]; this is so in
    particular when no extension reaches the bound.  On a range that is
    not empty it applies the first element whatever the bound is, also
    when the tree has [max_haplotypes] haplotypes or more before the
    call. *)
Theorem extend_tree_until_whole_range
  (elements : list Allele) (tree : Tree) (max_haplotypes : nat) :
  (fst (extend_tree_until elements tree max_haplotypes) = List.length elements ->
   snd (extend_tree_until elements tree max_haplotypes) = extend_tree elements tree)
  /\ ((forall k, 1 <= k <= List.length elements ->
                 num_haplotypes (extend_tree (firstn k elements) tree) < max_haplotypes) ->
      extend_tree_until elements tree max_haplotypes
      = (List.length elements, extend_tree elements tree))
  /\ (elements <> [] ->
      exists applied,
        1 <= applied <= List.length elements
        /\ snd (extend_tree_until elements tree max_haplotypes)
           = extend_tree (firstn applied elements) tree).
Proof.
  unfold extend_tree_until.
  destruct (extend_tree_until_by_prefix extend elements tree max_haplotypes)
    as (applied & Hle & Hone & Hres & Hit & Hlast & Hnever).
  split; [|split].
  - intros E. rewrite Hres, (Hlast E). apply extended_all.
  - intros Hall. destruct (Hnever Hall) as [E1 E2].
    rewrite (surjective_pairing (extend_tree_until_by _ _ _ _)).
    rewrite E1, Hres, E2, extended_all. reflexivity.
  - intros Hne. exists applied. split; [split; [apply Hone, Hne | assumption]|].
    exact Hres.
Qed.

End ExtendUntil.

(** *** A tree of two biallelic sites *)

Record ContigAllele : Type :=
  { allele_begin : nat;
    allele_end : nat;
    allele_bases : string }.

Definition allele_eqb (a b : ContigAllele) : bool :=
  (allele_begin a =? allele_begin b) && (allele_end a =? allele_end b)
  && String.eqb (allele_bases a) (allele_bases b).

(** Modelled from the spec: [HaplotypeTree] (haplotype_tree.cpp is not part
    of the sources), after sections 3 and 4.1.  The tree is kept as its
    frontier: one root-to-leaf path of alleles per leaf, the empty path for
    the root.  No vertex has two children with the same allele, and every
    path is position-sorted and free of overlaps. *)
Definition Path : Type := list ContigAllele.

Definition Frontier : Type := list Path.

Definition empty_tree : Frontier := [[]].

Definition is_empty (tree : Frontier) : bool :=
  match tree with
  | [[]] => true
  | _ => false
  end.

Definition frontier_size (tree : Frontier) : nat :=
  if is_empty tree then 0 else List.length tree.

Definition is_after (a x : ContigAllele) : bool := allele_end x <=? allele_begin a.

Definition overlaps (a x : ContigAllele) : bool :=
  (allele_begin a <? allele_end x) && (allele_begin x <? allele_end a).

(** The deepest ancestor on [path] whose end precedes the begin of [a]. *)
Fixpoint find_allele_before (path : Path) (a : ContigAllele) : Path :=
  match path with
  | [] => []
  | x :: rest => if is_after a x then x :: find_allele_before rest a else []
  end.

Fixpoint is_prefix (p path : Path) : bool :=
  match p, path with
  | [], _ => true
  | _ :: _, [] => false
  | x :: p', y :: path' => allele_eqb x y && is_prefix p' path'
  end.

(** Some branch of the tree already runs through [p]. *)
Definition branch_exists (tree : Frontier) (p : Path) : bool := existsb (is_prefix p) tree.

(** The leaves that replace [leaf] when the tree is extended by [a]:
    [a] becomes a child of the leaf when it lies after it; when it overlaps
    the leaf's allele it becomes a sibling branch below the deepest
    ancestor that ends before it, unless that branch is there already, and
    the leaf is kept; otherwise the leaf is left alone. *)
Definition extend_haplotype (tree : Frontier) (leaf : Path) (a : ContigAllele) : list Path :=
  match last (map Some leaf) None with
  | None => [leaf ++ [a]]
  | Some x =>
      if is_after a x then [leaf ++ [a]]
      else if overlaps a x then
        let branch := find_allele_before leaf a ++ [a] in
        if branch_exists tree branch then [leaf] else [branch; leaf]
      else [leaf]
  end.

Definition extend_frontier (tree : Frontier) (a : ContigAllele) : Frontier :=
  fold_left (fun done leaf => done ++ extend_haplotype (done ++ tree) leaf a) tree [].

Definition ref1 : ContigAllele := {| allele_begin := 0; allele_end := 1; allele_bases := "A" |}.
Definition alt1 : ContigAllele := {| allele_begin := 0; allele_end := 1; allele_bases := "C" |}.
Definition ref2 : ContigAllele := {| allele_begin := 1; allele_end := 2; allele_bases := "G" |}.
Definition alt2 : ContigAllele := {| allele_begin := 1; allele_end := 2; allele_bases := "T" |}.

Example two_sites_frontier :
  fold_left extend_frontier [ref1; alt1; ref2; alt2] empty_tree
  = [[alt1; alt2]; [alt1; ref2]; [ref1; alt2]; [ref1; ref2]].
Proof. reflexivity. Qed.

Example frontier_sizes :
  map (fun k => frontier_size (fold_left extend_frontier (firstn k [ref1; alt1; ref2; alt2])
                                 empty_tree))
    [0; 1; 2; 3; 4]
  = [0; 1; 2; 2; 4].
Proof. reflexivity. Qed.

(** C2 (as stated) fails: with the bound 3 and the alleles of two biallelic
    sites, the extension by the fourth allele takes the tree from 2 to 4
    haplotypes.  [extend_tree_until] returns the iterator of that fourth
    allele (offset 3), as if it were not consumed, but the tree it leaves
    holds the extension and has 4 > 3 haplotypes. *)
Lemma extend_tree_until_overshoot_counterexample :
  let outcome :=
    extend_tree_until Frontier ContigAllele extend_frontier frontier_size
      [ref1; alt1; ref2; alt2] empty_tree 3 in
  fst outcome = 3
  /\ snd outcome = fold_left extend_frontier [ref1; alt1; ref2; alt2] empty_tree
  /\ frontier_size (snd outcome) = 4
  /\ ~ frontier_size (snd outcome) <= 3.
Proof.
  cbv zeta. repeat split.
  vm_compute. lia.
Qed.

End HaplotypeTree.

(** ** core/tools/phaser/phaser.cpp *)

Module Phaser.

Definition SampleName : Type := string.

Record GenomicRegion : Type :=
  { contig : string;
    region_begin : nat;
    region_end : nat }.

Definition region_size (r : GenomicRegion) : nat := (region_end r - region_begin r)%nat.

(** Modelled from the spec: [encompassing_region(first, last)] of
    utils/mappable_algorithms.hpp (not part of the sources): for a range
    sorted by position, the region from the begin of its first element to
    its rightmost end.  The range must not be empty; the model yields an
    empty region at position 0 there. *)
Definition encompassing_region (range : list GenomicRegion) : GenomicRegion :=
  match range with
  | [] => {| contig := EmptyString; region_begin := 0; region_end := 0 |}
  | r :: rest =>
      {| contig := contig r;
         region_begin := region_begin r;
         region_end := fold_left Nat.max (map region_end rest) (region_end r) |}
  end.

(** [Phred<double>] is kept as the error probability it is built from; a
    score is at least another one when its probability is at most the
    other's. *)
Definition Phred : Type := R.

Definition phred_ge (a b : Phred) : bool := if Rle_dec a b then true else false.

Record PhaseRegion : Type :=
  { phase_region : GenomicRegion;
    score : Phred }.

Record PhaseSet : Type :=
  { region : GenomicRegion;
    phase_regions : list (SampleName * list PhaseRegion) }.

Definition log2 (x : R) : R := ln x / ln 2.

(** [is_split_phasing]: some sample has more than one phase region. *)
Definition is_split_phasing (phase : PhaseSet) : bool :=
  existsb (fun p => (1 <? List.length (snd p))%nat) (phase_regions phase).

(** The partitions in [[first, last)], iterators being offsets into
    [partitions]. *)
Definition partition_range (partitions : list GenomicRegion) (first last : nat)
  : list GenomicRegion :=
  firstn (last - first) (skipn first partitions).

(** *** What the claim speaks about *)







(** [regions] are the encompassing regions of consecutive non-empty runs
    that make up [partitions]. *)
Inductive Tiling : list GenomicRegion -> list GenomicRegion -> Prop :=
| tiling_nil : Tiling [] []
| tiling_cons (run rest regions : list GenomicRegion) :
    run <> [] ->
    Tiling rest regions ->
    Tiling (run ++ rest) (encompassing_region run :: regions).

Section Phasing.

(** [Genotype<Haplotype>] and the operations on it that the phaser calls
    (splicing, equality in a region, hashing) are not part of the sources:
    the grouping into phase complement sets and the splicing with its
    marginal posteriors are parameters. *)
Variable Genotype : Type.
Variable genotype_ploidy : Genotype -> nat.
Variable generate_phase_complement_sets :
  list Genotype -> list GenomicRegion -> list (list Genotype).
Variable splice_and_marginalise :
  list Genotype -> (Genotype -> R) -> GenomicRegion -> list Genotype * (Genotype -> R).

Definition marginalise (phase_set : list Genotype) (genotype_posteriors : Genotype -> R) : R :=
  fold_left (fun curr genotype => curr + genotype_posteriors genotype) phase_set 0.

Definition calculate_entropy (phase_set : list Genotype) (genotype_posteriors : Genotype -> R)
  : R :=
  let norm := marginalise phase_set genotype_posteriors in
  Rmax 0
    (- fold_left
         (fun curr genotype =>
            let p := genotype_posteriors genotype / norm in
            curr + p * log2 p)
         phase_set 0).

Definition maximum_entropy (num_elements : nat) : R := log2 (INR num_elements).

Definition calculate_relative_entropy
  (phase_set : list Genotype) (genotype_posteriors : Genotype -> R) : R :=
  if (List.length phase_set <? 2)%nat then 1
  else 1 - calculate_entropy phase_set genotype_posteriors
           / maximum_entropy (List.length phase_set).

Definition calculate_set_phase_score
  (phase_set : list Genotype) (genotype_posteriors : Genotype -> R) : R :=
  marginalise phase_set genotype_posteriors
  * calculate_relative_entropy phase_set genotype_posteriors.

Definition calculate_phase_score
  (phase_sets : list (list Genotype)) (genotype_posteriors : Genotype -> R) : Phred :=
  Rmax 0
    (1 - fold_left
           (fun curr phase_set =>
              curr + calculate_set_phase_score phase_set genotype_posteriors)
           phase_sets 0).

(** The [while] loop of [force_phase_sample]: [None] when [fuel] turns of
    the loop do not reach its end, and when [last_partition] is not behind
    [first_partition], where the source asks for the encompassing region
    of an empty range or moves [last_partition] in front of the first
    partition. *)
Fixpoint force_phase_loop (fuel : nat)
  (partitions : list GenomicRegion) (genotypes : list Genotype)
  (genotype_posteriors : Genotype -> R) (min_phase_score : Phred)
  (first_partition last_partition : nat) (result : list PhaseRegion)
  : option (list PhaseRegion) :=
  match fuel with
  | O => None
  | S fuel' =>
      if (first_partition =? List.length partitions)%nat then Some result
      else if (last_partition <=? first_partition)%nat then None
      else
        let curr_region :=
          encompassing_region (partition_range partitions first_partition last_partition) in
        let spliced := splice_and_marginalise genotypes genotype_posteriors curr_region in
        let phase_set :=
          generate_phase_complement_sets (fst spliced)
            (partition_range partitions first_partition last_partition) in
        let phase_score := calculate_phase_score phase_set (snd spliced) in
        if phred_ge phase_score min_phase_score
           || (last_partition - first_partition =? 1)%nat
        then
          force_phase_loop fuel' partitions genotypes genotype_posteriors min_phase_score
            last_partition (List.length partitions)
            (result
             ++ [ {| phase_region :=
                       encompassing_region
                         (partition_range partitions first_partition last_partition);
                     score := phase_score |} ])
        else
          force_phase_loop fuel' partitions genotypes genotype_posteriors min_phase_score
            first_partition (last_partition - 1) result
  end.

(** Enough turns for the loop over [n] partitions: every turn either moves
    [last_partition] one step to the left or moves [first_partition] to
    the right. *)
Definition loop_fuel (n : nat) : nat := S (n * S n + n).

(** [force_phase_sample].  When the score of the whole region is below
    the threshold and there is no partition, the source decrements the end
    iterator of an empty vector: the model gives [None]. *)
Definition force_phase_sample
  (region : GenomicRegion) (partitions : list GenomicRegion) (genotypes : list Genotype)
  (genotype_posteriors : Genotype -> R) (min_phase_score : Phred)
  : option (list PhaseRegion) :=
  let phase_set := generate_phase_complement_sets genotypes partitions in
  let phase_score := calculate_phase_score phase_set genotype_posteriors in
  if phred_ge phase_score min_phase_score
  then Some [ {| phase_region := region; score := phase_score |} ]
  else
    match partitions with
    | [] => None
    | _ :: _ =>
        force_phase_loop (loop_fuel (List.length partitions)) partitions genotypes
          genotype_posteriors min_phase_score 0 (List.length partitions - 1) []
    end.

(** [Phred<double>::Probability {0.0}] *)
Definition maxPosterior : Phred := 0.

(** [mapM] over the samples: the phase regions of every sample, or [None]
    when one of them is not reached. *)
Fixpoint for_each_sample {A : Type} (f : A -> option (list PhaseRegion))
  (samples : list (SampleName * A)) : option (list (SampleName * list PhaseRegion)) :=
  match samples with
  | [] => Some []
  | (sample, a) :: rest =>
      match f a, for_each_sample f rest with
      | Some regions, Some others => Some ((sample, regions) :: others)
      | _, _ => None
      end
  end.

(** [Phaser::force_phase]: [haplotype_region] is the mapped region of the
    first haplotype, [genotypes] the keys of the posterior matrix,
    [partitions] the covered regions of the candidates (both extracted by
    helpers that are not part of the sources).  The source asserts that
    there is a genotype and reads [genotypes.front()]: without one the
    model gives [None]. *)
Definition force_phase
  (min_phase_score_ : Phred) (haplotype_region : GenomicRegion)
  (genotypes : list Genotype) (partitions : list GenomicRegion)
  (genotype_posteriors : list (SampleName * (Genotype -> R))) : option PhaseSet :=
  match genotypes with
  | [] => None
  | front :: _ =>
      if (genotype_ploidy front =? 1)%nat || (List.length partitions =? 1)%nat then
        Some {| region := haplotype_region;
                phase_regions :=
                  map (fun p => (fst p,
                                 [ {| phase_region := haplotype_region;
                                      score := maxPosterior |} ]))
                    genotype_posteriors |}
      else
        match
          for_each_sample
            (fun posteriors =>
               force_phase_sample haplotype_region partitions genotypes posteriors
                 min_phase_score_)
            genotype_posteriors
        with
        | Some regions => Some {| region := haplotype_region; phase_regions := regions |}
        | None => None
        end
  end.


(** *** Regions of sorted partitions *)







Lemma StronglySorted_snoc {A} (R : A -> A -> Prop) : forall l x,
  StronglySorted R l -> Forall (fun y => R y x) l -> StronglySorted R (l ++ [x]).
Proof.
  induction l as [|a l IH]; intros x Hs Hall; simpl.
  - repeat constructor.
  - inversion Hs; subst. inversion Hall; subst.
    constructor; [apply IH; assumption|].
    rewrite Forall_app. split; [assumption | repeat constructor; assumption].
Qed.


(** *** Tilings *)

Lemma tiling_snoc partitions regions run :
  Tiling partitions regions -> run <> [] ->
  Tiling (partitions ++ run) (regions ++ [encompassing_region run]).
Proof.
  intros Ht Hrun. induction Ht as [|run' rest regions Hrun' Ht IH].
  - simpl. rewrite <- (app_nil_r run) at 1. apply tiling_cons; [assumption | constructor].
  - rewrite <- app_assoc. simpl. apply tiling_cons; assumption.
Qed.




(** *** The loop of [force_phase_sample] *)

Lemma firstn_plus {A} : forall n m (l : list A),
  firstn (n + m) l = firstn n l ++ firstn m (skipn n l).
Proof.
  induction n as [|n IH]; intros m l; [reflexivity|].
  destruct l as [|x l]; simpl.
  - rewrite firstn_nil. reflexivity.
  - rewrite IH. reflexivity.
Qed.

Lemma firstn_range partitions first last :
  (first <= last)%nat ->
  firstn last partitions
  = firstn first partitions ++ partition_range partitions first last.
Proof.
  intros H. unfold partition_range.
  replace last with (first + (last - first))%nat at 1 by lia.
  apply firstn_plus.
Qed.

Lemma partition_range_not_nil partitions first last :
  (first < last <= List.length partitions)%nat ->
  partition_range partitions first last <> [].
Proof.
  intros H E. apply (f_equal (@List.length _)) in E.
  unfold partition_range in E. rewrite length_firstn, length_skipn in E.
  simpl in E. lia.
Qed.

Lemma force_phase_loop_tiles partitions genotypes genotype_posteriors min_phase_score :
  forall fuel first last result,
    Tiling (firstn first partitions) (map phase_region result) ->
    (first = List.length partitions \/ first < last <= List.length partitions)%nat ->
    ((List.length partitions - first) * S (List.length partitions) + (last - first)
     < fuel)%nat ->
    exists regions,
      force_phase_loop fuel partitions genotypes genotype_posteriors min_phase_score
        first last result = Some regions
      /\ Tiling partitions (map phase_region regions).
Proof.
  induction fuel as [|fuel IH]; intros first last result Ht Hrange Hfuel; [inversion Hfuel|].
  cbn [force_phase_loop].
  destruct (Nat.eqb_spec first (List.length partitions)) as [->|Hne].
  - exists result. split; [reflexivity|]. rewrite firstn_all in Ht. assumption.
  - destruct Hrange as [?|Hrange]; [contradiction|].
    destruct (Nat.leb_spec last first) as [Hle|_]; [lia|]. cbv zeta.
    destruct (_ || _) eqn:Haccept.
    + apply IH.
      * rewrite map_app. cbn [map phase_region].
        rewrite (firstn_range partitions first last) by lia.
        apply tiling_snoc; [assumption | apply partition_range_not_nil; assumption].
      * lia.
      * nia.
    + apply orb_false_iff in Haccept. destruct Haccept as [_ Hd].
      apply Nat.eqb_neq in Hd.
      apply IH; [assumption | lia | lia].
Qed.

Lemma force_phase_sample_regions region partitions genotypes genotype_posteriors
  min_phase_score :
  (2 <= List.length partitions)%nat ->
  exists regions,
    force_phase_sample region partitions genotypes genotype_posteriors min_phase_score
    = Some regions
    /\ (calculate_phase_score (generate_phase_complement_sets genotypes partitions)
          genotype_posteriors <= min_phase_score ->
        map phase_region regions = [region])
    /\ (~ calculate_phase_score (generate_phase_complement_sets genotypes partitions)
            genotype_posteriors <= min_phase_score ->
        Tiling partitions (map phase_region regions)).
Proof.
  intros Hn. unfold force_phase_sample, phred_ge. cbv zeta.
  destruct (Rle_dec _ _) as [Hle|Hgt].
  - eexists. split; [reflexivity|]. split; [reflexivity | contradiction].
  - destruct partitions as [|p partitions]; [simpl in Hn; lia|].
    destruct (force_phase_loop_tiles (p :: partitions) genotypes genotype_posteriors
                min_phase_score (loop_fuel (List.length (p :: partitions))) 0
                (List.length (p :: partitions) - 1) [])
      as (regions & E & Ht).
    + constructor.
    + right. lia.
    + unfold loop_fuel. nia.
    + exists regions. split; [assumption|]. split; [contradiction | intros _; assumption].
Qed.

Lemma for_each_sample_all {A : Type} (f : A -> option (list PhaseRegion))
  (P : A -> list PhaseRegion -> Prop) :
  (forall a, exists regions, f a = Some regions /\ P a regions) ->
  forall samples,
  exists out,
    for_each_sample f samples = Some out
    /\ Forall2 (fun given phased => fst phased = fst given /\ P (snd given) (snd phased))
         samples out.
Proof.
  intros Hf. induction samples as [|[sample a] samples IH].
  - exists []. split; [reflexivity | constructor].
  - destruct IH as (out & E & HP). destruct (Hf a) as (regions & Ea & Pa).
    exists ((sample, regions) :: out). cbn [for_each_sample]. rewrite Ea, E.
    split; [reflexivity|]. constructor; [split; [reflexivity | exact Pa] | exact HP].
Qed.

Lemma Forall2_In_r {A B : Type} (P : A -> B -> Prop) : forall l l' y,
  Forall2 P l l' -> In y l' -> exists x, In x l /\ P x y.
Proof.
  induction 1 as [|x y' l l' Hxy Hrest IH]; intros Hin; [destruct Hin|].
  destruct Hin as [<-|Hin].
  - exists x. split; [left; reflexivity | assumption].
  - destruct (IH Hin) as (x' & Hx' & HP). exists x'. split; [right; assumption | assumption].
Qed.

(** What [force_phase] returns for two partitions or more and genotypes
    that are not haploid. *)
Lemma force_phase_samples
  min_phase_score haplotype_region front rest partitions genotype_posteriors :
  genotype_ploidy front <> 1%nat -> (2 <= List.length partitions)%nat ->
  exists out,
    force_phase min_phase_score haplotype_region (front :: rest) partitions
      genotype_posteriors
    = Some {| region := haplotype_region; phase_regions := out |}
    /\ Forall2
         (fun given phased =>
            fst phased = fst given
            /\ (calculate_phase_score
                  (generate_phase_complement_sets (front :: rest) partitions) (snd given)
                <= min_phase_score ->
                map phase_region (snd phased) = [haplotype_region])
            /\ (~ calculate_phase_score
                    (generate_phase_complement_sets (front :: rest) partitions) (snd given)
                  <= min_phase_score ->
                Tiling partitions (map phase_region (snd phased))))
         genotype_posteriors out.
Proof.
  intros Hploidy Hn. unfold force_phase.
  apply Nat.eqb_neq in Hploidy. rewrite Hploidy.
  replace (List.length partitions =? 1)%nat with false
    by (symmetry; apply Nat.eqb_neq; lia).
  cbn [orb].
  destruct (for_each_sample_all
              (fun posteriors =>
                 force_phase_sample haplotype_region partitions (front :: rest) posteriors
                   min_phase_score)
              (fun posteriors regions =>
                 (calculate_phase_score
                    (generate_phase_complement_sets (front :: rest) partitions) posteriors
                  <= min_phase_score ->
                  map phase_region regions = [haplotype_region])
                 /\ (~ calculate_phase_score
                         (generate_phase_complement_sets (front :: rest) partitions)
                         posteriors
                       <= min_phase_score ->
                     Tiling partitions (map phase_region regions)))
              (fun posteriors =>
                 force_phase_sample_regions haplotype_region partitions (front :: rest)
                   posteriors min_phase_score Hn)
              genotype_posteriors)
    as (out & E & HP).
  exists out. rewrite E. split; [reflexivity | exact HP].
Qed.

(** What [force_phase] returns for haploid genotypes or a single
    partition. *)
Lemma force_phase_whole
  min_phase_score haplotype_region front rest partitions genotype_posteriors :
  genotype_ploidy front = 1%nat \/ List.length partitions = 1%nat ->
  force_phase min_phase_score haplotype_region (front :: rest) partitions
    genotype_posteriors
  = Some {| region := haplotype_region;
            phase_regions :=
              map (fun p => (fst p,
                             [ {| phase_region := haplotype_region;
                                  score := maxPosterior |} ]))
                genotype_posteriors |}.
Proof.
  intros H. unfold force_phase.
  replace ((genotype_ploidy front =? 1)%nat || (List.length partitions =? 1)%nat)
    with true; [reflexivity|].
  symmetry. apply orb_true_iff.
  destruct H as [H|H]; [left | right]; apply Nat.eqb_eq; assumption.
Qed.


(** *** Phase scores *)

Lemma fold_left_sum {A} (F : A -> R) : forall l a,
  fold_left (fun curr x => curr + F x) l a = a + fold_right (fun x acc => F x + acc) 0 l.
Proof.
  induction l as [|x l IH]; intros a; cbn [fold_left fold_right]; [lra|].
  rewrite IH. lra.
Qed.

Lemma sum_nonneg {A} (F : A -> R) : forall l,
  (forall x, In x l -> 0 <= F x) -> 0 <= fold_right (fun x acc => F x + acc) 0 l.
Proof.
  induction l as [|x l IH]; intros H; cbn [fold_right]; [lra|].
  pose proof (H x (or_introl eq_refl)).
  pose proof (IH (fun y Hy => H y (or_intror Hy))). lra.
Qed.

Lemma sum_le {A} (F G : A -> R) : forall l,
  (forall x, In x l -> F x <= G x) ->
  fold_right (fun x acc => F x + acc) 0 l <= fold_right (fun x acc => G x + acc) 0 l.
Proof.
  induction l as [|x l IH]; intros H; cbn [fold_right]; [lra|].
  pose proof (H x (or_introl eq_refl)).
  pose proof (IH (fun y Hy => H y (or_intror Hy))). lra.
Qed.

Lemma sum_ext {A} (F G : A -> R) : forall l,
  (forall x, In x l -> F x = G x) ->
  fold_right (fun x acc => F x + acc) 0 l = fold_right (fun x acc => G x + acc) 0 l.
Proof.
  induction l as [|x l IH]; intros H; cbn [fold_right]; [reflexivity|].
  rewrite (H x (or_introl eq_refl)), (IH (fun y Hy => H y (or_intror Hy))). reflexivity.
Qed.

Lemma sum_scal {A} (F : A -> R) c : forall l,
  fold_right (fun x acc => c * F x + acc) 0 l = c * fold_right (fun x acc => F x + acc) 0 l.
Proof. induction l as [|x l IH]; cbn [fold_right]; [lra | rewrite IH; lra]. Qed.

Lemma sum_const {A} c : forall l : list A,
  fold_right (fun _ acc => c + acc) 0 l = INR (List.length l) * c.
Proof.
  induction l as [|x l IH]; [simpl; lra|].
  cbn [fold_right List.length]. rewrite IH, S_INR. lra.
Qed.

Lemma ln_lower x : 0 < x -> 1 - / x <= ln x.
Proof.
  intros Hx. pose proof (exp_ineq1_le (- ln x)) as H.
  rewrite exp_Ropp, exp_ln in H by assumption. lra.
Qed.

(** The entropy of a distribution over [n] outcomes is at most [ln n]. *)
Lemma entropy_le_ln {A} (q : A -> R) (l : list A) :
  (forall x, In x l -> 0 < q x) ->
  fold_right (fun x acc => q x + acc) 0 l = 1 ->
  - fold_right (fun x acc => q x * ln (q x) + acc) 0 l <= ln (INR (List.length l)).
Proof.
  intros Hpos Hone.
  assert (Hn : 0 < INR (List.length l)).
  { apply lt_0_INR. destruct l; [simpl in Hone; lra | simpl; lia]. }
  set (n := INR (List.length l)) in *.
  assert (H : fold_right (fun x acc => (q x - / n) + acc) 0 l
              <= fold_right (fun x acc => (q x * ln (q x) + ln n * q x) + acc) 0 l).
  { apply sum_le. intros x Hx. specialize (Hpos x Hx).
    assert (Hnq : 0 < n * q x) by (apply Rmult_lt_0_compat; assumption).
    pose proof (ln_lower (n * q x) Hnq) as Hl.
    rewrite ln_mult in Hl by assumption.
    apply (Rmult_le_compat_l (q x)) in Hl; [|lra].
    replace (q x * (1 - / (n * q x))) with (q x - / n) in Hl by (field; lra).
    lra. }
  assert (E1 : fold_right (fun x acc => (q x - / n) + acc) 0 l = 0).
  { clear H. 
    assert (E : forall l', fold_right (fun x acc => (q x - / n) + acc) 0 l'
                           = fold_right (fun x acc => q x + acc) 0 l'
                             - INR (List.length l') * / n).
    { induction l' as [|x l' IH]; [simpl; lra|].
      cbn [fold_right List.length]. rewrite IH, S_INR. lra. }
    rewrite E, Hone. fold n. field. lra. }
  assert (E2 : fold_right (fun x acc => (q x * ln (q x) + ln n * q x) + acc) 0 l
               = fold_right (fun x acc => q x * ln (q x) + acc) 0 l + ln n).
  { assert (E : forall l', fold_right (fun x acc => (q x * ln (q x) + ln n * q x) + acc) 0 l'
                           = fold_right (fun x acc => q x * ln (q x) + acc) 0 l'
                             + ln n * fold_right (fun x acc => q x + acc) 0 l').
    { induction l' as [|x l' IH]; [simpl; lra|]. cbn [fold_right]. rewrite IH. lra. }
    rewrite E, Hone. lra. }
  lra.
Qed.

Lemma ln_2_positive : 0 < ln 2.
Proof. rewrite <- ln_1. apply ln_increasing; lra. Qed.

Lemma marginalise_sum phase_set genotype_posteriors :
  marginalise phase_set genotype_posteriors
  = fold_right (fun genotype acc => genotype_posteriors genotype + acc) 0 phase_set.
Proof. unfold marginalise. rewrite fold_left_sum. lra. Qed.

Lemma calculate_relative_entropy_bounds phase_set genotype_posteriors :
  (forall genotype, In genotype phase_set -> 0 < genotype_posteriors genotype) ->
  0 <= calculate_relative_entropy phase_set genotype_posteriors <= 1.
Proof.
  intros Hpos. unfold calculate_relative_entropy.
  destruct (Nat.ltb_spec (List.length phase_set) 2) as [Hn|Hn]; [lra|].
  unfold calculate_entropy, maximum_entropy, log2. cbv zeta.
  rewrite marginalise_sum, fold_left_sum, Rplus_0_l.
  set (norm := fold_right (fun genotype acc => genotype_posteriors genotype + acc) 0 phase_set).
  assert (Hnorm : 0 < norm).
  { unfold norm. destruct phase_set as [|g rest]; [simpl in Hn; lia|].
    cbn [fold_right]. pose proof (Hpos g (or_introl eq_refl)).
    pose proof (sum_nonneg genotype_posteriors rest
                  (fun x Hx => Rlt_le _ _ (Hpos x (or_intror Hx)))). lra. }
  pose proof ln_2_positive as H2.
  assert (Hln : 0 < ln (INR (List.length phase_set))).
  { rewrite <- ln_1. apply ln_increasing; [lra|]. apply (lt_INR 1). lia. }
  set (q := fun genotype => genotype_posteriors genotype / norm).
  assert (Hq : forall x, In x phase_set -> 0 < q x).
  { intros x Hx. apply Rdiv_lt_0_compat; [apply Hpos, Hx | assumption]. }
  assert (Hone : fold_right (fun x acc => q x + acc) 0 phase_set = 1).
  { unfold q, Rdiv.
    rewrite (sum_ext _ (fun x => / norm * genotype_posteriors x))
      by (intros x _; lra).
    rewrite sum_scal. fold norm. field. lra. }
  pose proof (entropy_le_ln q phase_set Hq Hone) as Hgibbs.
  assert (Esum : fold_right
                   (fun x acc =>
                      genotype_posteriors x / norm * (ln (genotype_posteriors x / norm) / ln 2)
                      + acc) 0 phase_set
                 = / ln 2 * fold_right (fun x acc => q x * ln (q x) + acc) 0 phase_set).
  { rewrite <- sum_scal. apply sum_ext. intros x _. unfold q. field.
    split; lra. }
  rewrite Esum.
  set (s := fold_right (fun x acc => q x * ln (q x) + acc) 0 phase_set) in *.
  assert (Hent : 0 <= Rmax 0 (- (/ ln 2 * s)) <= ln (INR (List.length phase_set)) / ln 2).
  { split; [apply Rmax_l|]. apply Rmax_lub.
    - apply Rlt_le, Rdiv_lt_0_compat; assumption.
    - replace (- (/ ln 2 * s)) with (- s / ln 2) by (field; lra).
      apply Rmult_le_compat_r; [left; apply Rinv_0_lt_compat; assumption | assumption]. }
  set (h := Rmax 0 (- (/ ln 2 * s))) in *.
  set (m := ln (INR (List.length phase_set)) / ln 2) in *.
  assert (Hm : 0 < m) by (apply Rdiv_lt_0_compat; assumption).
  assert (Hr : 0 <= h / m <= 1).
  { split.
    - apply Rmult_le_pos; [apply Hent | left; apply Rinv_0_lt_compat; assumption].
    - apply (Rmult_le_reg_r m); [assumption|].
      unfold Rdiv. rewrite Rmult_assoc, Rinv_l by lra. lra. }
  lra.
Qed.

Lemma calculate_set_phase_score_bounds phase_set genotype_posteriors :
  (forall genotype, In genotype phase_set -> 0 < genotype_posteriors genotype) ->
  0 <= calculate_set_phase_score phase_set genotype_posteriors
  <= marginalise phase_set genotype_posteriors.
Proof.
  intros Hpos. unfold calculate_set_phase_score.
  pose proof (calculate_relative_entropy_bounds phase_set genotype_posteriors Hpos) as Hr.
  assert (Hm : 0 <= marginalise phase_set genotype_posteriors).
  { rewrite marginalise_sum. apply sum_nonneg. intros x Hx. left. apply Hpos, Hx. }
  nra.
Qed.

(** X17: for posteriors that are positive, the phase score of a grouping
    into phase complement sets is the Phred score of a probability: the
    error probability it is built from lies between 0 and 1, and it is at
    least 1 minus the posterior mass of the genotypes in the sets. *)
Theorem calculate_phase_score_probability phase_sets genotype_posteriors :
  (forall phase_set genotype,
     In phase_set phase_sets -> In genotype phase_set -> 0 < genotype_posteriors genotype) ->
  0 <= calculate_phase_score phase_sets genotype_posteriors <= 1
  /\ 1 - fold_right
           (fun phase_set acc => marginalise phase_set genotype_posteriors + acc) 0
           phase_sets
     <= calculate_phase_score phase_sets genotype_posteriors.
Proof.
  intros Hpos. unfold calculate_phase_score. rewrite fold_left_sum, Rplus_0_l.
  assert (H0 : 0 <= fold_right
                      (fun phase_set acc =>
                         calculate_set_phase_score phase_set genotype_posteriors + acc) 0
                      phase_sets).
  { apply sum_nonneg. intros s Hs.
    apply calculate_set_phase_score_bounds. intros g Hg. apply (Hpos s g Hs Hg). }
  assert (H1 : fold_right
                 (fun phase_set acc =>
                    calculate_set_phase_score phase_set genotype_posteriors + acc) 0
                 phase_sets
               <= fold_right
                    (fun phase_set acc => marginalise phase_set genotype_posteriors + acc) 0
                    phase_sets).
  { apply sum_le. intros s Hs.
    apply calculate_set_phase_score_bounds. intros g Hg. apply (Hpos s g Hs Hg). }
  split; [split|].
  - apply Rmax_l.
  - apply Rmax_lub; lra.
  - eapply Rle_trans; [|apply Rmax_r]. lra.
Qed.

(** X18: when every phase complement set has a single member, the phase
    score is built from the probability [1 - sum of the posteriors]; for
    posteriors that sum to 1 it is the maximal score, and
    [force_phase_sample] then returns the region it was given as the only
    phase region, for every threshold that is the score of a
    probability. *)
Theorem singleton_sets_phase_score region partitions genotypes genotype_posteriors
  min_phase_score :
  Forall (fun phase_set => List.length phase_set = 1%nat)
    (generate_phase_complement_sets genotypes partitions) ->
  fold_right (fun phase_set acc => marginalise phase_set genotype_posteriors + acc) 0
    (generate_phase_complement_sets genotypes partitions) = 1 ->
  0 <= min_phase_score ->
  calculate_phase_score (generate_phase_complement_sets genotypes partitions)
    genotype_posteriors = maxPosterior
  /\ force_phase_sample region partitions genotypes genotype_posteriors min_phase_score
     = Some [ {| phase_region := region; score := maxPosterior |} ].
Proof.
  intros Hone Hmass Hmin.
  assert (E : calculate_phase_score (generate_phase_complement_sets genotypes partitions)
                genotype_posteriors = maxPosterior).
  { unfold calculate_phase_score, maxPosterior. rewrite fold_left_sum, Rplus_0_l.
    rewrite (sum_ext _ (fun phase_set => marginalise phase_set genotype_posteriors)).
    - rewrite Hmass. replace (1 - 1) with 0 by lra. apply Rmax_left. lra.
    - intros s Hs. rewrite Forall_forall in Hone. specialize (Hone s Hs).
      unfold calculate_set_phase_score, calculate_relative_entropy. rewrite Hone.
      cbn [Nat.ltb Nat.leb]. lra. }
  split; [exact E|].
  unfold force_phase_sample. cbv zeta. rewrite E.
  unfold phred_ge, maxPosterior. destruct (Rle_dec 0 min_phase_score); [reflexivity | lra].
Qed.

(** *** How many phase regions a sample gets *)

Lemma tiling_count partitions regions :
  Tiling partitions regions -> (List.length regions <= List.length partitions)%nat.
Proof.
  induction 1 as [|run rest regions Hrun Ht IH]; [simpl; lia|].
  rewrite length_app. cbn [List.length].
  destruct run; [congruence | simpl; lia].
Qed.

(** X19: for at least one genotype and at least one partition,
    [force_phase] returns (the loop over the partitions ends), and every
    sample gets at most as many phase regions as there are partitions.  A
    phasing is split only when the genotypes are not haploid and there are
    two partitions or more. *)
Theorem force_phase_region_count
  min_phase_score haplotype_region genotypes partitions genotype_posteriors :
  genotypes <> [] -> partitions <> [] ->
  exists phase_set,
    force_phase min_phase_score haplotype_region genotypes partitions genotype_posteriors
    = Some phase_set
    /\ (forall sample regions,
          In (sample, regions) (phase_regions phase_set) ->
          (1 <= List.length regions <= List.length partitions)%nat)
    /\ (is_split_phasing phase_set = true ->
        (2 <= List.length partitions)%nat
        /\ forall genotype rest, genotypes = genotype :: rest -> genotype_ploidy genotype <> 1%nat).
Proof.
  intros Hg Hp.
  destruct genotypes as [|front rest]; [congruence|]. clear Hg.
  assert (Hlen : (1 <= List.length partitions)%nat).
  { destruct partitions; [congruence | simpl; lia]. }
  assert (Hwhole : genotype_ploidy front = 1%nat \/ List.length partitions = 1%nat ->
                   exists phase_set,
                     force_phase min_phase_score haplotype_region (front :: rest) partitions
                       genotype_posteriors = Some phase_set
                     /\ (forall sample regions,
                           In (sample, regions) (phase_regions phase_set) ->
                           (1 <= List.length regions <= List.length partitions)%nat)
                     /\ (is_split_phasing phase_set = true ->
                         (2 <= List.length partitions)%nat
                         /\ forall genotype rest0,
                              front :: rest = genotype :: rest0 ->
                              genotype_ploidy genotype <> 1%nat)).
  { intros H. rewrite (force_phase_whole _ _ _ _ _ _ H).
    eexists. split; [reflexivity|]. cbn [phase_regions]. split.
    - intros sample regions Hin. apply in_map_iff in Hin.
      destruct Hin as (p & [= _ <-] & _). cbn [List.length]. lia.
    - intros Hs. exfalso. unfold is_split_phasing in Hs. cbn [phase_regions] in Hs.
      apply existsb_exists in Hs. destruct Hs as ([sample regions] & Hin & Hl).
      apply in_map_iff in Hin. destruct Hin as (p & [= _ <-] & _). discriminate. }
  destruct (Nat.eq_dec (genotype_ploidy front) 1) as [Hploidy|Hploidy];
    [apply Hwhole; left; assumption|].
  destruct (Nat.eq_dec (List.length partitions) 1) as [Hsingle|Hsingle];
    [apply Hwhole; right; assumption|].
  assert (Hn : (2 <= List.length partitions)%nat) by lia.
  destruct (force_phase_samples min_phase_score haplotype_region front rest partitions
              genotype_posteriors Hploidy Hn) as (out & E & HP).
  rewrite E. eexists. split; [reflexivity|]. cbn [phase_regions]. split.
  - intros sample regions Hin.
    destruct (Forall2_In_r _ _ _ _ HP Hin) as (given & _ & _ & Hreach & Hbelow).
    cbn [snd] in Hreach, Hbelow.
    destruct (Rle_dec
                (calculate_phase_score
                   (generate_phase_complement_sets (front :: rest) partitions) (snd given))
                min_phase_score) as [Hle|Hgt].
    + pose proof (f_equal (@List.length _) (Hreach Hle)) as El.
      rewrite length_map in El. simpl in El. lia.
    + pose proof (Hbelow Hgt) as Ht.
      pose proof (tiling_count _ _ Ht) as Hc. rewrite length_map in Hc.
      split; [|assumption].
      inversion Ht as [E0 E1 | run rest' regions' Hrun Ht' E0 E1].
      * exfalso. destruct partitions; [congruence | discriminate].
      * apply (f_equal (@List.length _)) in E1. rewrite length_map in E1.
        simpl in E1. lia.
  - intros _. split; [assumption|]. intros genotype rest0 [= <- <-]. assumption.
Qed.

End Phasing.

(** *** Phase complement sets *)

Section ComplementSets.

(** [are_equal_in_region<Haplotype>(lhs, rhs, region)] of genotype.hpp,
    which is not part of the sources: the two genotypes have the same
    haplotypes when spliced to [region]. *)
Variable Genotype : Type.
Variable are_equal_in_region : Genotype -> Genotype -> GenomicRegion -> bool.

(** [PhaseComplementEqual {first, last}] *)
Definition PhaseComplementEqual (partitions : list GenomicRegion) (lhs rhs : Genotype) : bool :=
  forallb (fun region => are_equal_in_region lhs rhs region) partitions.

(** [PhaseComplementSetMap]: the hash map from a genotype to the set of
    its phase complements, kept in the order of insertion.  The map finds
    a key through [PhaseComplementHash], which hashes the same splices
    that [PhaseComplementEqual] compares. *)
Definition PhaseComplementSetMap : Type := list (Genotype * list Genotype).

Fixpoint insert (partitions : list GenomicRegion) (genotype : Genotype)
  (curr_result : PhaseComplementSetMap) : PhaseComplementSetMap :=
  match curr_result with
  | [] => [(genotype, [genotype])]
  | (key, phase_set) :: rest =>
      if PhaseComplementEqual partitions key genotype
      then (key, phase_set ++ [genotype]) :: rest
      else (key, phase_set) :: insert partitions genotype rest
  end.

(** [generate_phase_complement_sets]; [None] for no genotypes, where the
    source reads the front of an empty container.  The source hands the
    sets out in the order of the hash map, which is not specified. *)
Definition generate_phase_complement_sets
  (genotypes : list Genotype) (partitions : list GenomicRegion)
  : option (list (list Genotype)) :=
  match genotypes with
  | [] => None
  | front :: rest =>
      Some (map snd
              (fold_left (fun complement_sets genotype =>
                            insert partitions genotype complement_sets)
                 rest [(front, [front])]))
  end.

(** Every set begins with its key, and its other members are equal to the
    key in every partition. *)
Definition keyed (partitions : list GenomicRegion) (entry : Genotype * list Genotype) : Prop :=
  exists rest,
    snd entry = fst entry :: rest
    /\ Forall (fun genotype => PhaseComplementEqual partitions (fst entry) genotype = true)
         rest.

Definition keys_differ (partitions : list GenomicRegion)
  (complement_sets : PhaseComplementSetMap) : Prop :=
  ForallOrdPairs
    (fun e1 e2 => PhaseComplementEqual partitions (fst e1) (fst e2) = false)
    complement_sets.

Lemma insert_keys partitions genotype (Q : Genotype -> Prop) : forall complement_sets,
  Forall (fun e => Q (fst e)) complement_sets -> Q genotype ->
  Forall (fun e => Q (fst e)) (insert partitions genotype complement_sets).
Proof.
  induction complement_sets as [|[key phase_set] rest IH]; intros Hall Hq; cbn [insert].
  - constructor; [assumption | constructor].
  - inversion Hall as [|? ? Hk Hrest]; subst.
    destruct (PhaseComplementEqual partitions key genotype).
    + constructor; assumption.
    + constructor; [assumption | apply IH; assumption].
Qed.

Lemma insert_invariant partitions genotype : forall complement_sets,
  Forall (keyed partitions) complement_sets -> keys_differ partitions complement_sets ->
  Forall (keyed partitions) (insert partitions genotype complement_sets)
  /\ keys_differ partitions (insert partitions genotype complement_sets)
  /\ Permutation (concat (map snd (insert partitions genotype complement_sets)))
       (genotype :: concat (map snd complement_sets)).
Proof.
  induction complement_sets as [|[key phase_set] rest IH]; intros Hkeyed Hdiff; cbn [insert].
  - split; [|split].
    + constructor; [|constructor]. exists []. split; [reflexivity | constructor].
    + constructor; constructor.
    + simpl. apply Permutation_refl.
  - inversion Hkeyed as [|? ? Hk Hrest]; subst. inversion Hdiff as [|? ? Hhead Htail]; subst.
    destruct (PhaseComplementEqual partitions key genotype) eqn:E.
    + split; [|split].
      * constructor; [|assumption]. destruct Hk as (others & Eset & Hothers).
        cbn [fst snd] in *. exists (others ++ [genotype]). split.
        -- rewrite Eset. reflexivity.
        -- apply Forall_app. split; [assumption | constructor; [assumption | constructor]].
      * constructor; assumption.
      * cbn [map snd concat]. rewrite <- app_assoc.
        apply Permutation_sym.
        apply (Permutation_middle phase_set ([] ++ concat (map snd rest)) genotype).
    + destruct (IH Hrest Htail) as (Hk' & Hd' & Hp').
      split; [|split].
      * constructor; assumption.
      * constructor; [|assumption].
        apply (insert_keys partitions genotype
                 (fun k => PhaseComplementEqual partitions key k = false));
          assumption.
      * cbn [map snd concat].
        apply (Permutation_trans (l' := phase_set ++ genotype :: concat (map snd rest))).
        -- apply Permutation_app_head. assumption.
        -- apply Permutation_sym, Permutation_middle.
Qed.

Lemma insert_all_invariant partitions : forall genotypes complement_sets,
  Forall (keyed partitions) complement_sets -> keys_differ partitions complement_sets ->
  let out :=
    fold_left (fun complement_sets genotype => insert partitions genotype complement_sets)
      genotypes complement_sets in
  Forall (keyed partitions) out
  /\ keys_differ partitions out
  /\ Permutation (concat (map snd out)) (concat (map snd complement_sets) ++ genotypes).
Proof.
  induction genotypes as [|g genotypes IH]; intros complement_sets Hk Hd; cbv zeta.
  - cbn [fold_left]. rewrite app_nil_r. repeat split; [assumption .. | apply Permutation_refl].
  - cbn [fold_left].
    destruct (insert_invariant partitions g complement_sets Hk Hd) as (Hk1 & Hd1 & Hp1).
    destruct (IH _ Hk1 Hd1) as (Hk2 & Hd2 & Hp2). cbv zeta in *.
    repeat split; [assumption ..|].
    eapply Permutation_trans; [exact Hp2|].
    eapply Permutation_trans; [apply Permutation_app_tail; exact Hp1|].
    cbn [app]. apply Permutation_middle.
Qed.

Lemma generate_phase_complement_sets_invariant genotypes partitions sets :
  generate_phase_complement_sets genotypes partitions = Some sets ->
  exists complement_sets,
    sets = map snd complement_sets
    /\ Forall (keyed partitions) complement_sets
    /\ keys_differ partitions complement_sets
    /\ Permutation (concat sets) genotypes.
Proof.
  unfold generate_phase_complement_sets.
  destruct genotypes as [|front rest]; [discriminate|]. intros [= <-].
  destruct (insert_all_invariant partitions rest [(front, [front])]) as (Hk & Hd & Hp).
  { constructor; [|constructor]. exists []. split; [reflexivity | constructor]. }
  { constructor; constructor. }
  cbv zeta in *. eexists. split; [reflexivity|]. repeat split; assumption.
Qed.

Lemma keyed_sets partitions : forall complement_sets,
  Forall (keyed partitions) complement_sets ->
  Forall
    (fun phase_set =>
       exists key rest,
         phase_set = key :: rest
         /\ Forall (fun genotype => PhaseComplementEqual partitions key genotype = true) rest)
    (map snd complement_sets).
Proof.
  induction 1 as [|[key phase_set] m (others & E & Ho) Hm IH]; [constructor|].
  cbn [map snd fst] in *. constructor; [|assumption].
  exists key, others. split; assumption.
Qed.

Lemma keys_differ_sets partitions : forall complement_sets,
  Forall (keyed partitions) complement_sets -> keys_differ partitions complement_sets ->
  ForallOrdPairs
    (fun set1 set2 =>
       forall key1 key2,
         hd_error set1 = Some key1 -> hd_error set2 = Some key2 ->
         PhaseComplementEqual partitions key1 key2 = false)
    (map snd complement_sets).
Proof.
  induction complement_sets as [|[key phase_set] m IH]; intros Hk Hd; [constructor|].
  inversion Hk as [|? ? (others & E & _) Hk']; subst.
  inversion Hd as [|? ? Hhead Htail]; subst.
  cbn [fst snd] in E. subst phase_set.
  cbn [map snd]. constructor; [|apply IH; assumption].
  clear IH Htail Hd Hk. induction m as [|[key2 set2] m IHm]; [constructor|].
  inversion Hk' as [|? ? (others2 & E2 & _) Hk'']; subst.
  inversion Hhead as [|? ? Hh Hm]; subst.
  cbn [fst snd] in *. subst set2.
  cbn [map snd]. constructor; [|apply IHm; assumption].
  intros k1 k2 [= <-] [= <-]. assumption.
Qed.

(** X20: [generate_phase_complement_sets] partitions the genotypes: the
    sets hold every genotype once and nothing else, every set begins with
    the genotype that opened it and its other members are equal to that
    genotype in every partition, and the genotypes that opened two sets
    are not equal in every partition.  For no genotypes there is no
    defined result. *)
Theorem generate_phase_complement_sets_partition genotypes partitions :
  (genotypes = [] <-> generate_phase_complement_sets genotypes partitions = None)
  /\ forall sets,
       generate_phase_complement_sets genotypes partitions = Some sets ->
       Permutation (concat sets) genotypes
       /\ Forall
            (fun phase_set =>
               exists key rest,
                 phase_set = key :: rest
                 /\ Forall (fun genotype =>
                              PhaseComplementEqual partitions key genotype = true) rest)
            sets
       /\ ForallOrdPairs
            (fun set1 set2 =>
               forall key1 key2,
                 hd_error set1 = Some key1 -> hd_error set2 = Some key2 ->
                 PhaseComplementEqual partitions key1 key2 = false)
            sets.
Proof.
  split.
  - destruct genotypes; split; intros H; try reflexivity; discriminate.
  - intros sets Hsets.
    destruct (generate_phase_complement_sets_invariant _ _ _ Hsets)
      as (complement_sets & -> & Hk & Hd & Hp).
    split; [assumption|]. split; [apply keyed_sets | apply keys_differ_sets]; assumption.
Qed.

Lemma sum_permutation {A} (F : A -> R) l l' :
  Permutation l l' ->
  fold_right (fun x acc => F x + acc) 0 l = fold_right (fun x acc => F x + acc) 0 l'.
Proof.
  induction 1 as [|x l l' Hp IH|x y l|l l' l'' H1 IH1 H2 IH2]; cbn [fold_right];
    [reflexivity | rewrite IH; reflexivity | lra | congruence].
Qed.

Lemma sum_concat {A} (F : A -> R) : forall sets : list (list A),
  fold_right (fun x acc => F x + acc) 0 (concat sets)
  = fold_right (fun set acc => fold_right (fun x acc => F x + acc) 0 set + acc) 0 sets.
Proof.
  induction sets as [|set sets IH]; [reflexivity|].
  cbn [concat fold_right]. rewrite <- IH.
  induction set as [|x set IHs]; cbn [app fold_right]; [lra | rewrite IHs; lra].
Qed.

(** X21: grouping the genotypes into phase complement sets keeps their
    posterior mass: the marginals of the sets add up to the sum of the
    posteriors of the genotypes.  The phase score of the sets does not
    depend on the order the hash map hands them out in. *)
Theorem phase_complement_sets_mass genotypes partitions genotype_posteriors :
  forall sets,
    generate_phase_complement_sets genotypes partitions = Some sets ->
    fold_right
      (fun phase_set acc => marginalise Genotype phase_set genotype_posteriors + acc) 0 sets
    = fold_right (fun genotype acc => genotype_posteriors genotype + acc) 0 genotypes
    /\ forall sets',
         Permutation sets sets' ->
         calculate_phase_score Genotype sets' genotype_posteriors
         = calculate_phase_score Genotype sets genotype_posteriors.
Proof.
  intros sets Hsets. split.
  - destruct (generate_phase_complement_sets_invariant _ _ _ Hsets)
      as (complement_sets & _ & _ & _ & Hp).
    rewrite <- (sum_permutation genotype_posteriors _ _ Hp), sum_concat.
    apply sum_ext. intros s _. apply marginalise_sum.
  - intros sets' Hp. unfold calculate_phase_score. rewrite !fold_left_sum.
    rewrite (sum_permutation _ _ _ Hp). reflexivity.
Qed.

End ComplementSets.

(** *** Two heterozygous SNPs in opposite phase *)

(** A window of 30 bases with SNP candidates at positions 10 and 20, and
    the two diploid genotypes that carry both SNPs heterozygously, one per
    phasing, each with posterior one half.  Over both sites the two
    genotypes are phase complements of each other, so they share one
    complement set; spliced to a single site both are the same
    heterozygous genotype, which then has posterior one. *)
Definition window : GenomicRegion :=
  {| contig := "1"; region_begin := 0; region_end := 30 |}.

Definition site10 : GenomicRegion :=
  {| contig := "1"; region_begin := 10; region_end := 11 |}.

Definition site20 : GenomicRegion :=
  {| contig := "1"; region_begin := 20; region_end := 21 |}.

Definition cis_genotype : list string := ["AG"; "CT"]%string.

Definition trans_genotype : list string := ["AT"; "CG"]%string.

Definition one_complement_set (genotypes : list (list string)) (_ : list GenomicRegion)
  : list (list (list string)) :=
  [genotypes].

Definition heterozygous_splice
  (_ : list (list string)) (_ : list string -> R) (_ : GenomicRegion)
  : list (list string) * (list string -> R) :=
  ([["A"; "C"]%string], fun _ => 1).










Lemma force_phase_region_count_witness :
  exists phase_set,
    force_phase (list string) (@List.length string) one_complement_set heterozygous_splice
      (1 / 100) window [cis_genotype; trans_genotype] [site10; site20]
      [("tumour"%string, fun _ => 1 / 2)]
    = Some phase_set
    /\ (forall sample regions,
          In (sample, regions) (phase_regions phase_set) ->
          (1 <= List.length regions <= List.length [site10; site20])%nat)
    /\ (is_split_phasing phase_set = true ->
        (2 <= List.length [site10; site20])%nat
        /\ forall genotype rest,
             [cis_genotype; trans_genotype] = genotype :: rest ->
             List.length genotype <> 1%nat).
Proof.
  apply (force_phase_region_count (list string) (@List.length string) one_complement_set
           heterozygous_splice (1 / 100) window [cis_genotype; trans_genotype]
           [site10; site20] [("tumour"%string, fun _ => 1 / 2)]).
  - discriminate.
  - discriminate.
Defined.

Lemma calculate_phase_score_probability_witness :
  0 <= calculate_phase_score (list string) [[cis_genotype; trans_genotype]] (fun _ => 1 / 2)
  <= 1
  /\ 1 - fold_right
           (fun phase_set acc =>
              marginalise (list string) phase_set (fun _ => 1 / 2) + acc) 0
           [[cis_genotype; trans_genotype]]
     <= calculate_phase_score (list string) [[cis_genotype; trans_genotype]]
          (fun _ => 1 / 2).
Proof.
  apply (calculate_phase_score_probability (list string) [[cis_genotype; trans_genotype]]
           (fun _ => 1 / 2)).
  intros phase_set genotype _ _. lra.
Defined.

(** Every genotype in a complement set of its own. *)
Definition singleton_sets (genotypes : list (list string)) (_ : list GenomicRegion)
  : list (list (list string)) :=
  map (fun genotype => [genotype]) genotypes.

Lemma singleton_sets_phase_score_witness :
  calculate_phase_score (list string)
    (singleton_sets [cis_genotype; trans_genotype] [site10; site20]) (fun _ => 1 / 2)
  = maxPosterior
  /\ force_phase_sample (list string) singleton_sets heterozygous_splice window
       [site10; site20] [cis_genotype; trans_genotype] (fun _ => 1 / 2) (1 / 100)
     = Some [ {| phase_region := window; score := maxPosterior |} ].
Proof.
  apply (singleton_sets_phase_score (list string) singleton_sets heterozygous_splice window
           [site10; site20] [cis_genotype; trans_genotype] (fun _ => 1 / 2) (1 / 100)).
  - repeat constructor.
  - unfold marginalise. simpl. lra.
  - lra.
Defined.

Lemma phase_complement_sets_mass_witness :
  fold_right
    (fun phase_set acc => marginalise (list string) phase_set (fun _ => 1 / 2) + acc) 0
    [[cis_genotype; trans_genotype]]
  = fold_right (fun genotype acc => (fun _ : list string => 1 / 2) genotype + acc) 0
      [cis_genotype; trans_genotype]
  /\ forall sets',
       Permutation [[cis_genotype; trans_genotype]] sets' ->
       calculate_phase_score (list string) sets' (fun _ => 1 / 2)
       = calculate_phase_score (list string) [[cis_genotype; trans_genotype]]
           (fun _ => 1 / 2).
Proof.
  apply (phase_complement_sets_mass (list string) (fun _ _ _ => true)
           [cis_genotype; trans_genotype] [site10; site20] (fun _ => 1 / 2)
           [[cis_genotype; trans_genotype]]).
  reflexivity.
Defined.

End Phaser.

(** ** single_read_model.cpp *)

Module SingleReadModel.

Import Phaser.

(** *** Regions, reads and haplotypes *)

(** Modelled from the spec: the region algebra of mappable.hpp and
    genomic_region.hpp (not part of the sources) on half-open intervals of
    one contig: overlap, the overlapped and the encompassing region, the
    overhangs of an encompassing region beside an inner one, and the order
    of begins and of ends. *)
Definition overlaps (a b : GenomicRegion) : bool :=
  String.eqb (contig a) (contig b)
  && (region_begin a <? region_end b)%nat && (region_begin b <? region_end a)%nat.

Definition get_overlapped (a b : GenomicRegion) : GenomicRegion :=
  {| contig := contig a;
     region_begin := Nat.max (region_begin a) (region_begin b);
     region_end := Nat.min (region_end a) (region_end b) |}.

Definition get_encompassing (a b : GenomicRegion) : GenomicRegion :=
  {| contig := contig a;
     region_begin := Nat.min (region_begin a) (region_begin b);
     region_end := Nat.max (region_end a) (region_end b) |}.

Definition get_left_overhang (outer inner : GenomicRegion) : GenomicRegion :=
  {| contig := contig outer;
     region_begin := region_begin outer;
     region_end := region_begin inner |}.

Definition get_right_overhang (outer inner : GenomicRegion) : GenomicRegion :=
  {| contig := contig outer;
     region_begin := region_end inner;
     region_end := region_end outer |}.

Definition begins_before (a b : GenomicRegion) : bool :=
  (region_begin a <? region_begin b)%nat.

Definition ends_before (a b : GenomicRegion) : bool :=
  (region_end a <? region_end b)%nat.

(** [size(region)] as a double. *)
Definition size (r : GenomicRegion) : R := INR (region_size r).

Record AlignedRead : Type :=
  { read_region : GenomicRegion;
    read_sequence : string;
    read_qualities : list nat }.

Record Haplotype : Type :=
  { haplotype_region : GenomicRegion;
    haplotype_sequence : string }.

Definition region_eq_dec (a b : GenomicRegion) : {a = b} + {a <> b}.
Proof. decide equality; try apply Nat.eq_dec; apply string_dec. Defined.

Definition read_eq_dec (a b : AlignedRead) : {a = b} + {a <> b}.
Proof.
  decide equality;
    [apply (list_eq_dec Nat.eq_dec) | apply string_dec | apply region_eq_dec].
Defined.

Definition haplotype_eq_dec (a b : Haplotype) : {a = b} + {a <> b}.
Proof. decide equality; [apply string_dec | apply region_eq_dec]. Defined.

(** *** The pair-HMM's parameters *)

Record RandomModel : Type :=
  { target_emission_probability : R;
    query_emission_probability : R;
    target_end_probability : R;
    query_end_probability : R }.

Record MatchModel : Type :=
  { match_probability : R;
    gap_open_probability : R;
    gap_extend_probability : R;
    end_probability : R }.

(** The three models that [log_probability] sets up for a read and a
    haplotype before it calls the pair-HMM. *)
Definition hmm_models (read : AlignedRead) (haplotype : Haplotype)
  : RandomModel * MatchModel * RandomModel :=
  let max_match_end_prob := 1 - Rmax (2 * 0.015) 0.020 in
  let r := read_region read in
  let h := haplotype_region haplotype in
  if overlaps r h then
    let overlapped_region := get_overlapped r h in
    let covered_region := get_encompassing r h in
    let lhs_random :=
      if begins_before r h then
        {| target_emission_probability := 0.25;
           query_emission_probability := 0.25;
           target_end_probability := 0.99;
           query_end_probability :=
             1 / (size (get_left_overhang covered_region overlapped_region) + 1) |}
      else
        {| target_emission_probability := 0.25;
           query_emission_probability := 0.25;
           target_end_probability :=
             1 / (size (get_left_overhang covered_region overlapped_region) + 1);
           query_end_probability := 0.99 |} in
    let match_ :=
      {| match_probability := 0.25;
         gap_open_probability := 0.015;
         gap_extend_probability := 0.020;
         end_probability := Rmin (1 / (size overlapped_region + 1)) max_match_end_prob |} in
    let rhs_random :=
      if ends_before r h then
        {| target_emission_probability := 0.25;
           query_emission_probability := 0.25;
           target_end_probability :=
             1 / (size (get_right_overhang covered_region overlapped_region) + 1);
           query_end_probability := 0.99 |}
      else
        {| target_emission_probability := 0.25;
           query_emission_probability := 0.25;
           target_end_probability := 0.99;
           query_end_probability :=
             1 / (size (get_right_overhang covered_region overlapped_region) + 1) |} in
    (lhs_random, match_, rhs_random)
  else
    ({| target_emission_probability := 0.25;
        query_emission_probability := 0.25;
        target_end_probability := 1 / (size h + 1);
        query_end_probability := 1 / (size r + 1) |},
     {| match_probability := 0.25;
        gap_open_probability := 0.015;
        gap_extend_probability := 0.020;
        end_probability := max_match_end_prob |},
     {| target_emission_probability := 0.25;
        query_emission_probability := 0.25;
        target_end_probability := 0.99;
        query_end_probability := 0.99 |}).

(** *** The cache *)

Definition Cache : Type := list (AlignedRead * list (Haplotype * R)).

Record SingleReadModel : Type :=
  { cache_ : Cache;
    max_num_reads_ : nat;
    max_num_haplotypes_ : nat }.

Definition make_SingleReadModel (max_num_reads max_num_haplotypes : nat) : SingleReadModel :=
  {| cache_ := []; max_num_reads_ := max_num_reads;
     max_num_haplotypes_ := max_num_haplotypes |}.

Fixpoint find_haplotype (inner : list (Haplotype * R)) (haplotype : Haplotype) : option R :=
  match inner with
  | [] => None
  | (h, v) :: rest =>
      if haplotype_eq_dec haplotype h then Some v else find_haplotype rest haplotype
  end.

Fixpoint find_read (cache : Cache) (read : AlignedRead) : option (list (Haplotype * R)) :=
  match cache with
  | [] => None
  | (r, inner) :: rest => if read_eq_dec read r then Some inner else find_read rest read
  end.

(** [get_cached] under [is_cached]: the cached value, if there is one. *)
Definition cached (cache : Cache) (read : AlignedRead) (haplotype : Haplotype) : option R :=
  match find_read cache read with
  | Some inner => find_haplotype inner haplotype
  | None => None
  end.

(** [inner.emplace(haplotype, value)]: an entry that is there stays. *)
Definition emplace_haplotype (inner : list (Haplotype * R)) (haplotype : Haplotype) (value : R)
  : list (Haplotype * R) :=
  match find_haplotype inner haplotype with
  | Some _ => inner
  | None => (haplotype, value) :: inner
  end.

(** [cache(read, haplotype, value)]: [cache_[read]] makes the read's entry
    when there is none. *)
Fixpoint cache_value (cache : Cache) (read : AlignedRead) (haplotype : Haplotype) (value : R)
  : Cache :=
  match cache with
  | [] => [(read, [(haplotype, value)])]
  | (r, inner) :: rest =>
      if read_eq_dec read r
      then (r, emplace_haplotype inner haplotype value) :: rest
      else (r, inner) :: cache_value rest read haplotype value
  end.

Section PairHMM.

(** [nuc_log_viterbi_local<double>] of pair_hmm.hpp, which is not part of
    the sources: the joint log-Viterbi score of target, query and
    qualities under the three models. *)
Variable nuc_log_viterbi_local :
  string -> string -> list nat -> RandomModel -> MatchModel -> RandomModel -> R.

Definition log_probability (m : SingleReadModel) (read : AlignedRead) (haplotype : Haplotype)
  : R * SingleReadModel :=
  match cached (cache_ m) read haplotype with
  | Some value => (value, m)
  | None =>
      let '(lhs_random, match_, rhs_random) := hmm_models read haplotype in
      let joint_log_probability :=
        nuc_log_viterbi_local (haplotype_sequence haplotype) (read_sequence read)
          (read_qualities read) lhs_random match_ rhs_random in
      let conditional_log_probability :=
        joint_log_probability
        - INR (String.length (haplotype_sequence haplotype))
          * ln (target_emission_probability lhs_random) in
      (conditional_log_probability,
       {| cache_ := cache_value (cache_ m) read haplotype conditional_log_probability;
          max_num_reads_ := max_num_reads_ m;
          max_num_haplotypes_ := max_num_haplotypes_ m |})
  end.

(** *** The joint and the conditional score *)

Definition joint_log_viterbi (read : AlignedRead) (haplotype : Haplotype) : R :=
  nuc_log_viterbi_local (haplotype_sequence haplotype) (read_sequence read)
    (read_qualities read) (fst (fst (hmm_models read haplotype)))
    (snd (fst (hmm_models read haplotype))) (snd (hmm_models read haplotype)).

Definition target_emission : R := 0.25.

Definition conditional_log_likelihood (read : AlignedRead) (haplotype : Haplotype) : R :=
  joint_log_viterbi read haplotype
  - INR (String.length (haplotype_sequence haplotype)) * ln target_emission.

(** Every cached value is the conditional log-likelihood of its key. *)
Definition cache_consistent (m : SingleReadModel) : Prop :=
  forall read haplotype value,
    cached (cache_ m) read haplotype = Some value ->
    value = conditional_log_likelihood read haplotype.

Lemma hmm_models_parameters read haplotype :
  target_emission_probability (fst (fst (hmm_models read haplotype))) = target_emission
  /\ gap_open_probability (snd (fst (hmm_models read haplotype))) = 0.015
  /\ gap_extend_probability (snd (fst (hmm_models read haplotype))) = 0.020
  /\ end_probability (snd (fst (hmm_models read haplotype)))
     <= Rmin (1 - 2 * 0.015) (1 - 0.020).
Proof.
  assert (Emax : Rmax (2 * 0.015) 0.020 = 2 * 0.015) by (apply Rmax_left; lra).
  assert (Emin : Rmin (1 - 2 * 0.015) (1 - 0.020) = 1 - 2 * 0.015) by (apply Rmin_left; lra).
  unfold hmm_models, target_emission. cbv zeta. rewrite Emax, Emin.
  destruct (overlaps _ _); [destruct (begins_before _ _), (ends_before _ _)|];
    cbn [fst snd target_emission_probability gap_open_probability
         gap_extend_probability end_probability];
    repeat split; try reflexivity; try apply Rmin_r; lra.
Qed.

Lemma find_haplotype_emplace inner haplotype value h w :
  find_haplotype (emplace_haplotype inner haplotype value) h = Some w ->
  (h = haplotype /\ w = value) \/ find_haplotype inner h = Some w.
Proof.
  unfold emplace_haplotype. destruct (find_haplotype inner haplotype); [auto|].
  cbn [find_haplotype]. destruct (haplotype_eq_dec h haplotype) as [->|_]; [|auto].
  intros [= <-]. auto.
Qed.

Lemma cached_cache_value : forall cache read haplotype value r h w,
  cached (cache_value cache read haplotype value) r h = Some w ->
  (r = read /\ h = haplotype /\ w = value) \/ cached cache r h = Some w.
Proof.
  unfold cached.
  induction cache as [|[r0 inner] rest IH]; intros read haplotype value r h w.
  - cbn [cache_value find_read]. destruct (read_eq_dec r read) as [->|_]; [|discriminate].
    cbn [find_haplotype]. destruct (haplotype_eq_dec h haplotype) as [->|_]; [|discriminate].
    intros [= <-]. auto.
  - cbn [cache_value]. destruct (read_eq_dec read r0) as [->|Hne]; cbn [find_read].
    + destruct (read_eq_dec r r0) as [->|_]; [|auto].
      intros H. apply find_haplotype_emplace in H. destruct H as [[-> ->]|H]; auto.
    + destruct (read_eq_dec r r0) as [->|_]; [auto|]. apply IH.
Qed.

(** C8: [log_probability] returns the joint log-Viterbi score of the pair
    HMM minus [|haplotype| * log(target_emission)] with
    [target_emission = 0.25], on a cache that holds earlier results of the
    same function, and keeps the cache so; the match model it passes on has
    [gap_open = 0.015], [gap_extend = 0.020] and an end probability of at
    most [min(1 - 2 * gap_open, 1 - gap_extend)]. *)
Theorem log_probability_conditional m read haplotype :
  cache_consistent m ->
  fst (log_probability m read haplotype)
  = joint_log_viterbi read haplotype
    - INR (String.length (haplotype_sequence haplotype)) * ln target_emission
  /\ target_emission = 0.25
  /\ gap_open_probability (snd (fst (hmm_models read haplotype))) = 0.015
  /\ gap_extend_probability (snd (fst (hmm_models read haplotype))) = 0.020
  /\ end_probability (snd (fst (hmm_models read haplotype)))
     <= Rmin (1 - 2 * 0.015) (1 - 0.020)
  /\ cache_consistent (snd (log_probability m read haplotype)).
Proof.
  intros Hc.
  destruct (hmm_models_parameters read haplotype) as (Ht & Ho & Hx & He).
  assert (Hvalue : forall v,
             cached (cache_ m) read haplotype = None ->
             v = fst (log_probability m read haplotype) ->
             v = conditional_log_likelihood read haplotype).
  { intros v Hmiss ->. unfold log_probability. rewrite Hmiss.
    unfold conditional_log_likelihood, joint_log_viterbi. rewrite <- Ht.
    destruct (hmm_models read haplotype) as [[lhs mm] rhs]. reflexivity. }
  repeat split; try assumption; try reflexivity.
  - destruct (cached (cache_ m) read haplotype) as [v|] eqn:E.
    + unfold log_probability. rewrite E. cbn [fst]. apply (Hc _ _ _ E).
    + apply Hvalue; [first [assumption | reflexivity] | reflexivity].
  - destruct (cached (cache_ m) read haplotype) as [v|] eqn:E.
    + unfold log_probability. rewrite E. assumption.
    + assert (Hv := Hvalue _ ltac:(first [assumption | reflexivity]) eq_refl).
      unfold log_probability in *. rewrite E in *.
      destruct (hmm_models read haplotype) as [[lhs mm] rhs]. cbn [fst snd] in *.
      intros r h w H. cbn [cache_] in H.
      apply cached_cache_value in H. destruct H as [(-> & -> & ->)|H].
      * assumption.
      * apply (Hc _ _ _ H).
Qed.

(** *** The cache as a memo table *)

Lemma find_haplotype_emplace_eq inner haplotype value h :
  find_haplotype (emplace_haplotype inner haplotype value) h
  = match find_haplotype inner h with
    | Some w => Some w
    | None => if haplotype_eq_dec h haplotype then Some value else None
    end.
Proof.
  unfold emplace_haplotype.
  destruct (find_haplotype inner haplotype) as [w|] eqn:E.
  - destruct (find_haplotype inner h) as [w'|] eqn:E'; [reflexivity|].
    destruct (haplotype_eq_dec h haplotype) as [->|_]; [congruence | reflexivity].
  - cbn [find_haplotype]. destruct (haplotype_eq_dec h haplotype) as [->|_].
    + rewrite E. reflexivity.
    + destruct (find_haplotype inner h); reflexivity.
Qed.

Lemma cached_cache_value_eq : forall cache read haplotype value r h,
  cached (cache_value cache read haplotype value) r h
  = match cached cache r h with
    | Some w => Some w
    | None =>
        if read_eq_dec r read
        then if haplotype_eq_dec h haplotype then Some value else None
        else None
    end.
Proof.
  unfold cached.
  induction cache as [|[r0 inner] rest IH]; intros read haplotype value r h.
  - cbn [cache_value find_read]. destruct (read_eq_dec r read); [|reflexivity].
    cbn [find_haplotype]. reflexivity.
  - cbn [cache_value]. destruct (read_eq_dec read r0) as [->|Hne]; cbn [find_read].
    + destruct (read_eq_dec r r0) as [->|Hr].
      * apply find_haplotype_emplace_eq.
      * destruct (find_read rest r) as [inner'|]; [|reflexivity].
        destruct (find_haplotype inner' h); reflexivity.
    + destruct (read_eq_dec r r0) as [->|Hr].
      * destruct (read_eq_dec r0 read) as [->|_]; [congruence|].
        destruct (find_haplotype inner h); reflexivity.
      * apply IH.
Qed.

(** X22: [log_probability] memoises.  Asked again for the same read and
    haplotype, it returns the value it returned before, without a call of
    the pair-HMM, and leaves the cache as the first call left it. *)
Theorem log_probability_memoised m read haplotype :
  log_probability (snd (log_probability m read haplotype)) read haplotype
  = log_probability m read haplotype.
Proof.
  unfold log_probability at 2 3.
  destruct (cached (cache_ m) read haplotype) as [v|] eqn:E.
  - cbn [snd]. unfold log_probability. rewrite E. reflexivity.
  - destruct (hmm_models read haplotype) as [[lhs mm] rhs] eqn:Em. cbn [snd].
    unfold log_probability. cbn [cache_].
    rewrite cached_cache_value_eq, E.
    destruct (read_eq_dec read read) as [_|Hn]; [|congruence].
    destruct (haplotype_eq_dec haplotype haplotype) as [_|Hn]; [|congruence].
    reflexivity.
Qed.

(** X23: the cache after [log_probability(read, haplotype)] holds the
    value returned for that read and haplotype, and for every other pair
    what it held before: values that are cached are never overwritten or
    dropped. *)
Theorem log_probability_cache m read haplotype r h :
  cached (cache_ (snd (log_probability m read haplotype))) r h
  = if read_eq_dec r read
    then if haplotype_eq_dec h haplotype
         then Some (fst (log_probability m read haplotype))
         else cached (cache_ m) r h
    else cached (cache_ m) r h.
Proof.
  unfold log_probability.
  destruct (cached (cache_ m) read haplotype) as [v|] eqn:E.
  - cbn [fst snd]. destruct (read_eq_dec r read) as [->|_]; [|reflexivity].
    destruct (haplotype_eq_dec h haplotype) as [->|_]; [assumption | reflexivity].
  - destruct (hmm_models read haplotype) as [[lhs mm] rhs]. cbn [fst snd cache_].
    rewrite cached_cache_value_eq.
    destruct (read_eq_dec r read) as [->|_].
    + destruct (haplotype_eq_dec h haplotype) as [->|_].
      * rewrite E. reflexivity.
      * destruct (cached (cache_ m) read h); reflexivity.
    + destruct (cached (cache_ m) r h); reflexivity.
Qed.

(** *** The end probabilities *)

Lemma inv_size_probability n : 0 < 1 / (INR n + 1) <= 1.
Proof.
  pose proof (pos_INR n) as Hn. split.
  - apply Rdiv_lt_0_compat; lra.
  - apply (Rmult_le_reg_r (INR n + 1)); [lra|].
    unfold Rdiv. rewrite Rmult_assoc, Rinv_l by lra. lra.
Qed.

(** X24: every probability that [log_probability] hands to the pair-HMM
    is one: the end probabilities of the three models lie in (0, 1]
    whatever the read and the haplotype are (overlapping or not, with or
    without overhangs), and the emission and match probabilities are
    0.25. *)
Theorem hmm_models_probabilities read haplotype :
  let lhs_random := fst (fst (hmm_models read haplotype)) in
  let match_ := snd (fst (hmm_models read haplotype)) in
  let rhs_random := snd (hmm_models read haplotype) in
  0 < target_end_probability lhs_random <= 1
  /\ 0 < query_end_probability lhs_random <= 1
  /\ 0 < end_probability match_ <= 1
  /\ 0 < target_end_probability rhs_random <= 1
  /\ 0 < query_end_probability rhs_random <= 1
  /\ target_emission_probability lhs_random = 0.25
  /\ query_emission_probability lhs_random = 0.25
  /\ match_probability match_ = 0.25
  /\ target_emission_probability rhs_random = 0.25
  /\ query_emission_probability rhs_random = 0.25.
Proof.
  cbv zeta.
  assert (Emax : Rmax (2 * 0.015) 0.020 = 2 * 0.015) by (apply Rmax_left; lra).
  assert (Hmin : forall x, 0 < x <= 1 -> 0 < Rmin x (1 - 2 * 0.015) <= 1).
  { intros x Hx. split; [apply Rmin_glb_lt; lra|].
    eapply Rle_trans; [apply Rmin_l | apply Hx]. }
  unfold hmm_models, size. cbv zeta. rewrite Emax.
  destruct (overlaps _ _); [destruct (begins_before _ _), (ends_before _ _)|];
    cbn [fst snd target_end_probability query_end_probability end_probability
         target_emission_probability query_emission_probability match_probability];
    repeat split; try reflexivity; try lra;
    try apply inv_size_probability; try apply Hmin, inv_size_probability.
Qed.

End PairHMM.

(** *** A read inside a haplotype *)

Definition short_read : AlignedRead :=
  {| read_region := {| contig := "1"; region_begin := 2; region_end := 6 |};
     read_sequence := "ACGT";
     read_qualities := [30; 30; 30; 30]%nat |}.

Definition long_haplotype : Haplotype :=
  {| haplotype_region := {| contig := "1"; region_begin := 0; region_end := 8 |};
     haplotype_sequence := "TTACGTAA" |}.

Lemma log_probability_conditional_witness :
  fst (log_probability (fun _ _ _ _ _ _ => 0) (make_SingleReadModel 1 1)
         short_read long_haplotype)
  = joint_log_viterbi (fun _ _ _ _ _ _ => 0) short_read long_haplotype
    - INR (String.length (haplotype_sequence long_haplotype)) * ln target_emission
  /\ target_emission = 0.25
  /\ gap_open_probability (snd (fst (hmm_models short_read long_haplotype))) = 0.015
  /\ gap_extend_probability (snd (fst (hmm_models short_read long_haplotype))) = 0.020
  /\ end_probability (snd (fst (hmm_models short_read long_haplotype)))
     <= Rmin (1 - 2 * 0.015) (1 - 0.020)
  /\ cache_consistent (fun _ _ _ _ _ _ => 0)
       (snd (log_probability (fun _ _ _ _ _ _ => 0) (make_SingleReadModel 1 1)
               short_read long_haplotype)).
Proof.
  apply (log_probability_conditional (fun _ _ _ _ _ _ => 0) (make_SingleReadModel 1 1)
           short_read long_haplotype).
  intros read haplotype value H. simpl in H. discriminate.
Defined.

End SingleReadModel.

(** ** haplotype_likelihood_cache.cpp *)

Module LikelihoodCache.

Import SingleReadModel.

Local Open Scope nat_scope.

Definition SampleIdType : Type := string.

(** [ReadMap]: the reads of every sample, in the map's iteration order. *)
Definition ReadMap : Type := list (SampleIdType * list AlignedRead).

Definition ReadProbabilities : Type := list R.

(** The fields of [HaplotypeLikelihoodCache] that [populate] and
    [log_likelihoods] use; [read_iterators_] holds the range of reads of
    every sample, [mapping_positions_] is known by its size. *)
Record HaplotypeLikelihoodCache : Type :=
  { cache_ : list (Haplotype * list ReadProbabilities);
    sample_indices_ : list (SampleIdType * nat);
    read_iterators_ : list (list AlignedRead);
    mapping_positions_ : nat }.

Definition make_HaplotypeLikelihoodCache (max_haplotypes : nat) (samples : list SampleIdType)
  : HaplotypeLikelihoodCache :=
  {| cache_ := []; sample_indices_ := []; read_iterators_ := []; mapping_positions_ := 0 |}.

Fixpoint find_entry (cache : list (Haplotype * list ReadProbabilities)) (haplotype : Haplotype)
  : option (list ReadProbabilities) :=
  match cache with
  | [] => None
  | (h, slots) :: rest =>
      if haplotype_eq_dec haplotype h then Some slots else find_entry rest haplotype
  end.

Fixpoint find_sample (indices : list (SampleIdType * nat)) (sample : SampleIdType)
  : option nat :=
  match indices with
  | [] => None
  | (s, i) :: rest => if string_dec sample s then Some i else find_sample rest sample
  end.

(** [sample_indices_.emplace(sample, i)]: a sample that is there keeps its
    index. *)
Definition emplace_sample (indices : list (SampleIdType * nat)) (sample : SampleIdType)
  (i : nat) : list (SampleIdType * nat) :=
  match find_sample indices sample with
  | Some _ => indices
  | None => indices ++ [(sample, i)]
  end.

(** The entry of [haplotype] gets the value [slots], whether it was there
    or not: [populate] writes through the iterator that [emplace] returns. *)
Fixpoint store_entry (cache : list (Haplotype * list ReadProbabilities))
  (haplotype : Haplotype) (slots : list ReadProbabilities)
  : list (Haplotype * list ReadProbabilities) :=
  match cache with
  | [] => [(haplotype, slots)]
  | (h, old) :: rest =>
      if haplotype_eq_dec haplotype h then (h, slots) :: rest
      else (h, old) :: store_entry rest haplotype slots
  end.

Definition set_read_iterators_and_sample_indices
  (c : HaplotypeLikelihoodCache) (reads : ReadMap) : HaplotypeLikelihoodCache :=
  {| cache_ := cache_ c;
     sample_indices_ :=
       fst (fold_left
              (fun acc p => (emplace_sample (fst acc) (fst p) (snd acc), S (snd acc)))
              reads ([], 0));
     read_iterators_ := read_iterators_ c ++ map snd reads;
     mapping_positions_ := mapping_positions_ c |}.

(** All results, or [None] when one of them is [None]. *)
Fixpoint all_some {A : Type} (l : list (option A)) : option (list A) :=
  match l with
  | [] => Some []
  | Some x :: rest =>
      match all_some rest with
      | Some xs => Some (x :: xs)
      | None => None
      end
  | None :: _ => None
  end.

Section Populate.

(** The kmer hashing, the mapping of a read onto a haplotype and the
    pair-HMM behind [HaplotypeLikelihoodModel::log_probability] are not
    part of the sources.  [log_probability haplotype flank_state read
    read_hashes] stands for the value that the lambda in [populate]
    returns for a read and the hashes it is handed. *)
Variable KmerPerfectHashes : Type.
Variable InactiveRegionState : Type.
Variable compute_kmer_hashes : string -> KmerPerfectHashes.
Variable log_probability :
  Haplotype -> InactiveRegionState -> AlignedRead -> KmerPerfectHashes -> R.

(** The [std::transform] over the reads of one sample and the hashes that
    [read_hash_itr] points to: [None] when the reads outnumber the hashes
    (the source then reads past the end of the hashes). *)
Definition sample_likelihoods
  (haplotype : Haplotype) (flank_state : InactiveRegionState)
  (hashes : list KmerPerfectHashes) (reads : list AlignedRead) : option ReadProbabilities :=
  if List.length reads <=? List.length hashes
  then Some (map (fun rh => log_probability haplotype flank_state (fst rh) (snd rh))
               (combine reads hashes))
  else None.

(** One turn of the loop over the haplotypes.  [read_hash_itr] is the begin
    of [read_hashes] for every sample: it is never advanced.  [None] when
    the iterator [it] would leave the [num_samples] slots of the entry. *)
Definition populate_haplotype
  (flank_state : InactiveRegionState) (num_samples : nat)
  (read_iterators : list (list AlignedRead)) (read_hashes : list (list KmerPerfectHashes))
  (cache : option (list (Haplotype * list ReadProbabilities))) (haplotype : Haplotype)
  : option (list (Haplotype * list ReadProbabilities)) :=
  match cache with
  | None => None
  | Some cache =>
      let slots :=
        match find_entry cache haplotype with
        | Some slots => slots
        | None => repeat [] num_samples
        end in
      match
        all_some
          (map (sample_likelihoods haplotype flank_state (hd [] read_hashes)) read_iterators)
      with
      | None => None
      | Some written =>
          if List.length read_iterators <=? List.length slots
          then Some (store_entry cache haplotype
                       (written ++ skipn (List.length read_iterators) slots))
          else None
      end
  end.

(** [populate]; [None] when the source has undefined behaviour: no
    haplotype (the largest of none is dereferenced), or one of the cases
    of [sample_likelihoods] and [populate_haplotype]. *)
Definition populate
  (c : HaplotypeLikelihoodCache) (reads : ReadMap) (haplotypes : list Haplotype)
  (flank_state : InactiveRegionState) : option HaplotypeLikelihoodCache :=
  let c := set_read_iterators_and_sample_indices c reads in
  let num_samples := List.length reads in
  let read_hashes :=
    map (map (fun read => compute_kmer_hashes (read_sequence read))) (read_iterators_ c) in
  match haplotypes with
  | [] => None
  | _ :: _ =>
      let max_mapping_positions :=
        fold_left Nat.max
          (map (fun h => String.length (haplotype_sequence h)) haplotypes) 0 in
      match
        fold_left (populate_haplotype flank_state num_samples (read_iterators_ c) read_hashes)
          haplotypes (Some [])
      with
      | None => None
      | Some cache =>
          Some {| cache_ := cache;
                  sample_indices_ := sample_indices_ c;
                  read_iterators_ := [];
                  mapping_positions_ :=
                    Nat.max (mapping_positions_ c) max_mapping_positions |}
      end
  end.

(** [log_likelihoods(sample, haplotype)]: [None] where [at] throws or the
    index leaves the entry. *)
Definition log_likelihoods
  (c : HaplotypeLikelihoodCache) (sample : SampleIdType) (haplotype : Haplotype)
  : option ReadProbabilities :=
  match find_entry (cache_ c) haplotype, find_sample (sample_indices_ c) sample with
  | Some slots, Some i => nth_error slots i
  | _, _ => None
  end.

(** *** Entries and sample indices *)

(** The slot of every range of reads holds one likelihood per read. *)
Definition slots_match (read_iterators : list (list AlignedRead))
  (slots : list ReadProbabilities) : Prop :=
  forall i reads,
    nth_error read_iterators i = Some reads ->
    exists likelihoods,
      nth_error slots i = Some likelihoods
      /\ List.length likelihoods = List.length reads.

Lemma sample_likelihoods_length haplotype flank_state hashes reads likelihoods :
  sample_likelihoods haplotype flank_state hashes reads = Some likelihoods ->
  List.length likelihoods = List.length reads.
Proof.
  unfold sample_likelihoods.
  destruct (Nat.leb_spec (List.length reads) (List.length hashes)) as [H|H]; [|discriminate].
  intros [= <-]. rewrite length_map, length_combine. lia.
Qed.

Lemma all_some_map {A B : Type} (f : A -> option B) : forall l out,
  all_some (map f l) = Some out ->
  List.length out = List.length l
  /\ forall i x, nth_error l i = Some x ->
       exists y, nth_error out i = Some y /\ f x = Some y.
Proof.
  induction l as [|a l IH]; intros out H.
  - injection H as <-. split; [reflexivity|]. intros [|i] x Hx; discriminate.
  - cbn [map all_some] in H. destruct (f a) as [b|] eqn:Ea; [|discriminate].
    destruct (all_some (map f l)) as [bs|] eqn:Eb; [|discriminate].
    injection H as <-. destruct (IH bs eq_refl) as [Hlen Hnth].
    split; [simpl; lia|].
    intros [|i] x Hx.
    + injection Hx as <-. exists b. split; [reflexivity | assumption].
    + apply (Hnth i x Hx).
Qed.

Lemma find_store_entry cache haplotype slots h :
  find_entry (store_entry cache haplotype slots) h
  = if haplotype_eq_dec h haplotype then Some slots else find_entry cache h.
Proof.
  induction cache as [|[h0 old] rest IH]; cbn [store_entry find_entry].
  - reflexivity.
  - destruct (haplotype_eq_dec haplotype h0) as [->|Hne]; cbn [find_entry].
    + destruct (haplotype_eq_dec h h0); reflexivity.
    + destruct (haplotype_eq_dec h h0) as [->|Hne'].
      * destruct (haplotype_eq_dec h0 haplotype); [congruence | reflexivity].
      * apply IH.
Qed.

Section Fold.

Variable flank_state : InactiveRegionState.
Variable num_samples : nat.
Variable read_iterators : list (list AlignedRead).
Variable read_hashes : list (list KmerPerfectHashes).

Definition entries_match (cache : list (Haplotype * list ReadProbabilities)) : Prop :=
  forall h slots, find_entry cache h = Some slots -> slots_match read_iterators slots.

Lemma populate_haplotype_step cache haplotype cache' :
  entries_match cache ->
  populate_haplotype flank_state num_samples read_iterators read_hashes (Some cache) haplotype
  = Some cache' ->
  entries_match cache'
  /\ find_entry cache' haplotype <> None
  /\ forall h, find_entry cache h <> None -> find_entry cache' h <> None.
Proof.
  intros Hgood. unfold populate_haplotype. cbv zeta.
  destruct (all_some _) as [written|] eqn:Ew; [|discriminate].
  destruct (Nat.leb_spec (List.length read_iterators)
              (List.length
                 match find_entry cache haplotype with
                 | Some slots => slots
                 | None => repeat [] num_samples
                 end)) as [Hlen|Hlen]; [|discriminate].
  intros [= <-].
  destruct (all_some_map _ _ _ Ew) as [Hwl Hw].
  repeat split.
  - intros h slots. rewrite find_store_entry.
    destruct (haplotype_eq_dec h haplotype) as [->|Hne]; [|apply Hgood].
    intros [= <-] i reads Hi.
    destruct (Hw i reads Hi) as (l & Hl & El).
    exists l. split.
    + rewrite nth_error_app1; [assumption|].
      apply nth_error_Some. congruence.
    + apply sample_likelihoods_length in El. assumption.
  - rewrite find_store_entry. destruct (haplotype_eq_dec haplotype haplotype); congruence.
  - intros h Hh. rewrite find_store_entry. destruct (haplotype_eq_dec h haplotype); congruence.
Qed.

Lemma populate_haplotype_none haplotypes :
  fold_left (populate_haplotype flank_state num_samples read_iterators read_hashes)
    haplotypes None = None.
Proof. induction haplotypes as [|h hs IH]; [reflexivity | apply IH]. Qed.

Lemma populate_haplotypes_fold : forall haplotypes cache cache',
  entries_match cache ->
  fold_left (populate_haplotype flank_state num_samples read_iterators read_hashes)
    haplotypes (Some cache) = Some cache' ->
  entries_match cache'
  /\ (forall h, find_entry cache h <> None -> find_entry cache' h <> None)
  /\ forall h, In h haplotypes -> find_entry cache' h <> None.
Proof.
  induction haplotypes as [|h hs IH]; intros cache cache' Hgood H.
  - injection H as <-. repeat split; [assumption | auto | intros ? []].
  - cbn [fold_left] in H.
    destruct (populate_haplotype flank_state num_samples read_iterators read_hashes
                (Some cache) h) as [cache1|] eqn:E1;
      [|rewrite populate_haplotype_none in H; discriminate].
    destruct (populate_haplotype_step _ _ _ Hgood E1) as (Hgood1 & Hh & Hkeep1).
    destruct (IH _ _ Hgood1 H) as (Hgood' & Hkeep & Hall).
    repeat split; [assumption | auto |].
    intros h' [<-|Hin]; [apply Hkeep; assumption | apply Hall; assumption].
Qed.

End Fold.

Lemma find_sample_app indices sample i s :
  find_sample (indices ++ [(sample, i)]) s
  = match find_sample indices s with
    | Some j => Some j
    | None => if string_dec s sample then Some i else None
    end.
Proof.
  induction indices as [|[s0 j] rest IH]; cbn [app find_sample].
  - reflexivity.
  - destruct (string_dec s s0); [reflexivity | apply IH].
Qed.

Lemma find_sample_emplace_kept indices sample i s j :
  find_sample indices s = Some j -> find_sample (emplace_sample indices sample i) s = Some j.
Proof.
  intros H. unfold emplace_sample. destruct (find_sample indices sample); [assumption|].
  rewrite find_sample_app, H. reflexivity.
Qed.

Lemma sample_indices_kept : forall (reads : ReadMap) indices n s j,
  find_sample indices s = Some j ->
  find_sample
    (fst (fold_left
            (fun acc p => (emplace_sample (fst acc) (fst p) (snd acc), S (snd acc)))
            reads (indices, n))) s = Some j.
Proof.
  induction reads as [|[s0 rds] reads IH]; intros indices n s j H; [assumption|].
  cbn [fold_left fst snd]. apply IH. apply find_sample_emplace_kept. assumption.
Qed.

Lemma sample_indices_nth : forall (reads : ReadMap) indices n,
  NoDup (map fst reads) ->
  (forall s, In s (map fst reads) -> find_sample indices s = None) ->
  forall k sample sample_reads,
    nth_error reads k = Some (sample, sample_reads) ->
    find_sample
      (fst (fold_left
              (fun acc p => (emplace_sample (fst acc) (fst p) (snd acc), S (snd acc)))
              reads (indices, n))) sample = Some (n + k).
Proof.
  induction reads as [|[s0 rds] reads IH]; intros indices n Hnd Hfresh k sample sample_reads Hk.
  - destruct k; discriminate.
  - cbn [map] in Hnd. inversion Hnd as [|? ? Hnotin Hnd']; subst.
    cbn [fold_left fst snd].
    assert (E0 : emplace_sample indices s0 n = indices ++ [(s0, n)]).
    { unfold emplace_sample. rewrite (Hfresh s0) by (left; reflexivity). reflexivity. }
    destruct k as [|k].
    + injection Hk as <- <-. apply sample_indices_kept.
      rewrite E0, find_sample_app, (Hfresh s0) by (left; reflexivity).
      destruct (string_dec s0 s0); [f_equal; lia | congruence].
    + replace (n + S k) with (S n + k) by lia.
      apply (IH _ _ Hnd') with (sample_reads := sample_reads); [|assumption].
      intros s Hs. rewrite E0, find_sample_app, (Hfresh s) by (right; assumption).
      destruct (string_dec s s0) as [->|_]; [contradiction | reflexivity].
Qed.

(** Where [populate(reads, haplotypes, flank_state)] has a defined
    result, [log_likelihoods(sample, haplotype)] is, for every sample of
    [reads] and every haplotype of [haplotypes], a list with one entry per
    read of the sample. *)
Lemma populate_log_likelihoods_length c reads haplotypes flank_state c' :
  NoDup (map fst reads) ->
  read_iterators_ c = [] ->
  populate c reads haplotypes flank_state = Some c' ->
  read_iterators_ c' = []
  /\ forall sample sample_reads haplotype,
       In (sample, sample_reads) reads -> In haplotype haplotypes ->
       exists likelihoods,
         log_likelihoods c' sample haplotype = Some likelihoods
         /\ List.length likelihoods = List.length sample_reads.
Proof.
  intros Hnd Hiters. unfold populate. cbv zeta.
  destruct haplotypes as [|h0 hs]; [discriminate|].
  cbn [set_read_iterators_and_sample_indices read_iterators_ sample_indices_
       mapping_positions_].
  rewrite Hiters. cbn [app].
  destruct (fold_left _ (h0 :: hs) (Some [])) as [cache|] eqn:Efold; [|discriminate].
  intros [= <-]. split; [reflexivity|].
  intros sample sample_reads haplotype Hs Hh.
  assert (Hempty : entries_match (map snd reads) [])
    by (intros h slots H; discriminate).
  destruct (populate_haplotypes_fold _ _ _ _ _ _ _ Hempty Efold) as (Hgood & _ & Hall).
  apply In_nth_error in Hs. destruct Hs as [k Hk].
  unfold log_likelihoods. cbn [cache_ sample_indices_].
  destruct (find_entry cache haplotype) as [slots|] eqn:Eslots;
    [|exfalso; apply (Hall haplotype Hh); assumption].
  rewrite (sample_indices_nth reads [] 0 Hnd (fun _ _ => eq_refl) k sample sample_reads Hk).
  cbn [Nat.add].
  apply (Hgood haplotype slots Eslots k sample_reads).
  rewrite nth_error_map, Hk. reflexivity.
Qed.

(** *** When [populate] is defined *)

Lemma all_some_defined {A B : Type} (f : A -> option B) : forall l,
  (forall x, In x l -> exists y, f x = Some y) ->
  exists out, all_some (map f l) = Some out.
Proof.
  induction l as [|a l IH]; intros H; [exists []; reflexivity|].
  destruct (H a (or_introl eq_refl)) as [b Eb].
  destruct IH as [bs Ebs]; [intros x Hx; apply H; right; assumption|].
  exists (b :: bs). cbn [map all_some]. rewrite Eb, Ebs. reflexivity.
Qed.

Lemma populate_haplotypes_defined flank_state num_samples read_iterators read_hashes :
  List.length read_iterators = num_samples ->
  (forall reads, In reads read_iterators ->
                 List.length reads <= List.length (hd [] read_hashes)) ->
  forall haplotypes cache,
    (forall h slots, find_entry cache h = Some slots -> List.length slots = num_samples) ->
    exists cache',
      fold_left (populate_haplotype flank_state num_samples read_iterators read_hashes)
        haplotypes (Some cache) = Some cache'.
Proof.
  intros Hlen Hreads.
  induction haplotypes as [|h hs IH]; intros cache Hslots; [exists cache; reflexivity|].
  cbn [fold_left]. unfold populate_haplotype at 2. cbv zeta.
  destruct (all_some_defined
              (sample_likelihoods h flank_state (hd [] read_hashes)) read_iterators)
    as [written Ew].
  { intros reads Hin. unfold sample_likelihoods.
    destruct (Nat.leb_spec (List.length reads) (List.length (hd [] read_hashes)));
      [eexists; reflexivity | specialize (Hreads reads Hin); lia]. }
  rewrite Ew.
  set (slots := match find_entry cache h with
                | Some slots => slots
                | None => repeat [] num_samples
                end).
  assert (Hs : List.length slots = num_samples).
  { unfold slots. destruct (find_entry cache h) eqn:E;
      [apply (Hslots h), E | apply List.repeat_length]. }
  destruct (Nat.leb_spec (List.length read_iterators) (List.length slots)); [|lia].
  apply IH. intros h' slots'. rewrite find_store_entry.
  destruct (haplotype_eq_dec h' h); [|apply Hslots].
  intros [= <-]. destruct (all_some_map _ _ _ Ew) as [Hw _].
  rewrite length_app, length_skipn. lia.
Qed.

(** [populate] returns when there is a haplotype and no sample has more
    reads than the first sample, whose hashes are the ones handed to the
    reads of every sample. *)
Lemma populate_defined c reads haplotypes flank_state :
  read_iterators_ c = [] ->
  haplotypes <> [] ->
  (forall sample sample_reads,
     In (sample, sample_reads) reads ->
     List.length sample_reads <= List.length (hd [] (map snd reads))) ->
  exists c', populate c reads haplotypes flank_state = Some c'.
Proof.
  intros Hiters Hne Hreads. unfold populate. cbv zeta.
  destruct haplotypes as [|h0 hs]; [congruence|].
  cbn [set_read_iterators_and_sample_indices read_iterators_ sample_indices_
       mapping_positions_].
  rewrite Hiters. cbn [app].
  destruct (populate_haplotypes_defined flank_state (List.length reads) (map snd reads)
              (map (map (fun read => compute_kmer_hashes (read_sequence read)))
                 (map snd reads))
              (length_map _ _)) with (haplotypes := h0 :: hs) (cache := @nil (Haplotype * list ReadProbabilities))
    as [cache E].
  - intros rds Hin. apply in_map_iff in Hin. destruct Hin as ([s rds'] & <- & Hin).
    specialize (Hreads s rds' Hin). cbn [snd].
    destruct reads as [|[s1 r1] reads]; [destruct Hin|].
    cbn [map hd snd] in *. rewrite length_map. assumption.
  - intros h slots H. discriminate.
  - rewrite E. eexists. reflexivity.
Qed.

(** *** The values that [populate] stores *)

(** What [populate] writes for a haplotype and the reads of one sample:
    the likelihood of the [i]-th read is computed with the hashes of the
    [i]-th read of the first sample. *)
Definition stored_likelihoods (reads : ReadMap) (flank_state : InactiveRegionState)
  (haplotype : Haplotype) (sample_reads : list AlignedRead) : ReadProbabilities :=
  map (fun rh => log_probability haplotype flank_state (fst rh) (snd rh))
    (combine sample_reads
       (map (fun read => compute_kmer_hashes (read_sequence read))
          (hd [] (map snd reads)))).

Lemma all_some_inv {A B : Type} (f : A -> option B) : forall l out,
  all_some (map f l) = Some out -> forall x, In x l -> exists y, f x = Some y.
Proof.
  induction l as [|a l IH]; intros out H x Hx; [destruct Hx|].
  cbn [map all_some] in H. destruct (f a) as [b|] eqn:Ea; [|discriminate].
  destruct (all_some (map f l)) as [bs|] eqn:Eb; [|discriminate].
  destruct Hx as [<-|Hx]; [exists b; assumption | apply (IH bs eq_refl x Hx)].
Qed.

Lemma populate_haplotypes_values flank_state num_samples read_iterators read_hashes :
  forall haplotypes cache cache',
    (forall h slots, find_entry cache h = Some slots ->
       forall i reads, nth_error read_iterators i = Some reads ->
         exists likelihoods,
           nth_error slots i = Some likelihoods
           /\ sample_likelihoods h flank_state (hd [] read_hashes) reads = Some likelihoods) ->
    fold_left (populate_haplotype flank_state num_samples read_iterators read_hashes)
      haplotypes (Some cache) = Some cache' ->
    (forall h slots, find_entry cache' h = Some slots ->
       forall i reads, nth_error read_iterators i = Some reads ->
         exists likelihoods,
           nth_error slots i = Some likelihoods
           /\ sample_likelihoods h flank_state (hd [] read_hashes) reads = Some likelihoods)
    /\ (forall h, find_entry cache' h <> None -> find_entry cache h <> None \/ In h haplotypes)
    /\ (haplotypes <> [] ->
        forall reads, In reads read_iterators ->
                      List.length reads <= List.length (hd [] read_hashes)).
Proof.
  induction haplotypes as [|h0 hs IH]; intros cache cache' Hgood H.
  - injection H as <-. split; [assumption|]. split; [auto | congruence].
  - cbn [fold_left] in H.
    destruct (populate_haplotype flank_state num_samples read_iterators read_hashes
                (Some cache) h0) as [cache1|] eqn:E1;
      [|rewrite populate_haplotype_none in H; discriminate].
    unfold populate_haplotype in E1. cbv zeta in E1.
    destruct (all_some _) as [written|] eqn:Ew; [|discriminate].
    destruct (_ <=? _); [|discriminate]. injection E1 as <-.
    destruct (all_some_map _ _ _ Ew) as [Hwl Hw].
    assert (Hgood1 : forall h slots,
               find_entry
                 (store_entry cache h0
                    (written
                     ++ skipn (List.length read_iterators)
                          match find_entry cache h0 with
                          | Some slots => slots
                          | None => repeat [] num_samples
                          end)) h = Some slots ->
               forall i reads, nth_error read_iterators i = Some reads ->
                 exists likelihoods,
                   nth_error slots i = Some likelihoods
                   /\ sample_likelihoods h flank_state (hd [] read_hashes) reads
                      = Some likelihoods).
    { intros h slots. rewrite find_store_entry.
      destruct (haplotype_eq_dec h h0) as [->|Hne]; [|apply Hgood].
      intros [= <-] i reads Hi.
      destruct (Hw i reads Hi) as (l & Hl & El).
      exists l. split; [|assumption].
      rewrite nth_error_app1; [assumption|].
      apply nth_error_Some. congruence. }
    destruct (IH _ _ Hgood1 H) as (Hgood' & Hkeys & _).
    split; [assumption|]. split.
    + intros h Hh. destruct (Hkeys h Hh) as [Hc|Hin]; [|right; right; assumption].
      rewrite find_store_entry in Hc.
      destruct (haplotype_eq_dec h h0) as [->|_]; [right; left; reflexivity | left; assumption].
    + intros _ reads Hin.
      destruct (all_some_inv _ _ _ Ew reads Hin) as [y Ey].
      unfold sample_likelihoods in Ey.
      destruct (Nat.leb_spec (List.length reads) (List.length (hd [] read_hashes)));
        [assumption | discriminate].
Qed.

Lemma find_sample_absent : forall (reads : ReadMap) indices n s,
  find_sample indices s = None -> ~ In s (map fst reads) ->
  find_sample
    (fst (fold_left
            (fun acc p => (emplace_sample (fst acc) (fst p) (snd acc), S (snd acc)))
            reads (indices, n))) s = None.
Proof.
  induction reads as [|[s0 rds] reads IH]; intros indices n s Hnone Hnot; [assumption|].
  cbn [fold_left fst snd]. apply IH; [|intros Hin; apply Hnot; right; assumption].
  unfold emplace_sample. destruct (find_sample indices s0); [assumption|].
  rewrite find_sample_app, Hnone.
  destruct (string_dec s s0) as [->|_]; [|reflexivity].
  exfalso. apply Hnot. left. reflexivity.
Qed.

Lemma sample_likelihoods_value haplotype flank_state hashes reads likelihoods :
  sample_likelihoods haplotype flank_state hashes reads = Some likelihoods ->
  likelihoods
  = map (fun rh => log_probability haplotype flank_state (fst rh) (snd rh))
      (combine reads hashes).
Proof.
  unfold sample_likelihoods. destruct (_ <=? _); [|discriminate]. intros [= <-]. reflexivity.
Qed.

(** X25: after [populate], the likelihood stored for a haplotype and the
    [i]-th read of a sample is the value of the likelihood model for that
    read and the kmer hashes of the [i]-th read of the FIRST sample of the
    read map: the iterator over the hashes is never advanced.  For the
    first sample these are the read's own hashes. *)
Theorem populate_log_likelihoods_values c reads haplotypes flank_state c' :
  NoDup (map fst reads) ->
  read_iterators_ c = [] ->
  populate c reads haplotypes flank_state = Some c' ->
  forall sample sample_reads haplotype,
    In (sample, sample_reads) reads -> In haplotype haplotypes ->
    log_likelihoods c' sample haplotype
    = Some (stored_likelihoods reads flank_state haplotype sample_reads).
Proof.
  intros Hnd Hiters. unfold populate. cbv zeta.
  destruct haplotypes as [|h0 hs]; [intros H; discriminate H|].
  cbn [set_read_iterators_and_sample_indices read_iterators_ sample_indices_
       mapping_positions_].
  rewrite Hiters. cbn [app].
  destruct (fold_left _ (h0 :: hs) (Some [])) as [cache|] eqn:Efold;
    [|intros H; discriminate H].
  intros [= <-] sample sample_reads haplotype Hs Hh.
  epose proof (populate_haplotypes_values _ _ _ _ (h0 :: hs) [] cache) as Hv.
  specialize (Hv ltac:(intros h slots H; discriminate H) Efold).
  destruct Hv as (Hgood & _ & _).
  assert (Hempty : entries_match (map snd reads) [])
    by (intros h slots H; discriminate).
  destruct (populate_haplotypes_fold _ _ _ _ _ _ _ Hempty Efold) as (_ & _ & Hall).
  apply In_nth_error in Hs. destruct Hs as [k Hk].
  unfold log_likelihoods. cbn [cache_ sample_indices_].
  destruct (find_entry cache haplotype) as [slots|] eqn:Eslots;
    [|exfalso; apply (Hall haplotype Hh); assumption].
  rewrite (sample_indices_nth reads [] 0 Hnd (fun _ _ => eq_refl) k sample sample_reads Hk).
  cbn [Nat.add].
  destruct (Hgood haplotype slots Eslots k sample_reads) as (l & El & Ev).
  { rewrite nth_error_map, Hk. reflexivity. }
  rewrite El. f_equal. apply sample_likelihoods_value in Ev. rewrite Ev.
  unfold stored_likelihoods. destruct reads as [|[s1 r1] reads']; reflexivity.
Qed.

(** X26: [populate] replaces what the cache held.  Whatever was in it
    before, afterwards [log_likelihoods] has no value for a haplotype that
    is not among [haplotypes], nor for a sample that has no reads in the
    read map. *)
Theorem populate_log_likelihoods_absent c reads haplotypes flank_state c' :
  read_iterators_ c = [] ->
  populate c reads haplotypes flank_state = Some c' ->
  forall sample haplotype,
    ~ In haplotype haplotypes \/ ~ In sample (map fst reads) ->
    log_likelihoods c' sample haplotype = None.
Proof.
  intros Hiters. unfold populate. cbv zeta.
  destruct haplotypes as [|h0 hs]; [intros H; discriminate H|].
  cbn [set_read_iterators_and_sample_indices read_iterators_ sample_indices_
       mapping_positions_].
  rewrite Hiters. cbn [app].
  destruct (fold_left _ (h0 :: hs) (Some [])) as [cache|] eqn:Efold;
    [|intros H; discriminate H].
  intros [= <-] sample haplotype Habsent.
  epose proof (populate_haplotypes_values _ _ _ _ (h0 :: hs) [] cache) as Hv.
  specialize (Hv ltac:(intros h slots H; discriminate H) Efold).
  destruct Hv as (_ & Hkeys & _).
  unfold log_likelihoods. cbn [cache_ sample_indices_].
  destruct (find_entry cache haplotype) as [slots|] eqn:Eslots; [|reflexivity].
  destruct Habsent as [Hh|Hs].
  - exfalso. destruct (Hkeys haplotype) as [Hc|Hin]; [congruence | | contradiction].
    apply Hc. reflexivity.
  - rewrite (find_sample_absent reads [] 0 sample eq_refl Hs). reflexivity.
Qed.

(** X27: with an empty list of read iterators to begin with, [populate]
    has a defined result exactly when there is a haplotype and no sample
    has more reads than the first sample of the read map, whose hashes
    are handed to the reads of every sample. *)
Theorem populate_defined_iff c reads haplotypes flank_state :
  read_iterators_ c = [] ->
  (exists c', populate c reads haplotypes flank_state = Some c')
  <-> haplotypes <> []
      /\ forall sample sample_reads,
           In (sample, sample_reads) reads ->
           List.length sample_reads <= List.length (hd [] (map snd reads)).
Proof.
  intros Hiters. split.
  - intros [c' E]. unfold populate in E. cbv zeta in E.
    destruct haplotypes as [|h0 hs]; [discriminate|].
    split; [discriminate|].
    cbn [set_read_iterators_and_sample_indices read_iterators_] in E.
    rewrite Hiters in E. cbn [app] in E.
    destruct (fold_left _ (h0 :: hs) (Some [])) as [cache|] eqn:Efold; [|discriminate].
    epose proof (populate_haplotypes_values _ _ _ _ (h0 :: hs) [] cache) as Hv.
    specialize (Hv ltac:(intros h slots H; discriminate H) Efold).
    destruct Hv as (_ & _ & Hlen).
    intros sample sample_reads Hin.
    specialize (Hlen ltac:(discriminate) sample_reads
                  ltac:(apply in_map_iff; exists (sample, sample_reads); split;
                        [reflexivity | assumption])).
    destruct reads as [|[s1 r1] reads']; [destruct Hin|].
    cbn [map hd snd] in *. rewrite length_map in Hlen. assumption.
  - intros [Hne Hreads]. apply populate_defined; assumption.
Qed.

(** C9 fails on the code.  [populate] builds the kmer hashes of every
    sample's reads, but hands the hashes of the first sample's reads to the
    reads of every sample: [read_hash_itr] is never advanced, where the
    iterator over the slots is.  For a read map in which a sample has more
    reads than the first one, the transform over that sample's reads runs
    past the end of the first sample's hashes, and [populate] has no
    defined result: there is no list of likelihoods with one entry per
    read of that sample. *)
Theorem populate_reads_past_first_hashes c reads haplotypes flank_state sample sample_reads :
  read_iterators_ c = [] ->
  In (sample, sample_reads) reads ->
  List.length (hd [] (map snd reads)) < List.length sample_reads ->
  populate c reads haplotypes flank_state = None.
Proof.
  intros Hiters Hin Hlonger.
  destruct (populate c reads haplotypes flank_state) as [c'|] eqn:E; [|reflexivity].
  exfalso. unfold populate in E. cbv zeta in E.
  destruct haplotypes as [|h0 hs]; [discriminate|].
  cbn [set_read_iterators_and_sample_indices read_iterators_] in E.
  rewrite Hiters in E. cbn [app] in E.
  destruct (fold_left _ (h0 :: hs) (Some [])) as [cache|] eqn:Efold; [|discriminate].
  epose proof (populate_haplotypes_values _ _ _ _ (h0 :: hs) [] cache) as Hv.
  specialize (Hv ltac:(intros h slots H; discriminate H) Efold).
  destruct Hv as (_ & _ & Hlen).
  specialize (Hlen ltac:(discriminate) sample_reads
                ltac:(apply in_map_iff; exists (sample, sample_reads); split;
                      [reflexivity | assumption])).
  destruct reads as [|[s1 r1] reads']; [destruct Hin|].
  cbn [map hd snd] in *. rewrite length_map in Hlen. lia.
Qed.

End Populate.

(** *** One sample, and a second sample with more reads *)

Definition one_sample_cache : HaplotypeLikelihoodCache :=
  {| cache_ := [(long_haplotype, [[0%R]])];
     sample_indices_ := [("tumour"%string, 0)];
     read_iterators_ := [];
     mapping_positions_ := 8 |}.

Example populate_one_sample :
  populate unit unit (fun _ => tt) (fun _ _ _ _ => 0%R)
    (make_HaplotypeLikelihoodCache 1 ["tumour"%string])
    [("tumour"%string, [short_read])] [long_haplotype] tt
  = Some one_sample_cache.
Proof. reflexivity. Qed.

(** The hashes of the first sample's reads are handed to the reads of every
    sample: with more reads in a later sample the transform runs past
    their end. *)
Example populate_second_sample_longer :
  populate unit unit (fun _ => tt) (fun _ _ _ _ => 0%R)
    (make_HaplotypeLikelihoodCache 1 ["normal"; "tumour"]%string)
    [("normal"%string, [short_read]); ("tumour"%string, [short_read; short_read])]
    [long_haplotype] tt
  = None.
Proof. reflexivity. Qed.

Lemma populate_reads_past_first_hashes_witness :
  populate unit unit (fun _ => tt) (fun _ _ _ _ => 0%R)
    (make_HaplotypeLikelihoodCache 1 ["normal"; "tumour"]%string)
    [("normal"%string, [short_read]); ("tumour"%string, [short_read; short_read])]
    [long_haplotype] tt
  = None.
Proof.
  apply (populate_reads_past_first_hashes unit unit (fun _ => tt) (fun _ _ _ _ => 0%R)
           (make_HaplotypeLikelihoodCache 1 ["normal"; "tumour"]%string)
           [("normal"%string, [short_read]); ("tumour"%string, [short_read; short_read])]
           [long_haplotype] tt "tumour"%string [short_read; short_read]).
  - reflexivity.
  - right. left. reflexivity.
  - simpl. lia.
Defined.

Lemma populate_log_likelihoods_values_witness :
  log_likelihoods one_sample_cache "tumour"%string long_haplotype
  = Some (stored_likelihoods unit unit (fun _ => tt) (fun _ _ _ _ => 0%R)
            [("tumour"%string, [short_read])] tt long_haplotype [short_read]).
Proof.
  apply (populate_log_likelihoods_values unit unit (fun _ => tt) (fun _ _ _ _ => 0%R)
           (make_HaplotypeLikelihoodCache 1 ["tumour"%string])
           [("tumour"%string, [short_read])] [long_haplotype] tt one_sample_cache).
  - repeat constructor. simpl. tauto.
  - reflexivity.
  - reflexivity.
  - left. reflexivity.
  - left. reflexivity.
Defined.

Lemma populate_log_likelihoods_absent_witness :
  log_likelihoods one_sample_cache "normal"%string long_haplotype = None.
Proof.
  apply (populate_log_likelihoods_absent unit unit (fun _ => tt) (fun _ _ _ _ => 0%R)
           (make_HaplotypeLikelihoodCache 1 ["tumour"%string])
           [("tumour"%string, [short_read])] [long_haplotype] tt one_sample_cache).
  - reflexivity.
  - reflexivity.
  - right. simpl. intros [H | []]. discriminate H.
Defined.

Lemma populate_defined_iff_witness :
  (exists c',
      populate unit unit (fun _ => tt) (fun _ _ _ _ => 0%R)
        (make_HaplotypeLikelihoodCache 1 ["normal"; "tumour"]%string)
        [("normal"%string, [short_read]); ("tumour"%string, [short_read; short_read])]
        [long_haplotype] tt
      = Some c')
  <-> [long_haplotype] <> []
      /\ forall sample sample_reads,
           In (sample, sample_reads)
             [("normal"%string, [short_read]); ("tumour"%string, [short_read; short_read])] ->
           List.length sample_reads
           <= List.length
                (hd [] (map snd [("normal"%string, [short_read]);
                                 ("tumour"%string, [short_read; short_read])])).
Proof.
  apply (populate_defined_iff unit unit (fun _ => tt) (fun _ _ _ _ => 0%R)
           (make_HaplotypeLikelihoodCache 1 ["normal"; "tumour"]%string)
           [("normal"%string, [short_read]); ("tumour"%string, [short_read; short_read])]
           [long_haplotype] tt).
  reflexivity.
Defined.

End LikelihoodCache.

(** ** core/csr/filters/threshold_filter_factory.cpp *)

Module ThresholdFilter.

Import Ascii.

(** *** Strings *)

(** [expression.erase(std::remove(begin, end, c), end)] *)
Fixpoint remove_char (c : ascii) (s : string) : string :=
  match s with
  | EmptyString => EmptyString
  | String x rest =>
      if Ascii.eqb x c then remove_char c rest else String x (remove_char c rest)
  end.

(** [boost::is_any_of(set)] *)
Fixpoint is_any_of (set : string) (c : ascii) : bool :=
  match set with
  | EmptyString => false
  | String x rest => Ascii.eqb c x || is_any_of rest c
  end.

(** [boost::split(result, input, pred)], which does not compress adjacent
    separators: the tokens between the characters that satisfy [pred],
    empty ones too, one more than there are such characters. *)
Fixpoint split (pred : ascii -> bool) (input : string) : list string :=
  match input with
  | EmptyString => [EmptyString]
  | String c rest =>
      if pred c then EmptyString :: split pred rest
      else
        match split pred rest with
        | token :: tokens => String c token :: tokens
        | [] => [String c EmptyString]
        end
  end.

(** The characters of [s] that satisfy [pred]. *)
Fixpoint count_chars (pred : ascii -> bool) (s : string) : nat :=
  match s with
  | EmptyString => O
  | String c rest => ((if pred c then 1 else 0) + count_chars pred rest)%nat
  end.

(** No character of [s] is a space, a bar or one of the characters of the
    comparators. *)
Definition plain (s : string) : Prop :=
  count_chars (is_any_of " |<,>=") s = 0%nat.

(** *** Thresholds and conditions *)

Inductive Threshold : Type :=
| EqualThreshold (target : R)
| LessThreshold (target : R)
| LessEqualThreshold (target : R)
| GreaterThreshold (target : R)
| GreaterEqualThreshold (target : R).

(** [BadVariantFilterCondition], and whatever [make_measure] throws for a
    name it does not know (measure_factory.hpp is not part of the
    sources). *)
Inductive Error : Type :=
| BadVariantFilterCondition
| MeasureFactoryError.

Definition make_threshold (comparator : string) (target : R) : Error + Threshold :=
  if String.eqb comparator "==" then inr (EqualThreshold target)
  else if String.eqb comparator "<" then inr (LessThreshold target)
  else if String.eqb comparator "<=" then inr (LessEqualThreshold target)
  else if String.eqb comparator ">" then inr (GreaterThreshold target)
  else if String.eqb comparator ">=" then inr (GreaterEqualThreshold target)
  else inl BadVariantFilterCondition.

Section Factory.

(** The measures, their names and the names of the VCF filters are
    defined in headers that are not part of the sources, and so is
    [boost::lexical_cast<double>] ([None] when it throws
    [bad_lexical_cast]). *)
Variable MeasureWrapper : Type.
Variable make_measure : string -> option MeasureWrapper.
Variable make_strand_bias : R -> MeasureWrapper.
Variable name_StrandBias : string.
Variable get_vcf_filter_name : MeasureWrapper -> string -> R -> string.
Variable lexical_cast : string -> option R.

(** [ThresholdVariantCallFilter::Condition] *)
Record Condition : Type :=
  { measure : MeasureWrapper;
    threshold : Threshold;
    vcf_filter_key : string }.

(** [make_condition<double>] *)
Definition make_condition_of (measure_name comparator : string) (threshold_target : R)
  : Error + Condition :=
  match make_measure measure_name with
  | None => inl MeasureFactoryError
  | Some made =>
      let measure :=
        if String.eqb measure_name name_StrandBias
        then make_strand_bias threshold_target else made in
      match make_threshold comparator threshold_target with
      | inl e => inl e
      | inr threshold =>
          inr {| measure := measure;
                 threshold := threshold;
                 vcf_filter_key :=
                   get_vcf_filter_name measure comparator threshold_target |}
      end
  end.

(** [make_condition] for a target given as text. *)
Definition make_condition (measure comparator threshold_target : string)
  : Error + Condition :=
  match lexical_cast threshold_target with
  | None => inl BadVariantFilterCondition
  | Some target => make_condition_of measure comparator target
  end.

(** The body of the loop over the conditions in [parse_conditions]. *)
Definition parse_condition (condition : string) : Error + Condition :=
  match split (is_any_of "<,>,<=,=>,==") condition with
  | [front; back] =>
      let comparitor_pos := String.length front in
      let comparitor_length :=
        (String.length condition - comparitor_pos - String.length back)%nat in
      let comparator := substring comparitor_pos comparitor_length condition in
      make_condition front comparator back
  | _ => inl BadVariantFilterCondition
  end.

(** The loop: the conditions in order, up to the first one that throws. *)
Fixpoint parse_each (conditions : list string) : Error + list Condition :=
  match conditions with
  | [] => inr []
  | condition :: rest =>
      match parse_condition condition with
      | inl e => inl e
      | inr parsed =>
          match parse_each rest with
          | inl e => inl e
          | inr result => inr (parsed :: result)
          end
      end
  end.

Definition parse_conditions (expression : string) : Error + list Condition :=
  let expression := remove_char " " expression in
  match expression with
  | EmptyString => inr []
  | _ => parse_each (split (is_any_of "|") expression)
  end.

Definition is_less_or_greater (t : Threshold) : Prop :=
  match t with
  | LessThreshold _ | GreaterThreshold _ => True
  | _ => False
  end.

(** *** Tokens *)

Lemma split_not_nil pred input : split pred input <> [].
Proof.
  destruct input as [|c rest]; cbn [split]; [discriminate|].
  destruct (pred c); [discriminate|]. destruct (split pred rest); discriminate.
Qed.

Lemma split_length pred : forall input,
  List.length (split pred input) = S (count_chars pred input).
Proof.
  induction input as [|c rest IH]; [reflexivity|].
  cbn [split count_chars]. destruct (pred c).
  - cbn [List.length]. rewrite IH. reflexivity.
  - pose proof (split_not_nil pred rest). destruct (split pred rest); [congruence|].
    cbn [List.length] in *. lia.
Qed.

Lemma split_plain pred : forall input,
  count_chars pred input = 0%nat -> split pred input = [input].
Proof.
  induction input as [|c rest IH]; intros H; [reflexivity|].
  cbn [split count_chars] in *. destruct (pred c); [discriminate|].
  rewrite IH by assumption. reflexivity.
Qed.

Lemma split_app pred c : forall front rest,
  count_chars pred front = 0%nat -> pred c = true ->
  split pred (front ++ String c rest) = front :: split pred rest.
Proof.
  induction front as [|x front IH]; intros rest Hf Hc.
  - cbn [append split]. rewrite Hc. reflexivity.
  - cbn [append split count_chars] in *. destruct (pred x); [discriminate|].
    rewrite IH by assumption. reflexivity.
Qed.

(** Two tokens: the input is the first token, one separator and the
    second token. *)
Lemma split_two pred : forall input front back,
  split pred input = [front; back] ->
  exists c,
    pred c = true /\ input = (front ++ String c back)%string
    /\ count_chars pred front = 0%nat /\ count_chars pred back = 0%nat.
Proof.
  induction input as [|x rest IH]; intros front back H; [discriminate|].
  cbn [split] in H. destruct (pred x) eqn:Ex.
  - injection H as <- Hrest.
    pose proof (split_length pred rest) as Hlen. rewrite Hrest in Hlen.
    cbn [List.length] in Hlen. assert (Hz : count_chars pred rest = 0%nat) by lia.
    rewrite (split_plain pred rest Hz) in Hrest. injection Hrest as ->.
    exists x. repeat split; [assumption | assumption].
  - destruct (split pred rest) as [|token tokens] eqn:Es; [discriminate|].
    injection H as <- ->.
    destruct (IH token back eq_refl) as (c & Hc & -> & Hf & Hb).
    exists c. cbn [append count_chars]. rewrite Ex. repeat split; assumption.
Qed.

Lemma substring_middle c : forall front back,
  substring (String.length front) 1 (front ++ String c back) = String c EmptyString.
Proof.
  induction front as [|x front IH]; intros back.
  - cbn [append String.length substring]. destruct back; reflexivity.
  - cbn [append String.length substring]. apply IH.
Qed.

Lemma length_append : forall front back,
  String.length (front ++ back) = (String.length front + String.length back)%nat.
Proof.
  induction front as [|x front IH]; intros back; [reflexivity|].
  cbn [append String.length]. rewrite IH. reflexivity.
Qed.

Lemma parse_condition_two front c back :
  is_any_of "<,>,<=,=>,==" c = true ->
  count_chars (is_any_of "<,>,<=,=>,==") front = 0%nat ->
  count_chars (is_any_of "<,>,<=,=>,==") back = 0%nat ->
  parse_condition (front ++ String c back)
  = make_condition front (String c EmptyString) back.
Proof.
  intros Hc Hf Hb. unfold parse_condition.
  rewrite (split_app _ c front back Hf Hc), (split_plain _ back Hb). cbv zeta.
  rewrite length_append. cbn [String.length].
  replace (String.length front + S (String.length back) - String.length front
           - String.length back)%nat with 1%nat by lia.
  rewrite substring_middle. reflexivity.
Qed.

Lemma parse_condition_inv condition parsed :
  parse_condition condition = inr parsed ->
  exists front c back,
    condition = (front ++ String c back)%string
    /\ is_any_of "<,>,<=,=>,==" c = true
    /\ make_condition front (String c EmptyString) back = inr parsed.
Proof.
  intros H. unfold parse_condition in H.
  destruct (split _ condition) as [|front [|back [|third tokens]]] eqn:Es;
    try discriminate.
  destruct (split_two _ _ _ _ Es) as (c & Hc & -> & Hf & Hb).
  exists front, c, back. split; [reflexivity|]. split; [assumption|].
  rewrite <- H. symmetry. cbv zeta.
  rewrite length_append. cbn [String.length].
  replace (String.length front + S (String.length back) - String.length front
           - String.length back)%nat with 1%nat by lia.
  rewrite substring_middle. reflexivity.
Qed.

Lemma make_threshold_one_character c target made :
  make_threshold (String c EmptyString) target = inr made -> is_less_or_greater made.
Proof.
  unfold make_threshold. cbn [String.eqb].
  destruct (Ascii.eqb c "=") eqn:E1; cbn [String.eqb].
  - destruct (Ascii.eqb c "<") eqn:E2; [intros [= <-]; exact I|].
    destruct (Ascii.eqb c ">") eqn:E3; [intros [= <-]; exact I | discriminate].
  - destruct (Ascii.eqb c "<") eqn:E2; [intros [= <-]; exact I|].
    destruct (Ascii.eqb c ">") eqn:E3; [intros [= <-]; exact I | discriminate].
Qed.

Lemma make_condition_one_character front c back parsed :
  make_condition front (String c EmptyString) back = inr parsed ->
  is_less_or_greater (threshold parsed).
Proof.
  unfold make_condition, make_condition_of.
  destruct (lexical_cast back) as [target|]; [|discriminate].
  destruct (make_measure front) as [made|]; [|discriminate]. cbv zeta.
  destruct (make_threshold (String c EmptyString) target) as [e|th] eqn:Et; [discriminate|].
  intros [= <-]. cbn [threshold]. apply (make_threshold_one_character c target th Et).
Qed.

Lemma parse_each_spec : forall conditions result,
  parse_each conditions = inr result ->
  List.length result = List.length conditions
  /\ Forall (fun parsed => is_less_or_greater (threshold parsed)) result.
Proof.
  induction conditions as [|condition rest IH]; intros result H.
  - injection H as <-. split; [reflexivity | constructor].
  - cbn [parse_each] in H.
    destruct (parse_condition condition) as [e|parsed] eqn:Ep; [discriminate|].
    destruct (parse_each rest) as [e|others] eqn:Er; [discriminate|].
    injection H as <-. destruct (IH others eq_refl) as [Hlen Hall].
    split; [simpl; lia|]. constructor; [|assumption].
    destruct (parse_condition_inv _ _ Ep) as (front & c & back & _ & _ & Hm).
    apply (make_condition_one_character front c back parsed Hm).
Qed.

(** X28: whatever the expression is, the conditions that
    [parse_conditions] returns compare with [<] or with [>] only: no
    filter made from an expression tests [==], [<=] or [>=], although
    [make_threshold] knows these comparators.  There is one condition per
    bar-separated piece of the expression without its spaces, and none for
    an expression of spaces. *)
Theorem parse_conditions_less_or_greater expression :
  (remove_char " " expression = EmptyString -> parse_conditions expression = inr [])
  /\ forall conditions,
       parse_conditions expression = inr conditions ->
       Forall (fun parsed => is_less_or_greater (threshold parsed)) conditions
       /\ (remove_char " " expression <> EmptyString ->
           List.length conditions
           = S (count_chars (is_any_of "|") (remove_char " " expression))).
Proof.
  unfold parse_conditions. cbv zeta. split.
  - intros ->. reflexivity.
  - intros conditions H.
    destruct (remove_char " " expression) as [|c rest] eqn:E.
    + injection H as <-. split; [constructor | congruence].
    + destruct (parse_each_spec _ _ H) as [Hlen Hall].
      split; [assumption|]. intros _. rewrite Hlen. apply split_length.
Qed.

Lemma remove_char_plain : forall s,
  count_chars (is_any_of " |<,>=") s = 0%nat -> remove_char " " s = s.
Proof.
  induction s as [|x s IH]; intros H; [reflexivity|].
  cbn [count_chars is_any_of] in H. cbn [remove_char].
  destruct (Ascii.eqb x " ") eqn:E; [cbn [orb] in H; discriminate|].
  cbn [orb] in H.
  destruct (_ || _) eqn:E2 in H; [discriminate|].
  rewrite IH by assumption. reflexivity.
Qed.

Lemma plain_no_bar : forall s,
  count_chars (is_any_of " |<,>=") s = 0%nat -> count_chars (is_any_of "|") s = 0%nat.
Proof.
  induction s as [|x s IH]; intros H; [reflexivity|].
  cbn [count_chars is_any_of] in *.
  destruct (Ascii.eqb x " "); [cbn [orb] in H; discriminate|].
  destruct (Ascii.eqb x "|"); [cbn [orb] in H; discriminate|].
  cbn [orb] in *.
  destruct (_ || _) eqn:E2 in H; [discriminate|].
  apply IH. assumption.
Qed.

Lemma plain_no_comparator : forall s,
  count_chars (is_any_of " |<,>=") s = 0%nat ->
  count_chars (is_any_of "<,>,<=,=>,==") s = 0%nat.
Proof.
  induction s as [|x s IH]; intros H; [reflexivity|].
  cbn [count_chars is_any_of] in *.
  destruct (Ascii.eqb x " "); [cbn [orb] in H; discriminate|].
  destruct (Ascii.eqb x "|"); [cbn [orb] in H; discriminate|].
  destruct (Ascii.eqb x "<"); [cbn [orb] in H; discriminate|].
  destruct (Ascii.eqb x ","); [cbn [orb] in H; discriminate|].
  destruct (Ascii.eqb x ">"); [cbn [orb] in H; discriminate|].
  destruct (Ascii.eqb x "="); [cbn [orb] in H; discriminate|].
  cbn [orb] in *. apply IH. assumption.
Qed.

Lemma count_chars_app pred : forall s t,
  count_chars pred (s ++ t) = (count_chars pred s + count_chars pred t)%nat.
Proof.
  induction s as [|x s IH]; intros t; [reflexivity|].
  cbn [append count_chars]. rewrite IH. lia.
Qed.

Lemma remove_char_app c : forall s t,
  remove_char c (s ++ t) = (remove_char c s ++ remove_char c t)%string.
Proof.
  induction s as [|x s IH]; intros t; [reflexivity|].
  cbn [append remove_char]. destruct (Ascii.eqb x c); rewrite IH; reflexivity.
Qed.

(** X29: an expression with a comparator of two characters is rejected:
    for a measure name and a target without spaces, bars and comparator
    characters, [parse_conditions] throws [BadVariantFilterCondition] on
    [measure <= target], [measure >= target] and [measure == target],
    whatever the measure and the target are. *)
Theorem parse_conditions_two_characters measure_name comparator target :
  plain measure_name -> plain target ->
  comparator = "<="%string \/ comparator = ">="%string \/ comparator = "=="%string ->
  parse_conditions (measure_name ++ comparator ++ target)
  = inl BadVariantFilterCondition.
Proof.
  intros Hm Ht Hc.
  assert (E : exists c1 c2,
             comparator = String c1 (String c2 EmptyString)
             /\ Ascii.eqb c1 " " = false /\ Ascii.eqb c2 " " = false
             /\ is_any_of "|" c1 = false /\ is_any_of "|" c2 = false
             /\ is_any_of "<,>,<=,=>,==" c1 = true
             /\ is_any_of "<,>,<=,=>,==" c2 = true).
  { destruct Hc as [-> | [-> | ->]]; do 2 eexists; repeat split. }
  destruct E as (c1 & c2 & -> & S1 & S2 & B1 & B2 & P1 & P2).
  unfold parse_conditions. cbv zeta.
  rewrite remove_char_app. cbn [append remove_char]. rewrite S1, S2.
  rewrite (remove_char_plain _ Hm), (remove_char_plain _ Ht).
  destruct (measure_name ++ String c1 (String c2 target))%string eqn:E;
    [destruct measure_name; discriminate|].
  rewrite <- E. clear E.
  rewrite split_plain.
  - cbn [parse_each]. unfold parse_condition.
    rewrite (split_app _ c1 measure_name _ (plain_no_comparator _ Hm) P1).
    cbn [split]. rewrite P2. rewrite (split_plain _ target (plain_no_comparator _ Ht)).
    reflexivity.
  - rewrite count_chars_app. cbn [count_chars]. rewrite B1, B2.
    rewrite (plain_no_bar _ Hm), (plain_no_bar _ Ht). reflexivity.
Qed.

(** X30: for a measure name and a target without spaces, bars and
    comparator characters, [parse_conditions] reads [measure < target] and
    [measure > target] as one condition: the measure that [make_measure]
    gives for the name (for the strand bias measure, one made from the
    target), a less-than or greater-than threshold at the number that the
    target text is cast to, and the filter name for them. *)
Theorem parse_conditions_single measure_name target made value :
  plain measure_name -> plain target ->
  make_measure measure_name = Some made -> lexical_cast target = Some value ->
  let measured :=
    if String.eqb measure_name name_StrandBias then make_strand_bias value else made in
  parse_conditions (measure_name ++ "<" ++ target)
  = inr [ {| measure := measured;
             threshold := LessThreshold value;
             vcf_filter_key := get_vcf_filter_name measured "<" value |} ]
  /\ parse_conditions (measure_name ++ ">" ++ target)
     = inr [ {| measure := measured;
                threshold := GreaterThreshold value;
                vcf_filter_key := get_vcf_filter_name measured ">" value |} ].
Proof.
  intros Hm Ht Hmade Hvalue. cbv zeta.
  assert (H : forall c,
             Ascii.eqb c " " = false -> is_any_of "|" c = false ->
             is_any_of "<,>,<=,=>,==" c = true ->
             parse_conditions (measure_name ++ String c target)
             = match make_condition measure_name (String c EmptyString) target with
               | inl e => inl e
               | inr parsed => inr [parsed]
               end).
  { intros c Sc Bc Pc. unfold parse_conditions. cbv zeta.
    rewrite remove_char_app. cbn [remove_char]. rewrite Sc.
    rewrite (remove_char_plain _ Hm), (remove_char_plain _ Ht).
    destruct (measure_name ++ String c target)%string eqn:E;
      [destruct measure_name; discriminate|].
    rewrite <- E. clear E.
    rewrite split_plain.
    - cbn [parse_each].
      rewrite (parse_condition_two measure_name c target Pc
                 (plain_no_comparator _ Hm) (plain_no_comparator _ Ht)).
      destruct (make_condition _ _ _); reflexivity.
    - rewrite count_chars_app. cbn [count_chars]. rewrite Bc.
      rewrite (plain_no_bar _ Hm), (plain_no_bar _ Ht). reflexivity. }
  split.
  - change (measure_name ++ "<" ++ target)%string
      with (measure_name ++ String "<" target)%string.
    rewrite H by reflexivity.
    unfold make_condition, make_condition_of. rewrite Hvalue, Hmade. reflexivity.
  - change (measure_name ++ ">" ++ target)%string
      with (measure_name ++ String ">" target)%string.
    rewrite H by reflexivity.
    unfold make_condition, make_condition_of. rewrite Hvalue, Hmade. reflexivity.
Qed.

End Factory.

Definition measure_of_name (name : string) : option string := Some name.

Definition strand_bias_measure (target : R) : string := "SB"%string.

Definition filter_of_measure (measure comparator : string) (target : R) : string := measure.

Definition cast_ten (text : string) : option R :=
  if String.eqb text "10"%string then Some 10 else None.

Lemma parse_conditions_two_characters_witness :
  parse_conditions string measure_of_name strand_bias_measure "SB"%string filter_of_measure cast_ten
    ("QUAL" ++ "<=" ++ "10")%string
  = inl (BadVariantFilterCondition).
Proof.
  apply (parse_conditions_two_characters string measure_of_name strand_bias_measure "SB"
           filter_of_measure cast_ten "QUAL"%string "<="%string "10"%string);
    [reflexivity | reflexivity | left; reflexivity].
Defined.

Lemma parse_conditions_single_witness :
  parse_conditions string measure_of_name strand_bias_measure "SB"%string filter_of_measure cast_ten
    ("QUAL" ++ "<" ++ "10")%string
  = inr [ {| measure := "QUAL"%string;
             threshold := LessThreshold 10;
             vcf_filter_key := "QUAL"%string |} ].
Proof.
  exact (proj1 (parse_conditions_single string measure_of_name strand_bias_measure "SB"
                  filter_of_measure cast_ten "QUAL"%string "10"%string "QUAL"%string 10
                  eq_refl eq_refl eq_refl eq_refl)).
Defined.

End ThresholdFilter.
